(** * MagiaTimeline: the frame-point and interval passes

    A shallow embedding of the pass pipeline of [MagiaTimeline.py]:
    [FramePoint], [FPIR] with its virtual end point, the noise-removal pass
    [FPIRPassRemoveNoise], the interval-build pass [FPIRPassBuildIntervals],
    [Interval] with [dist], and the gap-bridging pass
    [IIRPassFillFlashBlank].

    Conventions.
    - Python integers are [Z]; [//] is [Z.div] (both round towards minus
      infinity for a positive divisor).  Timestamps are taken as integers,
      as the annotations of the source say.
    - A Python list is a [list]; [l[i]] is the stdpp lookup [l !! i] and an
      in-place store [l[i] = x] is [<[i:=x]> l].
    - Objects held in a list ([FramePoint], [Interval]) are mutated in place
      by the passes; the list is the store, and a pass is a function from
      the store before to the store after.  Every object occurs once in its
      list, as [main] builds them. *)

From Stdlib Require Import ZArith Bool Lia String.
From stdpp Require Import base tactics numbers option list sorting.
Local Open Scope Z_scope.

(** ** Errors *)

(** The two ways the modelled code fails: the explicit [raise Exception(..)]
    of [FramePoint.__init__], and the [IndexError] Python raises for a list
    index out of range. *)
Inductive error : Type :=
  | Exception (msg : string)
  | IndexError.

Inductive result (A : Type) : Type :=
  | Ok (a : A)
  | Err (e : error).
Arguments Ok {A} a.
Arguments Err {A} e.

Definition bind {A B : Type} (r : result A) (k : A -> result B) : result B :=
  match r with
  | Ok a => k a
  | Err e => Err e
  end.

(** ** SubtitleType *)

Inductive SubtitleType : Type :=
  | DIALOG
  | BLACKSCREEN
  | WHITESCREEN
  | CGSUB.

(** The [IntEnum] value of a member, used as a list index. *)
Definition SubtitleType_value (t : SubtitleType) : nat :=
  match t with
  | DIALOG => 0
  | BLACKSCREEN => 1
  | WHITESCREEN => 2
  | CGSUB => 3
  end%nat.

Definition SubtitleType_members : list SubtitleType :=
  [DIALOG; BLACKSCREEN; WHITESCREEN; CGSUB].

(** [SubtitleType.num()] *)
Definition SubtitleType_num : nat := length SubtitleType_members.

Definition SubtitleType_eqb (a b : SubtitleType) : bool :=
  Nat.eqb (SubtitleType_value a) (SubtitleType_value b).

(** ** FramePoint *)

Record FramePoint : Type := mkFramePoint {
  index : Z;
  timestamp : Z;
  flags : list bool
}.

(** [FramePoint.__init__] *)
Definition FramePoint_init (index timestamp : Z) (flags : list bool)
  : result FramePoint :=
  if negb (Nat.eqb (length flags) SubtitleType_num)
  then Err (Exception "len(flags) != SubtitleTypes.num()")
  else Ok (mkFramePoint index timestamp flags).

(** [framePoint.flags[type]], as a checked read. *)
Definition get_flag (type : SubtitleType) (framePoint : FramePoint)
  : result bool :=
  match flags framePoint !! SubtitleType_value type with
  | Some b => Ok b
  | None => Err IndexError
  end.

(** [framePoint.flags[type]] on a frame point built by [FramePoint_init],
    whose [flags] has one entry per channel, so that the read cannot fail
    (lemma [get_flag_wf]). *)
Definition flag (type : SubtitleType) (framePoint : FramePoint) : bool :=
  match flags framePoint !! SubtitleType_value type with
  | Some b => b
  | None => false
  end.

(** [framePoint.flags[type] = b] *)
Definition set_flag (type : SubtitleType) (b : bool) (framePoint : FramePoint)
  : FramePoint :=
  mkFramePoint (index framePoint) (timestamp framePoint)
    (<[SubtitleType_value type := b]> (flags framePoint)).

(** A frame point as [FramePoint_init] builds it. *)
Definition wf_FramePoint (framePoint : FramePoint) : Prop :=
  length (flags framePoint) = SubtitleType_num.

(** ** FPIR *)

(** [FPIR.framePoints] *)
Abbreviation FPIR := (list FramePoint).

(** [fpir.framePoints[i].flags[type]] for an integer index [i].  The
    loops of the noise-removal pass read at indices of the list only
    (lemma [RemoveNoise_reads_in_range]): Python's wrap-around of negative
    indices and its [IndexError] do not come into play there. *)
Definition flag_at (type : SubtitleType) (fpir : FPIR) (i : Z) : bool :=
  match fpir !! Z.to_nat i with
  | Some framePoint => flag type framePoint
  | None => false
  end.

(** [range(start, stop)] *)
Definition range (start stop : Z) : list Z :=
  (fun k => start + Z.of_nat k) <$> seq 0 (Z.to_nat (stop - start)).

(** [range(start, stop, -1)] *)
Definition range_down (start stop : Z) : list Z :=
  (fun k => start - Z.of_nat k) <$> seq 0 (Z.to_nat (start - stop)).

(** ** FPIRPassRemoveNoise *)

Section RemoveNoise.

Variable type : SubtitleType.
Variable minPositiveLength : Z.
Variable minNegativeLength : Z.

(** One of the two counting loops of [apply]:
    [for i in idxs: if fpir[i].flags[type] != v: break; length += 1]. *)
Fixpoint count_loop (fpir : FPIR) (v : bool) (idxs : list Z) (length : Z) : Z :=
  match idxs with
  | [] => length
  | i :: idxs' =>
      if negb (eqb (flag_at type fpir i) v) then length
      else count_loop fpir v idxs' (length + 1)
  end.

(** The body of the [for id, framePoint in enumerate(..)] loop. *)
Definition RemoveNoise_body (fpir : FPIR) (id : nat) : FPIR :=
  match fpir !! id with
  | None => fpir
  | Some framePoint =>
      let minLength :=
        if flag type framePoint then minPositiveLength
        else minNegativeLength in
      let l := Z.of_nat id - minLength in
      let r := Z.of_nat id + minLength in
      if (l <? 0) || (r >? Z.of_nat (length fpir) - 1) then fpir
      else
        let length := 0 in
        let length :=
          count_loop fpir (flag type framePoint)
            (range_down (Z.of_nat id - 1) (l - 1)) length in
        let length :=
          count_loop fpir (flag type framePoint)
            (range (Z.of_nat id + 1) (r + 1)) length in
        if length <? minLength
        then <[id := set_flag type (negb (flag type framePoint)) framePoint]> fpir
        else fpir
  end.

(** [FPIRPassRemoveNoise.apply] *)
Definition FPIRPassRemoveNoise_apply (fpir : FPIR) : FPIR :=
  fold_left RemoveNoise_body (seq 0 (length fpir)) fpir.

End RemoveNoise.

(** ** Interval *)

Record Interval : Type := mkInterval {
  ibegin : Z;          (* [begin], a timestamp *)
  iend : Z;            (* [end], a timestamp *)
  itype : SubtitleType (* [type] *)
}.

(** [Interval.dist] *)
Definition dist (self other : Interval) : Z :=
  let l := self in
  let r := other in
  if ibegin self >? ibegin other
  then (let l := other in let r := self in ibegin r - iend l)
  else ibegin r - iend l.

(** [Interval.intersects] *)
Definition intersects (self other : Interval) : bool := dist self other <? 0.

(** [Interval.touches] *)
Definition touches (self other : Interval) : bool := dist self other =? 0.

(** ** The virtual end point *)

(** [FPIR.genVirtualEnd]; [self.framePoints[-1]] raises [IndexError] on the
    empty list. *)
Definition genVirtualEnd (fpir : FPIR) : result FramePoint :=
  let index := Z.of_nat (length fpir) in
  match last fpir with
  | None => Err IndexError
  | Some lastFramePoint =>
      let timestamp := timestamp lastFramePoint in
      let flags := replicate SubtitleType_num false in
      FramePoint_init index timestamp flags
  end.

(** [FPIR.getFramePointsWithVirtualEnd]: a fresh list; [fpir] itself is not
    changed. *)
Definition getFramePointsWithVirtualEnd (fpir : FPIR) : result (list FramePoint) :=
  bind (genVirtualEnd fpir) (fun virtualEnd => Ok (fpir ++ [virtualEnd])).

(** ** FPIRPassBuildIntervals *)

(** The local variables of [FPIRPassBuildIntervals.apply]. *)
Record BuildState : Type := mkBuildState {
  intervals : list Interval;
  lastBegin : Z;
  state : bool
}.

Section BuildIntervals.

Variable type : SubtitleType.

(** The body of [for framePoint in fpir.getFramePointsWithVirtualEnd()]. *)
Definition BuildIntervals_body (st : BuildState) (framePoint : FramePoint)
  : BuildState :=
  if negb (state st) then
    if flag type framePoint
    then mkBuildState (intervals st) (timestamp framePoint) true
    else st
  else
    if negb (flag type framePoint)
    then mkBuildState
           (intervals st ++ [mkInterval (lastBegin st) (timestamp framePoint) type])
           (lastBegin st) false
    else st.

(** [FPIRPassBuildIntervals.apply] *)
Definition FPIRPassBuildIntervals_apply (fpir : FPIR) : result (list Interval) :=
  bind (getFramePointsWithVirtualEnd fpir) (fun framePoints =>
    Ok (intervals
          (fold_left BuildIntervals_body framePoints
             (mkBuildState [] 0 false)))).

End BuildIntervals.

(** ** IIR *)

(** [IIR.intervals] *)
Abbreviation IIR := (list Interval).

(** [list.sort(key=lambda interval: interval.begin)] is a stable sort: the
    result is the one arrangement of the list in non-decreasing [begin] in
    which intervals of equal [begin] keep their order.  Insertion from the
    right, placing an interval before those of equal [begin] that followed
    it, computes that arrangement. *)
Fixpoint insert_by_begin (x : Interval) (l : list Interval) : list Interval :=
  match l with
  | [] => [x]
  | y :: l' =>
      if ibegin x <=? ibegin y then x :: y :: l'
      else y :: insert_by_begin x l'
  end.

(** [IIR.sort] *)
Definition IIR_sort (iir : IIR) : IIR := fold_right insert_by_begin [] iir.

(** The loop of [IIR.__init__]: [for type in SubtitleType:
    self.intervals.extend(fpir.accept(FPIRPassBuildIntervals(type)))]. *)
Fixpoint IIR_collect (fpir : FPIR) (types : list SubtitleType) (acc : IIR)
  : result IIR :=
  match types with
  | [] => Ok acc
  | type :: types' =>
      bind (FPIRPassBuildIntervals_apply type fpir) (fun ivs =>
        IIR_collect fpir types' (acc ++ ivs))
  end.

(** [IIR.__init__] *)
Definition IIR_init (fpir : FPIR) : result IIR :=
  bind (IIR_collect fpir SubtitleType_members []) (fun ivs => Ok (IIR_sort ivs)).

(** ** IIRPassFillFlashBlank *)

Section FillFlashBlank.

Variable type : SubtitleType.
Variable maxBlank : Z.

(** The [while otherId < len(iir.intervals)] loop.  [otherId] starts at
    [id + 1] and only ever grows by one, and no iteration changes the
    length of the list, so the loop visits the indices [otherIds] in
    order: [continue] goes on with the next, [break] leaves the loop. *)
Fixpoint FillFlashBlank_while (iir : IIR) (id : nat) (otherIds : list nat)
  : IIR :=
  match otherIds with
  | [] => iir
  | otherId :: otherIds' =>
      match iir !! id, iir !! otherId with
      | Some interval, Some otherInterval =>
          if negb (SubtitleType_eqb (itype otherInterval) type)
          then FillFlashBlank_while iir id otherIds'
          else if dist interval otherInterval >? maxBlank
          then iir
          else if dist interval otherInterval <=? 0
          then FillFlashBlank_while iir id otherIds'
          else
            let mid := (iend interval + ibegin otherInterval) / 2 in
            let iir :=
              <[id := mkInterval (ibegin interval) mid (itype interval)]> iir in
            <[otherId := mkInterval mid (iend otherInterval) (itype otherInterval)]> iir
      | _, _ => iir
      end
  end.

(** The body of [for id, interval in enumerate(iir.intervals)]. *)
Definition FillFlashBlank_body (iir : IIR) (id : nat) : IIR :=
  match iir !! id with
  | None => iir
  | Some interval =>
      if negb (SubtitleType_eqb (itype interval) type) then iir
      else FillFlashBlank_while iir id
             (seq (S id) (length iir - S id))
  end.

(** The sweep of [IIRPassFillFlashBlank.apply], before [iir.sort()]. *)
Definition FillFlashBlank_sweep (iir : IIR) : IIR :=
  fold_left FillFlashBlank_body (seq 0 (length iir)) iir.

(** [IIRPassFillFlashBlank.apply] *)
Definition IIRPassFillFlashBlank_apply (iir : IIR) : IIR :=
  IIR_sort (FillFlashBlank_sweep iir).

End FillFlashBlank.

(** ** The scan of the noise-removal pass, step by step *)

Section RemoveNoiseScan.

Variable type : SubtitleType.
Variable minPositiveLength : Z.
Variable minNegativeLength : Z.

(** The store after the iterations for the frames [0 .. k-1]. *)
Definition RemoveNoise_prefix (fpir : FPIR) (k : nat) : FPIR :=
  fold_left (RemoveNoise_body type minPositiveLength minNegativeLength)
    (seq 0 k) fpir.

(** What the backward loop of the iteration for frame [id] adds to
    [length], and what the forward loop adds. *)
Definition backward_count (fpir : FPIR) (v : bool) (id minLength : Z) : Z :=
  count_loop type fpir v (range_down (id - 1) (id - minLength - 1)) 0.

Definition forward_count (fpir : FPIR) (v : bool) (id minLength : Z) : Z :=
  count_loop type fpir v (range (id + 1) (id + minLength + 1)) 0.

End RemoveNoiseScan.

(** ** The passes as the specification words them *)

(** The flags of one channel, frame by frame. *)
Definition channel (type : SubtitleType) (fpir : FPIR) : list bool :=
  flag type <$> fpir.

(** The number of leading flags of [window] equal to [v]: a walk that
    counts and stops at the first differing flag. *)
Fixpoint run_length (v : bool) (window : list bool) : Z :=
  match window with
  | [] => 0
  | b :: window' => if eqb b v then 1 + run_length v window' else 0
  end.

(** Flip the flag of [type] at frame [i], in place. *)
Definition flip (type : SubtitleType) (fpir : FPIR) (i : nat) : FPIR :=
  alter (fun framePoint =>
           set_flag type (negb (flag type framePoint)) framePoint) i fpir.

Section NoiseRemovalSpec.

Variable type : SubtitleType.
Variable minPositiveLength : Z.
Variable minNegativeLength : Z.

(** The visit of frame [i]: [minLength] from the stored flag, the
    boundary exemption, the two walks over the stored flags (up to
    [minLength] frames backward from [i - 1], up to [minLength] frames
    forward from [i + 1]), and the flip when their sum is below
    [minLength]. *)
Definition noise_visit (fpir : FPIR) (i : nat) : FPIR :=
  match channel type fpir !! i with
  | None => fpir
  | Some v =>
      let minLength :=
        if (v : bool) then minPositiveLength else minNegativeLength in
      if decide (Z.of_nat i - minLength < 0
                 \/ Z.of_nat i + minLength > Z.of_nat (length fpir) - 1)
      then fpir
      else
        let backward :=
          take (Z.to_nat minLength) (reverse (take i (channel type fpir))) in
        let forward :=
          take (Z.to_nat minLength) (drop (S i) (channel type fpir)) in
        if decide (run_length v backward + run_length v forward < minLength)
        then flip type fpir i
        else fpir
  end.

(** Frames are visited in increasing order, each visit reading what the
    earlier ones stored. *)
Definition noise_removal (fpir : FPIR) : FPIR :=
  fold_left noise_visit (seq 0 (length fpir)) fpir.

End NoiseRemovalSpec.

Section GapBridgingSpec.

Variable type : SubtitleType.
Variable maxGap : Z.

(** The forward scan for interval [A] through the [later] intervals:
    the result is [A] and [later] after the scan. *)
Fixpoint bridge_scan (A : Interval) (later : list Interval)
  : Interval * list Interval :=
  match later with
  | [] => (A, [])
  | B :: later' =>
      if negb (SubtitleType_eqb (itype B) type) then
        (* another channel: skipped, the scan goes on *)
        let (A', rest) := bridge_scan A later' in (A', B :: rest)
      else if dist A B <=? 0 then
        (* overlapping or touching: skipped, the scan goes on *)
        let (A', rest) := bridge_scan A later' in (A', B :: rest)
      else if dist A B >? maxGap then
        (* too far: the scan for [A] stops *)
        (A, B :: later')
      else
        let mid := (iend A + ibegin B) / 2 in
        (mkInterval (ibegin A) mid (itype A),
         mkInterval mid (iend B) (itype B) :: later')
  end.

(** The sweep over the first [n] intervals of the collection, in
    order. *)
Fixpoint bridge_sweep_n (n : nat) (iir : IIR) : IIR :=
  match n, iir with
  | S n', A :: later =>
      if negb (SubtitleType_eqb (itype A) type)
      then A :: bridge_sweep_n n' later
      else
        let (A', later') := bridge_scan A later in
        A' :: bridge_sweep_n n' later'
  | _, _ => iir
  end.

Definition bridge_sweep (iir : IIR) : IIR :=
  bridge_sweep_n (length iir) iir.

(** The gap-bridging pass: the sweep, then the re-sort by [begin]. *)
Definition gap_bridging (iir : IIR) : IIR := IIR_sort (bridge_sweep iir).

End GapBridgingSpec.

(** Collections sorted by [begin]. *)
Definition begin_le (A B : Interval) : Prop := ibegin A <= ibegin B.

Definition sorted_by_begin (iir : IIR) : Prop := StronglySorted begin_le iir.

(** The invariant of [Interval]. *)
Definition begin_le_end (A : Interval) : Prop := ibegin A <= iend A.

(** The midpoint the gap-bridging pass moves [A.end] and [B.begin] to. *)
Definition mid_of (A B : Interval) : Z := (iend A + ibegin B) / 2.

(** Intervals of one channel as the interval-build pass emits them from
    strictly increasing timestamps: each satisfies the invariant and ends
    strictly before the next one begins. *)
Definition separated (L : list Interval) : Prop :=
  Forall begin_le_end L
  /\ StronglySorted (fun A B => iend A < ibegin B) L.

(** Whether the pass bridges the gap between [A] and [B]. *)
Definition bridgeable (maxGap : Z) (A B : Interval) : bool :=
  (0 <? dist A B) && (dist A B <=? maxGap).

Definition set_begin (b : Z) (A : Interval) : Interval :=
  mkInterval b (iend A) (itype A).

Definition set_end (e : Z) (A : Interval) : Interval :=
  mkInterval (ibegin A) e (itype A).

Definition lower_head (b : Z) (L : list Interval) : list Interval :=
  match L with
  | [] => []
  | B :: L' => set_begin b B :: L'
  end.

(** What the scan for [A] does to [A] and to the intervals of the channel
    after it when they are separated: only the next one matters. *)
Definition chain_head (maxGap : Z) (A : Interval) (L : list Interval)
  : list Interval :=
  match L with
  | [] => [A]
  | B :: R =>
      if bridgeable maxGap A B
      then set_end (mid_of A B) A :: set_begin (mid_of A B) B :: R
      else A :: B :: R
  end.

(** What the sweep does to the separated intervals of one channel: each
    gap between neighbours that qualifies is closed at its midpoint. *)
Fixpoint bridge_chain (maxGap : Z) (L : list Interval) : list Interval :=
  match L with
  | [] => []
  | A :: rest =>
      match rest with
      | [] => [A]
      | B :: _ =>
          if bridgeable maxGap A B
          then set_end (mid_of A B) A
                 :: lower_head (mid_of A B) (bridge_chain maxGap rest)
          else A :: bridge_chain maxGap rest
      end
  end.

(** Frame sequences with non-decreasing, and with strictly increasing,
    timestamps. *)
Definition timestamps_nondecreasing (fpir : FPIR) : Prop :=
  StronglySorted (fun p q => timestamp p <= timestamp q) fpir.

Definition timestamps_increasing (fpir : FPIR) : Prop :=
  StronglySorted (fun p q => timestamp p < timestamp q) fpir.

(** The invariant of the loop of the build pass over frames in strictly
    increasing timestamp order; [c] is the timestamp of the last frame
    seen. *)
Definition build_inv (st : BuildState) (c : Z) : Prop :=
  separated (intervals st)
  /\ Forall (fun I => iend I <= c) (intervals st)
  /\ (state st = true ->
      lastBegin st <= c
      /\ Forall (fun I => iend I < lastBegin st) (intervals st)).

(** A run of gap-bridging passes, one per entry [(type, maxBlank)]. *)
Definition run_passes (passes : list (SubtitleType * Z)) (iir : IIR) : IIR :=
  fold_left (fun iir p => IIRPassFillFlashBlank_apply (fst p) (snd p) iir)
    passes iir.

(** The intervals of one channel, in collection order. *)
Definition of_channel (type : SubtitleType) (iir : IIR) : list Interval :=
  filter (fun A => SubtitleType_eqb (itype A) type = true) iir.

(** A time [t] lies in the half-open interval [[begin, end)]. *)
Definition covers (A : Interval) (t : Z) : Prop := ibegin A <= t < iend A.

(** ** Test data *)

(** Frames at the given timestamps whose DIALOG flags are [bs]; the other
    channels are off. *)
Definition frames_of (ts : list Z) (bs : list bool) : FPIR :=
  (fun p => mkFramePoint (Z.of_nat (fst p)) (fst (snd p))
              [snd (snd p); false; false; false])
  <$> zip (seq 0 (length bs)) (zip ts bs).

Definition scenario1 : FPIR :=
  frames_of [0; 100; 200; 300; 400] [true; false; true; true; false].

Definition flipflop5 : FPIR :=
  frames_of [0; 100; 200; 300; 400] [true; false; false; true; false].

Definition noisy8 : FPIR :=
  frames_of [0; 100; 200; 300; 400; 500; 600; 700]
    [false; false; true; false; true; false; false; false].

(** ** Further definitions: effects of the passes and the passes of [main] *)

(** What an iteration of the noise-removal pass for [type] may change in a
    frame point: the entry of [type] in [flags], nothing else. *)
Definition same_but_flag (type : SubtitleType) (fp fp' : FramePoint) : Prop :=
  index fp' = index fp
  /\ timestamp fp' = timestamp fp
  /\ length (flags fp') = length (flags fp)
  /\ forall j, j <> SubtitleType_value type -> flags fp' !! j = flags fp !! j.

Section ChannelRemoval.

Variable minPositiveLength : Z.
Variable minNegativeLength : Z.

(** The iteration of the noise-removal pass for frame [i], on the flags of
    the channel alone. *)
Definition channel_visit (col : list bool) (i : nat) : list bool :=
  match col !! i with
  | None => col
  | Some v =>
      let minLength :=
        if (v : bool) then minPositiveLength else minNegativeLength in
      if decide (Z.of_nat i - minLength < 0
                 \/ Z.of_nat i + minLength > Z.of_nat (length col) - 1)
      then col
      else
        let backward := take (Z.to_nat minLength) (reverse (take i col)) in
        let forward := take (Z.to_nat minLength) (drop (S i) col) in
        if decide (run_length v backward + run_length v forward < minLength)
        then alter negb i col
        else col
  end.

Definition channel_removal (col : list bool) : list bool :=
  fold_left channel_visit (seq 0 (length col)) col.

End ChannelRemoval.

(** What the sweep of the gap-bridging pass may do to an interval: lower
    its begin, raise its end. *)
Definition grown (A A' : Interval) : Prop :=
  ibegin A' <= ibegin A /\ iend A <= iend A' /\ itype A' = itype A.

(** The part of [main] between the building of the FPIR from the video and
    the writing of the subtitles: the four noise-removal passes (the
    defaults are [minPositiveLength = 10], [minNegativeLength = 2]), the
    construction of the IIR, the four gap-bridging passes. *)
Definition main_fpir_passes (fpir : FPIR) : FPIR :=
  let fpir := FPIRPassRemoveNoise_apply DIALOG 10 2 fpir in
  let fpir := FPIRPassRemoveNoise_apply BLACKSCREEN 10 2 fpir in
  let fpir := FPIRPassRemoveNoise_apply WHITESCREEN 10 0 fpir in
  FPIRPassRemoveNoise_apply CGSUB 10 2 fpir.




(** The frames [i .. j - 1] of [fps] are a maximal run of frames whose
    flag of [type] is on, closed by frame [j], and [I] is the interval of
    [type] from the timestamp of frame [i] to the timestamp of
    frame [j]. *)
Definition maximal_run (type : SubtitleType) (fps : list FramePoint)
    (I : Interval) (i j : nat) : Prop :=
  exists fpi fpj,
    fps !! i = Some fpi /\ fps !! j = Some fpj
    /\ I = mkInterval (timestamp fpi) (timestamp fpj) type
    /\ (i < j)%nat
    /\ (forall k fp, (i <= k < j)%nat -> fps !! k = Some fp ->
          flag type fp = true)
    /\ flag type fpj = false
    /\ (forall fp, i <> 0%nat -> fps !! pred i = Some fp ->
          flag type fp = false).

(** The frames of [fps] from [i] on have their flag of [type] on, the
    frame before [i] has not, and [b] is the timestamp of frame [i]. *)
Definition open_run (type : SubtitleType) (fps : list FramePoint)
    (b : Z) (i : nat) : Prop :=
  exists fpi,
    fps !! i = Some fpi /\ b = timestamp fpi
    /\ (forall k fp, (i <= k)%nat -> fps !! k = Some fp -> flag type fp = true)
    /\ (forall fp, i <> 0%nat -> fps !! pred i = Some fp ->
          flag type fp = false).

(** The invariant of the loop of the build pass after the frames [seen]:
    the intervals emitted are maximal runs, every frame whose flag is on
    lies in one of them or in the run that is open, and [state] tells
    whether a run is open. *)
Definition runs_inv (type : SubtitleType) (st : BuildState)
    (seen : list FramePoint) : Prop :=
  (forall I, I ∈ intervals st -> exists i j, maximal_run type seen I i j)
  /\ (forall k fp, seen !! k = Some fp -> flag type fp = true ->
        (exists I i j,
           I ∈ intervals st /\ maximal_run type seen I i j
           /\ (i <= k < j)%nat)
        \/ (state st = true
            /\ exists i, open_run type seen (lastBegin st) i /\ (i <= k)%nat))
  /\ (state st = true -> exists i, open_run type seen (lastBegin st) i)
  /\ (state st = false ->
      forall fp, last seen = Some fp -> flag type fp = false).

(** The [minNegativeLength] [main] gives the noise-removal pass of each
    channel. *)
Definition main_minNegativeLength (type : SubtitleType) : Z :=
  match type with
  | WHITESCREEN => 0
  | _ => 2
  end.
(** * Construction of frame points *)

Lemma SubtitleType_num_4 : SubtitleType_num = 4%nat.
Proof. reflexivity. Qed.

Lemma SubtitleType_value_lt (type : SubtitleType) :
  (SubtitleType_value type < SubtitleType_num)%nat.
Proof. destruct type; cbv; lia. Qed.

Lemma SubtitleType_eqb_eq (a b : SubtitleType) :
  SubtitleType_eqb a b = true <-> a = b.
Proof. destruct a, b; cbv; split; congruence. Qed.

Lemma SubtitleType_eqb_refl (a : SubtitleType) : SubtitleType_eqb a a = true.
Proof. by apply SubtitleType_eqb_eq. Qed.

(** The checked read and [flag] agree on a frame point with one flag per
    channel. *)
Lemma get_flag_wf (type : SubtitleType) (framePoint : FramePoint) :
  wf_FramePoint framePoint ->
  get_flag type framePoint = Ok (flag type framePoint).
Proof.
  unfold wf_FramePoint, get_flag, flag. intros Hwf.
  destruct (lookup_lt_is_Some_2 (flags framePoint) (SubtitleType_value type))
    as [b Hb].
  - rewrite Hwf. apply SubtitleType_value_lt.
  - by rewrite Hb.
Qed.

Lemma FramePoint_init_wf index timestamp flags framePoint :
  FramePoint_init index timestamp flags = Ok framePoint ->
  wf_FramePoint framePoint.
Proof.
  unfold FramePoint_init, wf_FramePoint.
  destruct (Nat.eqb_spec (length flags) SubtitleType_num) as [Heq|Hne];
    simpl; [|discriminate].
  by intros [= <-].
Qed.

(** C8: constructing a FramePoint raises exactly when the flags list does
    not have one entry per channel (four channels); with four flags the
    construction succeeds and stores index, timestamp and flags as given.
    The error is the result of the construction itself. *)
Theorem FramePoint_init_spec (i t : Z) (fl : list bool) :
  SubtitleType_num = 4%nat
  /\ ((exists e, FramePoint_init i t fl = Err e)
      <-> length fl <> SubtitleType_num)
  /\ (FramePoint_init i t fl = Ok (mkFramePoint i t fl)
      <-> length fl = SubtitleType_num)
  /\ (forall framePoint,
        FramePoint_init i t fl = Ok framePoint ->
        index framePoint = i
        /\ timestamp framePoint = t
        /\ flags framePoint = fl).
Proof.
  split; [reflexivity|]. unfold FramePoint_init.
  destruct (Nat.eqb_spec (length fl) SubtitleType_num) as [Heq|Hne]; simpl.
  - split; [|split].
    + split; [intros [e He]; discriminate | congruence].
    + split; auto.
    + by intros framePoint [= <-].
  - split; [|split].
    + split; [auto | eauto].
    + split; [discriminate | congruence].
    + discriminate.
Qed.

(** * Distance between intervals *)

Lemma dist_le (A B : Interval) :
  ibegin A <= ibegin B -> dist A B = ibegin B - iend A.
Proof. unfold dist. intros H. destruct (Z.gtb_spec (ibegin A) (ibegin B)); [lia|done]. Qed.

Lemma dist_gt (A B : Interval) :
  ibegin B < ibegin A -> dist A B = ibegin A - iend B.
Proof. unfold dist. intros H. destruct (Z.gtb_spec (ibegin A) (ibegin B)); [done|lia]. Qed.

(** C9, as the code has it: dist(A,B) is R.begin - L.end for L the interval
    of smaller begin, and L = A when the begins are equal; it is symmetric
    exactly when the begins differ or the ends agree; its sign tells
    whether R begins before, at or after the end of L, and two non-empty
    intervals share a time exactly when it is negative. *)
Theorem dist_spec (A B : Interval) :
  (ibegin A < ibegin B -> dist A B = ibegin B - iend A)
  /\ (ibegin B < ibegin A -> dist A B = ibegin A - iend B)
  /\ (ibegin A = ibegin B -> dist A B = ibegin B - iend A)
  /\ (dist A B = dist B A <-> (ibegin A <> ibegin B \/ iend A = iend B))
  /\ (intersects A B = true <-> dist A B < 0)
  /\ (touches A B = true <-> dist A B = 0)
  /\ (ibegin A < iend A -> ibegin B < iend B ->
      (dist A B < 0 <-> exists t, covers A t /\ covers B t)).
Proof.
  repeat split.
  - intros; apply dist_le; lia.
  - apply dist_gt.
  - intros; apply dist_le; lia.
  - intros Heq.
    destruct (Z.lt_trichotomy (ibegin A) (ibegin B)) as [H|[H|H]]; [left; lia| |left; lia].
    right. rewrite (dist_le A B), (dist_le B A) in Heq by lia. lia.
  - intros [Hne|He].
    + destruct (Z.lt_trichotomy (ibegin A) (ibegin B)) as [H|[H|H]]; [|done|].
      * rewrite (dist_le A B), (dist_gt B A) by lia. done.
      * rewrite (dist_gt A B), (dist_le B A) by lia. done.
    + destruct (Z.lt_trichotomy (ibegin A) (ibegin B)) as [H|[H|H]].
      * rewrite (dist_le A B), (dist_gt B A) by lia. done.
      * rewrite (dist_le A B), (dist_le B A) by lia. lia.
      * rewrite (dist_gt A B), (dist_le B A) by lia. done.
  - unfold intersects. apply Z.ltb_lt.
  - unfold intersects. apply Z.ltb_lt.
  - unfold touches. apply Z.eqb_eq.
  - unfold touches. apply Z.eqb_eq.
  - intros Hd. unfold covers.
    destruct (Z.le_gt_cases (ibegin A) (ibegin B)) as [Hle|Hgt].
    + rewrite dist_le in Hd by done. exists (ibegin B). lia.
    + rewrite dist_gt in Hd by lia. exists (ibegin A). lia.
  - intros [t [HA HB]]. unfold covers in *.
    destruct (Z.le_gt_cases (ibegin A) (ibegin B)) as [Hle|Hgt].
    + rewrite dist_le by done. lia.
    + rewrite dist_gt by lia. lia.
Qed.

(** C9 as stated fails: with equal begins the distance depends on which
    interval is asked. *)
Lemma dist_not_symmetric :
  dist (mkInterval 0 10 DIALOG) (mkInterval 0 20 DIALOG) = -10
  /\ dist (mkInterval 0 20 DIALOG) (mkInterval 0 10 DIALOG) = -20
  /\ ~ (forall A B : Interval, dist A B = dist B A).
Proof.
  split; [reflexivity|]. split; [reflexivity|].
  intros H. specialize (H (mkInterval 0 10 DIALOG) (mkInterval 0 20 DIALOG)).
  vm_compute in H. discriminate.
Qed.

(** * The virtual end point and the interval-build pass *)

Lemma genVirtualEnd_nonempty (fpir : FPIR) (lastFramePoint : FramePoint) :
  last fpir = Some lastFramePoint ->
  genVirtualEnd fpir
  = Ok (mkFramePoint (Z.of_nat (length fpir)) (timestamp lastFramePoint)
          [false; false; false; false]).
Proof. unfold genVirtualEnd. by intros ->. Qed.

Lemma flag_virtualEnd (type : SubtitleType) (i t : Z) :
  flag type (mkFramePoint i t [false; false; false; false]) = false.
Proof. by destruct type. Qed.

Section BuildIntervalsFacts.

Variable type : SubtitleType.

(** The loop over frames and then one more frame. *)
Lemma BuildIntervals_snoc (fps : list FramePoint) (fp : FramePoint) st :
  fold_left (BuildIntervals_body type) (fps ++ [fp]) st
  = BuildIntervals_body type (fold_left (BuildIntervals_body type) fps st) fp.
Proof. by rewrite fold_left_app. Qed.

(** While the flag stays on, an open run stays open and nothing is
    emitted. *)
Lemma BuildIntervals_run_open (run : list FramePoint) st :
  state st = true ->
  Forall (fun fp => flag type fp = true) run ->
  fold_left (BuildIntervals_body type) run st = st.
Proof.
  intros Hst Hrun. induction Hrun as [|fp run Hfp _ IH]; [done|].
  simpl. unfold BuildIntervals_body at 2. by rewrite Hst, Hfp.
Qed.

(** A run of on-frames met with the state off opens at the timestamp of
    its first frame. *)
Lemma BuildIntervals_run (first : FramePoint) (run : list FramePoint) st :
  state st = false ->
  Forall (fun fp => flag type fp = true) (first :: run) ->
  fold_left (BuildIntervals_body type) (first :: run) st
  = mkBuildState (intervals st) (timestamp first) true.
Proof.
  intros Hst Hrun. apply Forall_cons in Hrun as [Hfirst Hrun].
  simpl. unfold BuildIntervals_body at 2. rewrite Hst, Hfirst. simpl.
  by apply BuildIntervals_run_open.
Qed.

(** After a frame whose flag is off, the state is off. *)
Lemma BuildIntervals_state_last (fps : list FramePoint) (fp : FramePoint) st :
  state (fold_left (BuildIntervals_body type) (fps ++ [fp]) st)
  = flag type fp.
Proof.
  rewrite BuildIntervals_snoc.
  generalize (fold_left (BuildIntervals_body type) fps st). intros st'.
  unfold BuildIntervals_body.
  destruct (state st') eqn:Hs, (flag type fp) eqn:Hf; simpl; congruence.
Qed.

End BuildIntervalsFacts.

(** C5: on a non-empty sequence the virtual end point has index = length,
    the timestamp of the last real frame and all flags off, and it is
    appended to a copy only (the pass returns intervals, the sequence is
    what it was); so, for every channel, a run still on at the last real
    frame is closed by it: the interval emitted last ends at the timestamp
    of the last real frame, and begins at the first frame of that run. *)
Theorem virtual_end_closes_open_run
    (fpir : FPIR) (lastFramePoint : FramePoint) :
  last fpir = Some lastFramePoint ->
  let virtualEnd :=
    mkFramePoint (Z.of_nat (length fpir)) (timestamp lastFramePoint)
      [false; false; false; false] in
  genVirtualEnd fpir = Ok virtualEnd
  /\ getFramePointsWithVirtualEnd fpir = Ok (fpir ++ [virtualEnd])
  /\ (forall type, flag type virtualEnd = false)
  /\ (forall type,
        flag type lastFramePoint = true ->
        exists ivs b,
          FPIRPassBuildIntervals_apply type fpir
          = Ok (ivs ++ [mkInterval b (timestamp lastFramePoint) type]))
  /\ (forall type before first run,
        fpir = before ++ first :: run ->
        Forall (fun fp => flag type fp = true) (first :: run) ->
        (before = []
         \/ exists fps fp, before = fps ++ [fp] /\ flag type fp = false) ->
        exists ivs,
          FPIRPassBuildIntervals_apply type fpir
          = Ok (ivs ++ [mkInterval (timestamp first)
                          (timestamp lastFramePoint) type])).
Proof.
  intros Hlast virtualEnd.
  assert (Hgen : genVirtualEnd fpir = Ok virtualEnd)
    by (by apply genVirtualEnd_nonempty).
  assert (Happly : forall type,
    FPIRPassBuildIntervals_apply type fpir
    = Ok (intervals
            (BuildIntervals_body type
               (fold_left (BuildIntervals_body type) fpir
                  (mkBuildState [] 0 false)) virtualEnd))).
  { intros type.
    unfold FPIRPassBuildIntervals_apply, getFramePointsWithVirtualEnd.
    rewrite Hgen. simpl. by rewrite BuildIntervals_snoc. }
  split; [done|]. split.
  { unfold getFramePointsWithVirtualEnd. by rewrite Hgen. }
  split; [intros type; apply flag_virtualEnd|]. split.
  - intros type Hon. rewrite Happly.
    apply last_Some in Hlast as [fps ->].
    pose proof (BuildIntervals_state_last type fps lastFramePoint
                  (mkBuildState [] 0 false)) as Hst.
    rewrite Hon in Hst.
    set (st := fold_left (BuildIntervals_body type) (fps ++ [lastFramePoint])
                 (mkBuildState [] 0 false)) in *.
    exists (intervals st), (lastBegin st).
    unfold BuildIntervals_body. rewrite Hst. simpl.
    unfold virtualEnd. by rewrite flag_virtualEnd.
  - intros type before first run -> Hrun Hbefore. rewrite Happly.
    rewrite fold_left_app.
    set (st0 := fold_left (BuildIntervals_body type) before
                  (mkBuildState [] 0 false)).
    assert (Hst0 : state st0 = false).
    { unfold st0. destruct Hbefore as [->|(fps & fp & -> & Hfp)]; [done|].
      by rewrite BuildIntervals_state_last. }
    exists (intervals st0).
    rewrite (BuildIntervals_run type first run st0 Hst0 Hrun).
    unfold BuildIntervals_body. simpl.
    unfold virtualEnd. by rewrite flag_virtualEnd.
Qed.

Lemma virtual_end_closes_open_run_witness :
  exists ivs b,
    FPIRPassBuildIntervals_apply DIALOG
      (frames_of [0; 100; 200; 300] [true; false; true; true])
    = Ok (ivs ++ [mkInterval b 300 DIALOG]).
Proof.
  refine (proj1 (proj2 (proj2 (proj2
            (virtual_end_closes_open_run
               (frames_of [0; 100; 200; 300] [true; false; true; true])
               (mkFramePoint 3 300 [true; false; false; false]) _))))
            DIALOG _).
  - reflexivity.
  - reflexivity.
Defined.

(** C7, as the code has it: on the empty sequence the virtual end point
    fails with the IndexError of [framePoints[-1]]; no frame point is
    built, the pass returns no intervals, and IIR construction fails the
    same way. *)
Theorem empty_fpir_IndexError (type : SubtitleType) :
  genVirtualEnd [] = Err IndexError
  /\ getFramePointsWithVirtualEnd [] = Err IndexError
  /\ FPIRPassBuildIntervals_apply type [] = Err IndexError
  /\ IIR_init [] = Err IndexError.
Proof. repeat split. Qed.

(** C7 as stated fails: the error on the empty sequence is not one the
    code raises by an explicit check. *)
Lemma empty_fpir_no_explicit_error :
  ~ (exists msg,
       FPIRPassBuildIntervals_apply DIALOG [] = Err (Exception msg)).
Proof. intros [msg H]. vm_compute in H. discriminate. Qed.

(** * The noise-removal pass *)

Lemma length_range (a b : Z) : length (range a b) = Z.to_nat (b - a).
Proof. unfold range. by rewrite length_fmap, length_seq. Qed.

Lemma length_range_down (a b : Z) : length (range_down a b) = Z.to_nat (a - b).
Proof. unfold range_down. by rewrite length_fmap, length_seq. Qed.

Lemma lookup_range (a b : Z) (e : nat) :
  (e < Z.to_nat (b - a))%nat -> range a b !! e = Some (a + Z.of_nat e).
Proof.
  intros He. unfold range. rewrite list_lookup_fmap, lookup_seq_lt by done.
  done.
Qed.

Lemma lookup_range_down (a b : Z) (e : nat) :
  (e < Z.to_nat (a - b))%nat -> range_down a b !! e = Some (a - Z.of_nat e).
Proof.
  intros He. unfold range_down. rewrite list_lookup_fmap, lookup_seq_lt by done.
  done.
Qed.



Section RemoveNoiseFacts.

Variable type : SubtitleType.

Lemma lookup_channel (fpir : FPIR) (i : nat) :
  channel type fpir !! i = flag type <$> fpir !! i.
Proof. unfold channel. apply list_lookup_fmap. Qed.

Lemma length_channel (fpir : FPIR) : length (channel type fpir) = length fpir.
Proof. unfold channel. apply length_fmap. Qed.

Lemma flag_at_Some (fpir : FPIR) (i : nat) (fp : FramePoint) :
  fpir !! i = Some fp -> flag_at type fpir (Z.of_nat i) = flag type fp.
Proof. unfold flag_at. rewrite Nat2Z.id. by intros ->. Qed.

Lemma flag_at_channel (fpir : FPIR) (i : Z) :
  0 <= i < Z.of_nat (length fpir) ->
  channel type fpir !! Z.to_nat i = Some (flag_at type fpir i).
Proof.
  intros Hi. rewrite lookup_channel. unfold flag_at.
  destruct (lookup_lt_is_Some_2 fpir (Z.to_nat i)) as [fp ->]; [lia|done].
Qed.

(** The counting loop is the walk of [run_length] over the flags read. *)
Lemma count_loop_run_length (fpir : FPIR) (v : bool) (idxs : list Z) (acc : Z) :
  count_loop type fpir v idxs acc
  = acc + run_length v (flag_at type fpir <$> idxs).
Proof.
  revert acc. induction idxs as [|i idxs IH]; intros acc; [simpl; lia|].
  rewrite fmap_cons. cbn [count_loop run_length].
  destruct (eqb (flag_at type fpir i) v); cbn [negb]; [|lia].
  rewrite IH. lia.
Qed.

(** The flags read by the backward loop. *)
Lemma backward_window (fpir : FPIR) (id : nat) (m : Z) :
  (id < length fpir)%nat -> 0 <= Z.of_nat id - m ->
  flag_at type fpir <$> range_down (Z.of_nat id - 1) (Z.of_nat id - m - 1)
  = take (Z.to_nat m) (reverse (take id (channel type fpir))).
Proof.
  intros Hid Hl. apply list_eq. intros e.
  rewrite list_lookup_fmap.
  destruct (decide (e < Z.to_nat m)%nat) as [He|He].
  - rewrite lookup_range_down by lia. simpl.
    rewrite lookup_take_lt by done.
    rewrite reverse_lookup by (rewrite length_take, length_channel; lia).
    rewrite length_take, length_channel.
    rewrite lookup_take_lt by lia.
    replace (id `min` length fpir - S e)%nat
      with (Z.to_nat (Z.of_nat id - 1 - Z.of_nat e)) by lia.
    symmetry. apply flag_at_channel. lia.
  - rewrite lookup_take_ge by lia.
    rewrite lookup_ge_None_2; [done|]. rewrite length_range_down. lia.
Qed.

(** The flags read by the forward loop. *)
Lemma forward_window (fpir : FPIR) (id : nat) (m : Z) :
  Z.of_nat id + m <= Z.of_nat (length fpir) - 1 ->
  flag_at type fpir <$> range (Z.of_nat id + 1) (Z.of_nat id + m + 1)
  = take (Z.to_nat m) (drop (S id) (channel type fpir)).
Proof.
  intros Hr. apply list_eq. intros e.
  rewrite list_lookup_fmap.
  destruct (decide (e < Z.to_nat m)%nat) as [He|He].
  - rewrite lookup_range by lia. simpl.
    rewrite lookup_take_lt by done. rewrite lookup_drop.
    replace (S id + e)%nat
      with (Z.to_nat (Z.of_nat id + 1 + Z.of_nat e)) by lia.
    symmetry. apply flag_at_channel. lia.
  - rewrite lookup_take_ge by lia.
    rewrite lookup_ge_None_2; [done|]. rewrite length_range. lia.
Qed.


Lemma flip_insert (fpir : FPIR) (id : nat) (fp : FramePoint) :
  fpir !! id = Some fp ->
  <[id := set_flag type (negb (flag type fp)) fp]> fpir = flip type fpir id.
Proof.
  intros Hfp. unfold flip. apply list_eq. intros j.
  destruct (decide (id = j)) as [<-|Hne].
  - rewrite list_lookup_insert_eq by (by eapply lookup_lt_Some).
    by rewrite list_lookup_alter_eq, Hfp.
  - by rewrite list_lookup_insert_ne, list_lookup_alter_ne.
Qed.

Variable minPositiveLength : Z.
Variable minNegativeLength : Z.

(** One iteration of the loop of [apply] is one visit. *)
Lemma RemoveNoise_body_visit (fpir : FPIR) (id : nat) :
  RemoveNoise_body type minPositiveLength minNegativeLength fpir id
  = noise_visit type minPositiveLength minNegativeLength fpir id.
Proof.
  unfold RemoveNoise_body, noise_visit. rewrite lookup_channel.
  destruct (fpir !! id) as [fp|] eqn:Hfp; simpl; [|done].
  set (minLength := if flag type fp then _ else _).
  assert (Hid : (id < length fpir)%nat) by (by eapply lookup_lt_Some).
  destruct (decide (_ \/ _)) as [Hb|Hb].
  - destruct Hb as [Hb|Hb].
    + apply Z.ltb_lt in Hb. by rewrite Hb.
    + apply Z.gt_lt, Z.gtb_lt in Hb. rewrite Hb. by rewrite orb_true_r.
  - assert (Hl : 0 <= Z.of_nat id - minLength) by lia.
    assert (Hr : Z.of_nat id + minLength <= Z.of_nat (length fpir) - 1) by lia.
    replace (Z.of_nat id - minLength <? 0) with false
      by (symmetry; apply Z.ltb_ge; lia).
    replace (Z.of_nat id + minLength >? Z.of_nat (length fpir) - 1) with false
      by (symmetry; rewrite Z.gtb_ltb; apply Z.ltb_ge; lia).
    simpl. rewrite !count_loop_run_length.
    rewrite backward_window, forward_window by done.
    rewrite Z.add_0_l.
    destruct (decide (_ < _)) as [Hlt|Hge].
    + apply Z.ltb_lt in Hlt. rewrite Hlt. by apply flip_insert.
    + apply Z.nlt_ge, Z.ltb_ge in Hge. by rewrite Hge.
Qed.

End RemoveNoiseFacts.

(** C1: the pass is the left-to-right scan of visits, each visit reading
    the flags as stored at that moment: [minLength] from the stored flag,
    no change at a boundary frame, else the backward and forward walks and
    the flip exactly when their sum is below [minLength]; on flags
    [T,F,T,T,F] with both lengths 1 the output is [T,T,T,T,F]. *)
Theorem RemoveNoise_apply_spec
    (type : SubtitleType) (minPositiveLength minNegativeLength : Z)
    (fpir : FPIR) :
  FPIRPassRemoveNoise_apply type minPositiveLength minNegativeLength fpir
  = noise_removal type minPositiveLength minNegativeLength fpir
  /\ channel DIALOG (FPIRPassRemoveNoise_apply DIALOG 1 1 scenario1)
     = [true; true; true; true; false]
  /\ FPIRPassRemoveNoise_apply DIALOG 1 1 scenario1 = flip DIALOG scenario1 1.
Proof.
  split; [|split; reflexivity].
  unfold FPIRPassRemoveNoise_apply, noise_removal.
  generalize (seq 0 (length fpir)). intros ids. revert fpir.
  induction ids as [|id ids IH]; intros fpir; simpl; [done|].
  by rewrite RemoveNoise_body_visit, IH.
Qed.

(** ** The scan, one iteration at a time *)

Lemma run_length_nonneg (v : bool) (w : list bool) : 0 <= run_length v w.
Proof. induction w as [|b w IH]; simpl; [lia|]. destruct (eqb b v); lia. Qed.

Lemma run_length_le (v : bool) (w : list bool) :
  run_length v w <= Z.of_nat (length w).
Proof. induction w as [|b w IH]; simpl; [lia|]. destruct (eqb b v); lia. Qed.

(** The flags before the end of the walk are all [v]. *)
Lemma run_length_prefix (v : bool) (w : list bool) (e : nat) (b : bool) :
  Z.of_nat e < run_length v w -> w !! e = Some b -> b = v.
Proof.
  revert e. induction w as [|b' w IH]; intros e He Hb; [done|].
  simpl in He. destruct (eqb b' v) eqn:Hbv; [|lia].
  destruct e as [|e]; simpl in Hb.
  - injection Hb as <-. by apply eqb_prop.
  - apply (IH e); [lia|done].
Qed.

(** [x] leading flags equal to [v] make the walk at least [x] long. *)
Lemma run_length_ge (v : bool) (w : list bool) (x : nat) :
  (x <= length w)%nat ->
  (forall e b, (e < x)%nat -> w !! e = Some b -> b = v) ->
  Z.of_nat x <= run_length v w.
Proof.
  revert x. induction w as [|b' w IH]; intros x Hx Hall; simpl in *.
  - lia.
  - destruct x as [|x]; [destruct (eqb b' v); pose proof (run_length_nonneg v w); lia|].
    rewrite (Hall 0%nat b') by (done || lia). rewrite eqb_reflx.
    specialize (IH x). rewrite Nat2Z.inj_succ.
    assert (Z.of_nat x <= run_length v w); [|lia].
    apply IH; [lia|]. intros e b He Hb. apply (Hall (S e) b); [lia|done].
Qed.

Section RemoveNoiseScanFacts.

Variable type : SubtitleType.

Lemma backward_count_bounds (fpir : FPIR) (v : bool) (id m : Z) :
  0 <= backward_count type fpir v id m <= Z.max 0 m.
Proof.
  unfold backward_count. rewrite count_loop_run_length.
  pose proof (run_length_nonneg v
                (flag_at type fpir <$> range_down (id - 1) (id - m - 1))).
  pose proof (run_length_le v
                (flag_at type fpir <$> range_down (id - 1) (id - m - 1))) as Hle.
  rewrite length_fmap, length_range_down in Hle. lia.
Qed.

Lemma forward_count_bounds (fpir : FPIR) (v : bool) (id m : Z) :
  0 <= forward_count type fpir v id m <= Z.max 0 m.
Proof.
  unfold forward_count. rewrite count_loop_run_length.
  pose proof (run_length_nonneg v
                (flag_at type fpir <$> range (id + 1) (id + m + 1))).
  pose proof (run_length_le v
                (flag_at type fpir <$> range (id + 1) (id + m + 1))) as Hle.
  rewrite length_fmap, length_range in Hle. lia.
Qed.

Lemma backward_count_prefix (fpir : FPIR) (v : bool) (id m e : Z) :
  1 <= e <= backward_count type fpir v id m ->
  flag_at type fpir (id - e) = v.
Proof.
  intros He. pose proof (backward_count_bounds fpir v id m) as Hb.
  unfold backward_count in He, Hb. rewrite count_loop_run_length in He, Hb.
  apply (run_length_prefix v
           (flag_at type fpir <$> range_down (id - 1) (id - m - 1))
           (Z.to_nat (e - 1))); [lia|].
  rewrite list_lookup_fmap, lookup_range_down by lia. simpl.
  do 2 f_equal. lia.
Qed.

Lemma forward_count_prefix (fpir : FPIR) (v : bool) (id m e : Z) :
  1 <= e <= forward_count type fpir v id m ->
  flag_at type fpir (id + e) = v.
Proof.
  intros He. pose proof (forward_count_bounds fpir v id m) as Hb.
  unfold forward_count in He, Hb. rewrite count_loop_run_length in He, Hb.
  apply (run_length_prefix v
           (flag_at type fpir <$> range (id + 1) (id + m + 1))
           (Z.to_nat (e - 1))); [lia|].
  rewrite list_lookup_fmap, lookup_range by lia. simpl.
  do 2 f_equal. lia.
Qed.

Lemma backward_count_ge (fpir : FPIR) (v : bool) (id m x : Z) :
  0 <= x <= m ->
  (forall e, 1 <= e <= x -> flag_at type fpir (id - e) = v) ->
  x <= backward_count type fpir v id m.
Proof.
  intros Hx Hall. unfold backward_count. rewrite count_loop_run_length.
  rewrite Z.add_0_l, <- (Z2Nat.id x) by lia.
  apply run_length_ge.
  - rewrite length_fmap, length_range_down. lia.
  - intros e b He Hb. rewrite list_lookup_fmap in Hb.
    rewrite lookup_range_down in Hb by lia. injection Hb as <-.
    replace (id - 1 - Z.of_nat e) with (id - (Z.of_nat e + 1)) by lia.
    apply Hall. lia.
Qed.

Lemma forward_count_ge (fpir : FPIR) (v : bool) (id m x : Z) :
  0 <= x <= m ->
  (forall e, 1 <= e <= x -> flag_at type fpir (id + e) = v) ->
  x <= forward_count type fpir v id m.
Proof.
  intros Hx Hall. unfold forward_count. rewrite count_loop_run_length.
  rewrite Z.add_0_l, <- (Z2Nat.id x) by lia.
  apply run_length_ge.
  - rewrite length_fmap, length_range. lia.
  - intros e b He Hb. rewrite list_lookup_fmap in Hb.
    rewrite lookup_range in Hb by lia. injection Hb as <-.
    replace (id + 1 + Z.of_nat e) with (id + (Z.of_nat e + 1)) by lia.
    apply Hall. lia.
Qed.

Variable minPositiveLength : Z.
Variable minNegativeLength : Z.

Local Abbreviation body := (RemoveNoise_body type minPositiveLength minNegativeLength).
Local Abbreviation prefix := (RemoveNoise_prefix type minPositiveLength minNegativeLength).

(** The decision of one iteration. *)
Lemma RemoveNoise_body_cases (fpir : FPIR) (id : nat) (fp : FramePoint) :
  fpir !! id = Some fp ->
  let v := flag type fp in
  let m := if v then minPositiveLength else minNegativeLength in
  let count := backward_count type fpir v (Z.of_nat id) m
               + forward_count type fpir v (Z.of_nat id) m in
  ((Z.of_nat id - m < 0 \/ Z.of_nat id + m > Z.of_nat (length fpir) - 1
    \/ m <= count)
   /\ body fpir id = fpir)
  \/ (0 <= Z.of_nat id - m /\ Z.of_nat id + m <= Z.of_nat (length fpir) - 1
      /\ count < m /\ body fpir id = flip type fpir id).
Proof.
  intros Hfp v m count. unfold RemoveNoise_body. rewrite Hfp. fold v. fold m.
  destruct (Z.ltb_spec (Z.of_nat id - m) 0) as [Hl|Hl]; simpl.
  { left. split; [lia|done]. }
  destruct (Z.gtb_spec (Z.of_nat id + m) (Z.of_nat (length fpir) - 1))
    as [Hr|Hr]; simpl.
  { left. split; [lia|done]. }
  assert (Hcount :
    count_loop type fpir v (range (Z.of_nat id + 1) (Z.of_nat id + m + 1))
      (count_loop type fpir v
         (range_down (Z.of_nat id - 1) (Z.of_nat id - m - 1)) 0) = count).
  { unfold count, backward_count, forward_count.
    rewrite !count_loop_run_length. lia. }
  rewrite Hcount.
  destruct (Z.ltb_spec count m) as [Hc|Hc].
  - right. repeat split; [lia..|]. by apply flip_insert.
  - left. split; [lia|done].
Qed.

Lemma RemoveNoise_body_length (fpir : FPIR) (id : nat) :
  length (body fpir id) = length fpir.
Proof.
  destruct (fpir !! id) as [fp|] eqn:Hfp.
  - destruct (RemoveNoise_body_cases fpir id fp Hfp) as [[_ ->]|(_&_&_& ->)];
      [done|]. unfold flip. apply length_alter.
  - unfold RemoveNoise_body. by rewrite Hfp.
Qed.

(** An iteration stores to its own frame only. *)
Lemma RemoveNoise_body_other (fpir : FPIR) (id j : nat) :
  id <> j -> body fpir id !! j = fpir !! j.
Proof.
  intros Hne. destruct (fpir !! id) as [fp|] eqn:Hfp.
  - destruct (RemoveNoise_body_cases fpir id fp Hfp) as [[_ ->]|(_&_&_& ->)];
      [done|]. unfold flip. by apply list_lookup_alter_ne.
  - unfold RemoveNoise_body. by rewrite Hfp.
Qed.

Lemma RemoveNoise_prefix_S (fpir : FPIR) (k : nat) :
  prefix fpir (S k) = body (prefix fpir k) k.
Proof.
  unfold RemoveNoise_prefix. by rewrite seq_S, fold_left_app.
Qed.

Lemma RemoveNoise_prefix_length (fpir : FPIR) (k : nat) :
  length (prefix fpir k) = length fpir.
Proof.
  induction k as [|k IH]; [done|].
  by rewrite RemoveNoise_prefix_S, RemoveNoise_body_length.
Qed.

(** Frames not yet visited are as they were. *)
Lemma RemoveNoise_prefix_ge (fpir : FPIR) (k j : nat) :
  (k <= j)%nat -> prefix fpir k !! j = fpir !! j.
Proof.
  induction k as [|k IH]; intros Hj; [done|].
  rewrite RemoveNoise_prefix_S, RemoveNoise_body_other by lia.
  apply IH. lia.
Qed.

(** Frames already visited are not touched again. *)
Lemma RemoveNoise_prefix_lt (fpir : FPIR) (k k' j : nat) :
  (j < k)%nat -> (k <= k')%nat -> prefix fpir k' !! j = prefix fpir k !! j.
Proof.
  intros Hj Hk. induction Hk as [|k' Hk IH]; [done|].
  rewrite RemoveNoise_prefix_S, RemoveNoise_body_other by lia. done.
Qed.

Lemma RemoveNoise_apply_prefix (fpir : FPIR) :
  FPIRPassRemoveNoise_apply type minPositiveLength minNegativeLength fpir
  = prefix fpir (length fpir).
Proof. done. Qed.

End RemoveNoiseScanFacts.

(** C6: a frame within the applicable minLength of either edge of the
    sequence (index < minLength or index > length - 1 - minLength, with
    minLength chosen by its flag) is the same frame at every moment of the
    scan, and so at its end. *)
Theorem RemoveNoise_boundary_exempt
    (type : SubtitleType) (minPositiveLength minNegativeLength : Z)
    (fpir : FPIR) (i : nat) (framePoint : FramePoint) :
  fpir !! i = Some framePoint ->
  (let minLength := if flag type framePoint then minPositiveLength
                    else minNegativeLength in
   Z.of_nat i < minLength
   \/ Z.of_nat i > Z.of_nat (length fpir) - 1 - minLength) ->
  (forall k,
     RemoveNoise_prefix type minPositiveLength minNegativeLength fpir k !! i
     = Some framePoint)
  /\ FPIRPassRemoveNoise_apply type minPositiveLength minNegativeLength fpir !! i
     = Some framePoint.
Proof.
  intros Hfp Hedge.
  assert (Hall : forall k,
    RemoveNoise_prefix type minPositiveLength minNegativeLength fpir k !! i
    = Some framePoint).
  { induction k as [|k IH]; [done|].
    rewrite RemoveNoise_prefix_S.
    destruct (decide (k = i)) as [->|Hne].
    - destruct (RemoveNoise_body_cases type minPositiveLength minNegativeLength
                  _ i framePoint IH) as [[_ ->]|(Hl & Hr & _)]; [done|].
      rewrite RemoveNoise_prefix_length in Hr. simpl in Hedge. lia.
    - by rewrite RemoveNoise_body_other. }
  split; [done|]. rewrite RemoveNoise_apply_prefix. apply Hall.
Qed.

Lemma RemoveNoise_boundary_exempt_witness :
  FPIRPassRemoveNoise_apply DIALOG 1 1 scenario1 !! 4%nat
  = Some (mkFramePoint 4 400 [false; false; false; false]).
Proof.
  apply (RemoveNoise_boundary_exempt DIALOG 1 1 scenario1 4
           (mkFramePoint 4 400 [false; false; false; false])).
  - reflexivity.
  - right. vm_compute. reflexivity.
Defined.

(** ** Running the pass on its own output *)

Lemma flag_set_flag (type : SubtitleType) (b : bool) (fp : FramePoint) :
  wf_FramePoint fp -> flag type (set_flag type b fp) = b.
Proof.
  unfold wf_FramePoint, flag, set_flag. intros Hwf. simpl.
  rewrite list_lookup_insert_eq; [done|].
  rewrite Hwf. apply SubtitleType_value_lt.
Qed.

Lemma wf_set_flag (type : SubtitleType) (b : bool) (fp : FramePoint) :
  wf_FramePoint fp -> wf_FramePoint (set_flag type b fp).
Proof. unfold wf_FramePoint, set_flag. simpl. by rewrite length_insert. Qed.

Section SecondPass.

Variable type : SubtitleType.
Variable minPositiveLength : Z.
Variable minNegativeLength : Z.
Variable fpir : FPIR.
Hypothesis fpir_wf : Forall wf_FramePoint fpir.

Local Abbreviation body := (RemoveNoise_body type minPositiveLength minNegativeLength).
Local Abbreviation prefix := (RemoveNoise_prefix type minPositiveLength minNegativeLength).
Local Abbreviation final := (prefix fpir (length fpir)).
Local Abbreviation minLength_of v :=
  (if v : bool then minPositiveLength else minNegativeLength).
Local Abbreviation count s v j :=
  (backward_count type s v j (minLength_of v)
   + forward_count type s v j (minLength_of v)).

(** Flags of frames already visited are final. *)
Lemma flag_at_prefix_lt (k : nat) (j : Z) :
  0 <= j < Z.of_nat k -> (k <= length fpir)%nat ->
  flag_at type (prefix fpir k) j = flag_at type final j.
Proof.
  intros Hj Hk. unfold flag_at.
  by rewrite (RemoveNoise_prefix_lt _ _ _ fpir k (length fpir)) by lia.
Qed.

(** Flags of frames not yet visited are the original ones. *)
Lemma flag_at_prefix_ge (k : nat) (j : Z) :
  Z.of_nat k <= j -> flag_at type (prefix fpir k) j = flag_at type fpir j.
Proof.
  intros Hj. unfold flag_at. by rewrite RemoveNoise_prefix_ge by lia.
Qed.

(** What the first pass decides at frame [j], and the flag it leaves. *)
Lemma first_pass_step (j : nat) (fp : FramePoint) :
  fpir !! j = Some fp ->
  let v := flag type fp in
  let m := minLength_of v in
  (flag_at type final (Z.of_nat j) = v
   /\ (Z.of_nat j - m < 0 \/ Z.of_nat j + m > Z.of_nat (length fpir) - 1
       \/ m <= count (prefix fpir j) v (Z.of_nat j)))
  \/ (flag_at type final (Z.of_nat j) = negb v
      /\ 0 <= Z.of_nat j - m /\ Z.of_nat j + m <= Z.of_nat (length fpir) - 1
      /\ count (prefix fpir j) v (Z.of_nat j) < m).
Proof.
  intros Hfp v m.
  assert (Hj : (j < length fpir)%nat) by (by eapply lookup_lt_Some).
  assert (Hpj : prefix fpir j !! j = Some fp)
    by (by rewrite RemoveNoise_prefix_ge).
  assert (Hfin : final !! j = body (prefix fpir j) j !! j).
  { rewrite <- RemoveNoise_prefix_S.
    apply RemoveNoise_prefix_lt; lia. }
  pose proof (RemoveNoise_body_cases type minPositiveLength minNegativeLength
                (prefix fpir j) j fp Hpj) as Hcases.
  rewrite RemoveNoise_prefix_length in Hcases.
  destruct Hcases as [[Hkeep Hb]|(Hl & Hr & Hc & Hb)]; rewrite Hb in Hfin.
  - left. split; [|done]. apply flag_at_Some. by rewrite Hfin.
  - right. split; [|done].
    unfold flip in Hfin. rewrite list_lookup_alter_eq, Hpj in Hfin.
    rewrite (flag_at_Some _ _ _ _ Hfin).
    apply flag_set_flag. by eapply Forall_lookup_1.
Qed.

(** A frame whose flag is [v], with the [minLength] frames behind it
    final and equal to [v], is not flipped by the first pass. *)
Lemma first_pass_keeps_behind (j : nat) (v : bool) :
  (j < length fpir)%nat ->
  flag_at type fpir (Z.of_nat j) = v ->
  (forall e, 1 <= e <= minLength_of v -> 0 <= Z.of_nat j - e ->
             flag_at type final (Z.of_nat j - e) = v) ->
  flag_at type final (Z.of_nat j) = v.
Proof.
  intros Hj Hv Hbehind.
  destruct (lookup_lt_is_Some_2 fpir j Hj) as [fp Hfp].
  rewrite (flag_at_Some type fpir j fp Hfp) in Hv.
  destruct (first_pass_step j fp Hfp) as [[Hf _]|(_ & Hl & Hr & Hc)];
    rewrite Hv in *; [done|exfalso].
  pose proof (forward_count_bounds type (prefix fpir j) v (Z.of_nat j)
                (minLength_of v)).
  pose proof (backward_count_bounds type (prefix fpir j) v (Z.of_nat j)
                (minLength_of v)).
  assert (minLength_of v
          <= backward_count type (prefix fpir j) v (Z.of_nat j) (minLength_of v));
    [|lia].
  apply backward_count_ge; [lia|]. intros e He.
  rewrite flag_at_prefix_lt by lia. apply Hbehind; lia.
Qed.

(** A frame the first pass visited and kept is counted by the second pass
    at least as long a run: the frames ahead that the first pass counted
    were kept in their turn. *)
Lemma second_pass_keeps_kept (k : nat) (v : bool) (fp : FramePoint) :
  fpir !! k = Some fp -> flag type fp = v ->
  flag_at type final (Z.of_nat k) = v ->
  0 <= Z.of_nat k - minLength_of v ->
  Z.of_nat k + minLength_of v <= Z.of_nat (length fpir) - 1 ->
  minLength_of v <= count final v (Z.of_nat k).
Proof.
  intros Hfp Hfpv Hv Hl Hr.
  assert (Hk : (k < length fpir)%nat) by (by eapply lookup_lt_Some).
  set (m := minLength_of v) in *.
  destruct (Z.le_gt_cases m 0) as [Hm|Hm].
  { pose proof (backward_count_bounds type final v (Z.of_nat k) m).
    pose proof (forward_count_bounds type final v (Z.of_nat k) m). lia. }
  destruct (first_pass_step k fp Hfp) as [[_ Hkeep]|(Hf & _)];
    rewrite Hfpv in *.
  2: { rewrite Hv in Hf. by destruct v. }
  fold m in Hkeep.
  destruct Hkeep as [?|[?|Hcount]]; [lia..|].
  set (b := backward_count type (prefix fpir k) v (Z.of_nat k) m) in *.
  set (fw := forward_count type (prefix fpir k) v (Z.of_nat k) m) in *.
  pose proof (backward_count_bounds type (prefix fpir k) v (Z.of_nat k) m) as Hb.
  pose proof (forward_count_bounds type (prefix fpir k) v (Z.of_nat k) m) as Hfw.
  fold b in Hb. fold fw in Hfw.
  assert (Hbefore : forall e, 1 <= e <= b ->
            flag_at type final (Z.of_nat k - e) = v).
  { intros e He. rewrite <- (flag_at_prefix_lt k) by lia.
    by apply (backward_count_prefix type _ v (Z.of_nat k) m e). }
  assert (Hahead : forall e, 1 <= e <= fw ->
            flag_at type fpir (Z.of_nat k + e) = v).
  { intros e He. rewrite <- (flag_at_prefix_ge k) by lia.
    by apply (forward_count_prefix type _ v (Z.of_nat k) m e). }
  assert (Hafter : forall x : nat, forall d, 0 <= d <= Z.of_nat x -> d <= fw ->
            flag_at type final (Z.of_nat k + d) = v).
  { induction x as [|x IH]; intros d Hd Hdfw.
    { replace d with 0 by lia. by rewrite Z.add_0_r. }
    destruct (decide (d <= Z.of_nat x)) as [?|Hnew]; [apply IH; lia|].
    assert (Hdx : d = Z.of_nat (S x)) by lia.
    set (j := (k + S x)%nat).
    assert (Hjd : Z.of_nat k + d = Z.of_nat j) by (unfold j; lia).
    rewrite Hjd.
    destruct (lookup_lt_is_Some_2 fpir j) as [fpj Hfpj]; [lia|].
    assert (Hvj : flag type fpj = v).
    { rewrite <- (Hahead d) by lia. rewrite Hjd. symmetry.
      by apply flag_at_Some. }
    destruct (first_pass_step j fpj Hfpj)
      as [[Hfj _]|(_ & Hlj & Hrj & Hcj)]; rewrite Hvj in *; [done|exfalso].
    fold m in Hlj, Hrj, Hcj.
    assert (Hbj : Z.min m (d + b)
                  <= backward_count type (prefix fpir j) v (Z.of_nat j) m).
    { apply backward_count_ge; [lia|]. intros e He.
      rewrite flag_at_prefix_lt by lia.
      destruct (decide (e <= d)) as [Hed|Hed].
      - replace (Z.of_nat j - e) with (Z.of_nat k + (d - e)) by lia.
        apply IH; lia.
      - replace (Z.of_nat j - e) with (Z.of_nat k - (e - d)) by lia.
        apply Hbefore. lia. }
    assert (Hfj : fw - d
                  <= forward_count type (prefix fpir j) v (Z.of_nat j) m).
    { apply forward_count_ge; [lia|]. intros e He.
      rewrite flag_at_prefix_ge by lia.
      replace (Z.of_nat j + e) with (Z.of_nat k + (d + e)) by lia.
      apply Hahead. lia. }
    lia. }
  assert (b <= backward_count type final v (Z.of_nat k) m)
    by (apply backward_count_ge; [lia|done]).
  assert (fw <= forward_count type final v (Z.of_nat k) m).
  { apply forward_count_ge; [lia|]. intros e He.
    apply (Hafter (Z.to_nat e)); lia. }
  lia.
Qed.

(** A frame the first pass flipped to [v] is kept by the second pass when
    one direction is disabled or the two lengths add up to at most 3. *)
Lemma second_pass_keeps_flipped (k : nat) (v : bool) (fp : FramePoint) :
  minPositiveLength <= 0 \/ minNegativeLength <= 0
  \/ minPositiveLength + minNegativeLength <= 3 ->
  fpir !! k = Some fp -> flag type fp = negb v ->
  flag_at type final (Z.of_nat k) = v ->
  0 <= Z.of_nat k - minLength_of v ->
  Z.of_nat k + minLength_of v <= Z.of_nat (length fpir) - 1 ->
  minLength_of v <= count final v (Z.of_nat k).
Proof.
  intros Hparams Hfp Hfpv Hv Hl Hr.
  assert (Hk : (k < length fpir)%nat) by (by eapply lookup_lt_Some).
  pose proof (backward_count_bounds type final v (Z.of_nat k) (minLength_of v))
    as HbF.
  pose proof (forward_count_bounds type final v (Z.of_nat k) (minLength_of v))
    as HfF.
  destruct (Z.le_gt_cases (minLength_of v) 0) as [?|Hmv]; [lia|].
  destruct (first_pass_step k fp Hfp) as [[Hf _]|(_ & Hl0 & Hr0 & Hc0)];
    rewrite Hfpv in *.
  { rewrite Hv in Hf. by destruct v. }
  set (w := negb v) in *.
  set (b0 := backward_count type (prefix fpir k) w (Z.of_nat k)
               (minLength_of w)) in *.
  set (f0 := forward_count type (prefix fpir k) w (Z.of_nat k)
               (minLength_of w)) in *.
  pose proof (backward_count_bounds type (prefix fpir k) w (Z.of_nat k)
                (minLength_of w)) as Hb0.
  pose proof (forward_count_bounds type (prefix fpir k) w (Z.of_nat k)
                (minLength_of w)) as Hf0.
  fold b0 in Hb0. fold f0 in Hf0.
  assert (Hsum : minLength_of v + minLength_of w <= 3)
    by (unfold w; destruct v; simpl in *; lia).
  assert (Hvw : forall x : bool, x <> w -> x = v)
    by (unfold w; intros x; destruct x, v; simpl; congruence).
  (* the frame ahead was [v] when the first pass flipped frame [k] *)
  assert (Hahead : f0 <= 0 -> flag_at type fpir (Z.of_nat k + 1) = v).
  { intros Hz. apply Hvw. intros Heq.
    assert (1 <= f0); [|lia]. apply forward_count_ge; [lia|].
    intros e He. replace e with 1 by lia. by rewrite flag_at_prefix_ge by lia. }
  (* the frame behind, if not [v], was counted by the first pass *)
  assert (Hbehind : b0 <= 0 -> flag_at type final (Z.of_nat k - 1) = v).
  { intros Hz. apply Hvw. intros Heq.
    assert (1 <= b0); [|lia]. apply backward_count_ge; [lia|].
    intros e He. replace e with 1 by lia. by rewrite flag_at_prefix_lt by lia. }
  assert (Hback1 : flag_at type final (Z.of_nat k - 1) = v ->
            1 <= backward_count type final v (Z.of_nat k) (minLength_of v)).
  { intros Heq. apply backward_count_ge; [lia|].
    intros e He. by replace e with 1 by lia. }
  assert (Hfwd1 : flag_at type final (Z.of_nat k + 1) = v ->
            1 <= forward_count type final v (Z.of_nat k) (minLength_of v)).
  { intros Heq. apply forward_count_ge; [lia|].
    intros e He. by replace e with 1 by lia. }
  (* the frame ahead, [v] before the first pass, stays [v] when the frames
     behind it within its minLength are [v] *)
  assert (Hnext : flag_at type fpir (Z.of_nat k + 1) = v ->
            (minLength_of v = 2 -> flag_at type final (Z.of_nat k - 1) = v) ->
            flag_at type final (Z.of_nat k + 1) = v).
  { intros Ho H2. replace (Z.of_nat k + 1) with (Z.of_nat (S k)) in * by lia.
    apply first_pass_keeps_behind; [lia|done|].
    intros e He Hge.
    destruct (decide (e = 1)) as [->|Hne].
    - by replace (Z.of_nat (S k) - 1) with (Z.of_nat k) by lia.
    - replace (Z.of_nat (S k) - e) with (Z.of_nat k - 1) by lia.
      apply H2. lia. }
  destruct (decide (minLength_of w = 1)) as [Hw1|Hw1].
  - (* flipped as an isolated frame: both neighbours were [v] *)
    assert (Hp : flag_at type final (Z.of_nat k - 1) = v) by (apply Hbehind; lia).
    assert (Hn : flag_at type final (Z.of_nat k + 1) = v)
      by (apply Hnext; [apply Hahead; lia|done]).
    specialize (Hback1 Hp). specialize (Hfwd1 Hn). lia.
  - (* minLength_of w = 2 and minLength_of v = 1 *)
    destruct (decide (flag_at type final (Z.of_nat k - 1) = v)) as [Hp|Hp].
    + specialize (Hback1 Hp). lia.
    + assert (1 <= b0).
      { destruct (Z.le_gt_cases 1 b0) as [|Hz]; [done|].
        exfalso. apply Hp, Hbehind. lia. }
      assert (Hn : flag_at type final (Z.of_nat k + 1) = v)
        by (apply Hnext; [apply Hahead; lia|lia]).
      specialize (Hfwd1 Hn). lia.
Qed.

(** The second pass stores nothing. *)
Lemma second_pass_body (k : nat) :
  minPositiveLength <= 0 \/ minNegativeLength <= 0
  \/ minPositiveLength + minNegativeLength <= 3 ->
  body final k = final.
Proof.
  intros Hparams.
  destruct (final !! k) as [fpF|] eqn:HF.
  2: { unfold RemoveNoise_body. by rewrite HF. }
  assert (Hk : (k < length fpir)%nat).
  { rewrite <- (RemoveNoise_prefix_length type minPositiveLength
                  minNegativeLength fpir (length fpir)).
    by eapply lookup_lt_Some. }
  pose proof (RemoveNoise_body_cases type minPositiveLength minNegativeLength
                final k fpF HF) as Hcases.
  rewrite RemoveNoise_prefix_length in Hcases.
  destruct Hcases as [[_ Hb]|(Hl & Hr & Hc & _)]; [done|exfalso].
  pose proof (flag_at_Some type final k fpF HF) as Hv.
  set (v := flag type fpF) in *.
  pose proof (backward_count_bounds type final v (Z.of_nat k) (minLength_of v)).
  pose proof (forward_count_bounds type final v (Z.of_nat k) (minLength_of v)).
  assert (minLength_of v <= count final v (Z.of_nat k)); [|lia].
  destruct (lookup_lt_is_Some_2 fpir k Hk) as [fp Hfp].
  destruct (decide (flag type fp = v)) as [Hsame|Hdiff].
  - by apply (second_pass_keeps_kept k v fp).
  - apply (second_pass_keeps_flipped k v fp); try done.
    destruct (flag type fp), v; done.
Qed.

End SecondPass.

(** C3, as the code has it: running the pass again on its own output
    stores nothing when one of the two directions is disabled (length at
    most 0) or the two lengths add up to at most 3. *)
Theorem RemoveNoise_idempotent
    (type : SubtitleType) (minPositiveLength minNegativeLength : Z)
    (fpir : FPIR) :
  Forall wf_FramePoint fpir ->
  minPositiveLength <= 0 \/ minNegativeLength <= 0
  \/ minPositiveLength + minNegativeLength <= 3 ->
  FPIRPassRemoveNoise_apply type minPositiveLength minNegativeLength
    (FPIRPassRemoveNoise_apply type minPositiveLength minNegativeLength fpir)
  = FPIRPassRemoveNoise_apply type minPositiveLength minNegativeLength fpir.
Proof.
  intros Hwf Hparams.
  rewrite (RemoveNoise_apply_prefix type _ _
             (FPIRPassRemoveNoise_apply type _ _ fpir)).
  rewrite (RemoveNoise_apply_prefix type _ _ fpir).
  generalize (length (RemoveNoise_prefix type minPositiveLength
                        minNegativeLength fpir (length fpir))).
  intros k. induction k as [|k IH]; [done|].
  rewrite RemoveNoise_prefix_S, IH. by apply second_pass_body.
Qed.

Lemma RemoveNoise_idempotent_witness :
  FPIRPassRemoveNoise_apply DIALOG 1 1
    (FPIRPassRemoveNoise_apply DIALOG 1 1 scenario1)
  = FPIRPassRemoveNoise_apply DIALOG 1 1 scenario1.
Proof.
  apply (RemoveNoise_idempotent DIALOG 1 1 scenario1).
  - repeat constructor.
  - right. right. lia.
Defined.

(** C3 as stated fails.  With both lengths 2 the flags [T,F,F,T,F] become
    [T,F,T,T,F], and a second run turns them back into [T,F,F,T,F]; with
    minPositiveLength = 3 and minNegativeLength = 1 the flags
    [F,F,T,F,T,F,F,F] become [F,F,T,T,F,F,F,F], and a second run flips
    frame 3 again. *)
Lemma RemoveNoise_not_idempotent :
  channel DIALOG (FPIRPassRemoveNoise_apply DIALOG 2 2 flipflop5)
  = [true; false; true; true; false]
  /\ channel DIALOG
       (FPIRPassRemoveNoise_apply DIALOG 2 2
          (FPIRPassRemoveNoise_apply DIALOG 2 2 flipflop5))
     = [true; false; false; true; false]
  /\ FPIRPassRemoveNoise_apply DIALOG 2 2
       (FPIRPassRemoveNoise_apply DIALOG 2 2 flipflop5)
     <> FPIRPassRemoveNoise_apply DIALOG 2 2 flipflop5
  /\ channel DIALOG (FPIRPassRemoveNoise_apply DIALOG 3 1 noisy8)
     = [false; false; true; true; false; false; false; false]
  /\ channel DIALOG
       (FPIRPassRemoveNoise_apply DIALOG 3 1
          (FPIRPassRemoveNoise_apply DIALOG 3 1 noisy8))
     = [false; false; true; false; false; false; false; false]
  /\ FPIRPassRemoveNoise_apply DIALOG 3 1
       (FPIRPassRemoveNoise_apply DIALOG 3 1 noisy8)
     <> FPIRPassRemoveNoise_apply DIALOG 3 1 noisy8.
Proof.
  split; [reflexivity|]. split; [reflexivity|].
  split; [vm_compute; discriminate|].
  split; [reflexivity|]. split; [reflexivity|]. vm_compute. discriminate.
Qed.

(** * Intervals: sorting *)

Lemma insert_by_begin_Permutation (x : Interval) (l : list Interval) :
  insert_by_begin x l ≡ₚ x :: l.
Proof.
  induction l as [|y l IH]; simpl; [done|].
  destruct (ibegin x <=? ibegin y); [done|].
  rewrite IH. apply Permutation_swap.
Qed.

Lemma IIR_sort_Permutation (iir : IIR) : IIR_sort iir ≡ₚ iir.
Proof.
  induction iir as [|x l IH]; simpl; [done|].
  by rewrite insert_by_begin_Permutation, IH.
Qed.

Lemma insert_by_begin_sorted (x : Interval) (l : list Interval) :
  sorted_by_begin l -> sorted_by_begin (insert_by_begin x l).
Proof.
  unfold sorted_by_begin. intros Hl.
  induction Hl as [|y l Hl IH Hy]; simpl.
  - repeat constructor.
  - destruct (Z.leb_spec (ibegin x) (ibegin y)) as [Hxy|Hxy].
    + constructor; [by constructor|]. constructor; [done|].
      eapply Forall_impl; [exact Hy|]. unfold begin_le. intros; simpl in *; lia.
    + constructor; [done|].
      rewrite insert_by_begin_Permutation. constructor; [|done].
      unfold begin_le. lia.
Qed.

Lemma IIR_sort_sorted (iir : IIR) : sorted_by_begin (IIR_sort iir).
Proof.
  induction iir as [|x l IH]; simpl; [constructor|].
  by apply insert_by_begin_sorted.
Qed.

(** Sorting leaves a sorted collection as it is. *)
Lemma IIR_sort_id (iir : IIR) : sorted_by_begin iir -> IIR_sort iir = iir.
Proof.
  unfold sorted_by_begin. intros Hl.
  induction Hl as [|y l Hl IH Hy]; simpl; [done|].
  rewrite IH. destruct Hy as [|z l Hz _]; simpl; [done|].
  unfold begin_le in Hz. by destruct (Z.leb_spec (ibegin y) (ibegin z)); [|lia].
Qed.

(** * The gap-bridging pass *)

Section FillFlashBlankFacts.

Variable type : SubtitleType.
Variable maxBlank : Z.

Lemma bridge_scan_length (A : Interval) (later : list Interval) :
  length (snd (bridge_scan type maxBlank A later)) = length later.
Proof.
  induction later as [|B later IH]; simpl; [done|].
  destruct (negb _).
  { destruct (bridge_scan _ _ A later); simpl in *. by rewrite IH. }
  destruct (dist A B <=? 0).
  { destruct (bridge_scan _ _ A later); simpl in *. by rewrite IH. }
  by destruct (dist A B >? maxBlank).
Qed.

(** With a negative [maxBlank] no gap qualifies: the scan changes
    nothing. *)
Lemma bridge_scan_negative (A : Interval) (later : list Interval) :
  maxBlank < 0 -> bridge_scan type maxBlank A later = (A, later).
Proof.
  intros Hneg. induction later as [|B later IH]; simpl; [done|].
  rewrite IH. destruct (negb _); [done|].
  destruct (Z.leb_spec (dist A B) 0); [done|].
  destruct (Z.gtb_spec (dist A B) maxBlank); [done|lia].
Qed.

(** The [while] loop for the interval at [length pre], from the index
    after [mid] on, is the scan through [rest]. *)
Lemma FillFlashBlank_while_scan (pre : list Interval) (A : Interval)
    (mid rest : list Interval) :
  FillFlashBlank_while type maxBlank (pre ++ A :: mid ++ rest) (length pre)
    (seq (S (length pre) + length mid) (length rest))
  = pre ++ fst (bridge_scan type maxBlank A rest)
        :: mid ++ snd (bridge_scan type maxBlank A rest).
Proof.
  revert mid. induction rest as [|B rest IH]; intros mid; [done|].
  cbn [length seq FillFlashBlank_while bridge_scan].
  assert (HA : (pre ++ A :: mid ++ B :: rest) !! length pre = Some A).
  { by rewrite list_lookup_middle. }
  assert (HB : (pre ++ A :: mid ++ B :: rest) !! (S (length pre) + length mid)%nat
               = Some B).
  { rewrite lookup_app_r by lia.
    replace (S (length pre) + length mid - length pre)%nat
      with (S (length mid)) by lia.
    simpl. by rewrite list_lookup_middle. }
  rewrite HA, HB.
  assert (Hnext : FillFlashBlank_while type maxBlank
                    (pre ++ A :: mid ++ B :: rest) (length pre)
                    (seq (S (S (length pre) + length mid)) (length rest))
                  = pre ++ fst (bridge_scan type maxBlank A rest)
                        :: mid ++ B :: snd (bridge_scan type maxBlank A rest)).
  { specialize (IH (mid ++ [B])).
    rewrite length_app, <- !(assoc_L (++) mid [B]) in IH. simpl in IH.
    replace (S (length pre + (length mid + 1)))
      with (S (S (length pre) + length mid)) in IH by lia.
    exact IH. }
  destruct (negb (SubtitleType_eqb (itype B) type)).
  { rewrite Hnext. by destruct (bridge_scan type maxBlank A rest). }
  destruct (Z.gtb_spec (dist A B) maxBlank) as [Hfar|Hnear];
    destruct (Z.leb_spec (dist A B) 0) as [Hov|Hgap].
  - rewrite bridge_scan_negative by lia. done.
  - done.
  - rewrite Hnext. by destruct (bridge_scan type maxBlank A rest).
  - simpl.
    rewrite insert_app_r_alt by lia. rewrite Nat.sub_diag. simpl.
    replace (S (length pre + length mid)) with (length pre + S (length mid))%nat
      by lia.
    rewrite insert_app_r. simpl. f_equal. f_equal.
    rewrite insert_app_r_alt by lia. rewrite Nat.sub_diag. done.
Qed.

(** The loop of [apply] from the index [length pre] on is the sweep of the
    rest of the collection. *)
Lemma FillFlashBlank_fold_sweep (n : nat) (pre suf : list Interval) :
  (n <= length suf)%nat ->
  fold_left (FillFlashBlank_body type maxBlank) (seq (length pre) n) (pre ++ suf)
  = pre ++ bridge_sweep_n type maxBlank n suf.
Proof.
  revert pre suf. induction n as [|n IH]; intros pre suf Hn.
  { by destruct suf. }
  destruct suf as [|A later]; [simpl in Hn; lia|].
  simpl in Hn. apply le_S_n in Hn.
  cbn [seq fold_left bridge_sweep_n].
  unfold FillFlashBlank_body at 2. rewrite list_lookup_middle by done.
  destruct (negb (SubtitleType_eqb (itype A) type)).
  - specialize (IH (pre ++ [A]) later Hn).
    rewrite length_app, <- (assoc_L (++)) in IH. simpl in IH.
    rewrite Nat.add_1_r in IH. rewrite IH. by rewrite <- (assoc_L (++)).
  - pose proof (FillFlashBlank_while_scan pre A [] later) as Hw.
    simpl in Hw. rewrite Nat.add_0_r in Hw.
    rewrite length_app. simpl.
    replace (length pre + S (length later) - S (length pre))%nat
      with (length later) by lia.
    rewrite Hw.
    pose proof (bridge_scan_length A later) as Hlen.
    destruct (bridge_scan type maxBlank A later) as [A' later']. simpl in *.
    specialize (IH (pre ++ [A']) later').
    rewrite length_app, <- (assoc_L (++)) in IH. simpl in IH.
    rewrite Nat.add_1_r in IH. rewrite IH by lia. by rewrite <- (assoc_L (++)).
Qed.

Lemma FillFlashBlank_sweep_bridge (iir : IIR) :
  FillFlashBlank_sweep type maxBlank iir = bridge_sweep type maxBlank iir.
Proof.
  unfold FillFlashBlank_sweep, bridge_sweep.
  exact (FillFlashBlank_fold_sweep (length iir) [] iir (le_n _)).
Qed.

End FillFlashBlankFacts.

(** C2: the pass is the sweep in collection order, scanning forward from
    each interval of the channel (other channels skipped, overlapping or
    touching intervals of the channel skipped, the scan stopped by the
    first interval of the channel farther than maxGap, the first one with
    0 < dist <= maxGap bridged at the floor midpoint), followed by the
    re-sort by begin; [0,100) and [150,250) with maxGap 100 become [0,125)
    and [125,250), and [0,100) and [250,350) are unchanged. *)
Theorem FillFlashBlank_apply_spec
    (type : SubtitleType) (maxGap : Z) (iir : IIR) :
  IIRPassFillFlashBlank_apply type maxGap iir = gap_bridging type maxGap iir
  /\ sorted_by_begin (IIRPassFillFlashBlank_apply type maxGap iir)
  /\ IIRPassFillFlashBlank_apply type maxGap iir ≡ₚ bridge_sweep type maxGap iir
  /\ IIRPassFillFlashBlank_apply DIALOG 100
       [mkInterval 0 100 DIALOG; mkInterval 150 250 DIALOG]
     = [mkInterval 0 125 DIALOG; mkInterval 125 250 DIALOG]
  /\ IIRPassFillFlashBlank_apply DIALOG 100
       [mkInterval 0 100 DIALOG; mkInterval 250 350 DIALOG]
     = [mkInterval 0 100 DIALOG; mkInterval 250 350 DIALOG].
Proof.
  unfold IIRPassFillFlashBlank_apply, gap_bridging.
  rewrite FillFlashBlank_sweep_bridge.
  split; [done|]. split; [apply IIR_sort_sorted|].
  split; [apply IIR_sort_Permutation|]. split; reflexivity.
Qed.

(** * The invariant [begin <= end] *)

Lemma of_channel_cons_eq (type : SubtitleType) (A : Interval) (l : list Interval) :
  SubtitleType_eqb (itype A) type = true ->
  of_channel type (A :: l) = A :: of_channel type l.
Proof. intros H. unfold of_channel. by rewrite filter_cons_True. Qed.

Lemma of_channel_cons_ne (type : SubtitleType) (A : Interval) (l : list Interval) :
  SubtitleType_eqb (itype A) type = false ->
  of_channel type (A :: l) = of_channel type l.
Proof.
  intros H. unfold of_channel. rewrite filter_cons_False; [done|]. by rewrite H.
Qed.

Lemma sorted_by_begin_of_channel (type : SubtitleType) (iir : IIR) :
  sorted_by_begin iir -> sorted_by_begin (of_channel type iir).
Proof.
  unfold sorted_by_begin. intros Hs. induction Hs as [|A l Hs IH HA]; [constructor|].
  destruct (SubtitleType_eqb (itype A) type) eqn:Ht.
  - rewrite of_channel_cons_eq by done. constructor; [done|].
    apply Forall_forall. intros B HB. apply list_elem_of_filter in HB as [_ HB].
    by eapply Forall_forall in HA.
  - by rewrite of_channel_cons_ne.
Qed.

(** The floor midpoint of a positive gap lies in the gap. *)
Lemma mid_of_bounds (A B : Interval) :
  iend A < ibegin B -> iend A <= mid_of A B < ibegin B.
Proof. unfold mid_of. intros H. Z.div_mod_to_equations. lia. Qed.

Section BeginLeEnd.

Variable type : SubtitleType.
Variable maxBlank : Z.

(** The scan for [A] keeps the invariant of every interval, keeps the
    intervals of the channel in the order of their begins, and moves no
    begin of the channel below a bound [x] that is at most [A.end]. *)
Lemma bridge_scan_invariant (A : Interval) (later : list Interval) (x : Z) :
  begin_le_end A -> Forall begin_le_end later ->
  sorted_by_begin (A :: of_channel type later) ->
  x <= iend A -> Forall (fun B => x <= ibegin B) (of_channel type later) ->
  begin_le_end (fst (bridge_scan type maxBlank A later))
  /\ Forall begin_le_end (snd (bridge_scan type maxBlank A later))
  /\ sorted_by_begin (of_channel type (snd (bridge_scan type maxBlank A later)))
  /\ Forall (fun B => x <= ibegin B)
       (of_channel type (snd (bridge_scan type maxBlank A later))).
Proof.
  unfold sorted_by_begin, begin_le_end.
  revert x. induction later as [|B later IH]; intros x HA Hlater Hsort Hx Hlow.
  { simpl. repeat split; (done || constructor). }
  apply Forall_cons in Hlater as [HB Hlater].
  cbn [bridge_scan].
  destruct (SubtitleType_eqb (itype B) type) eqn:Ht; cbn [negb].
  2: { (* another channel *)
    rewrite of_channel_cons_ne in Hsort, Hlow by done.
    destruct (IH x HA Hlater Hsort Hx Hlow) as (H1 & H2 & H3 & H4).
    destruct (bridge_scan type maxBlank A later) as [A' rest]. simpl in *.
    rewrite of_channel_cons_ne by done. repeat split; try done.
    by constructor. }
  rewrite of_channel_cons_eq in Hsort, Hlow by done.
  apply StronglySorted_inv in Hsort as [Hsort HAle].
  apply Forall_cons in HAle as [HAB HAle].
  apply StronglySorted_inv in Hsort as [Hsort HBle].
  apply Forall_cons in Hlow as [HxB Hlow].
  unfold begin_le in HAB.
  rewrite (dist_le A B) by done.
  destruct (Z.leb_spec (ibegin B - iend A) 0) as [Hov|Hgap].
  { (* overlapping or touching *)
    assert (Hsort' : StronglySorted begin_le (A :: of_channel type later))
      by (by constructor).
    destruct (IH x HA Hlater Hsort' Hx Hlow) as (H1 & H2 & H3 & H4).
    destruct (IH (ibegin B) HA Hlater Hsort') as (_ & _ & _ & H5); [lia|done|].
    destruct (bridge_scan type maxBlank A later) as [A' rest]. simpl in *.
    rewrite of_channel_cons_eq by done.
    repeat split; try done; by constructor. }
  destruct (Z.gtb_spec (ibegin B - iend A) maxBlank) as [Hfar|Hnear]; simpl.
  { rewrite of_channel_cons_eq by done.
    repeat split; try done; by constructor. }
  pose proof (mid_of_bounds A B) as Hmid. unfold mid_of in Hmid.
  rewrite of_channel_cons_eq by done.
  repeat split.
  - lia.
  - constructor; [simpl; lia|done].
  - constructor; [done|].
    eapply Forall_impl; [exact HBle|]. unfold begin_le. simpl. intros; lia.
  - constructor; [simpl; lia|done].
Qed.

Lemma bridge_sweep_n_begin_le_end (n : nat) (iir : IIR) :
  Forall begin_le_end iir -> sorted_by_begin (of_channel type iir) ->
  Forall begin_le_end (bridge_sweep_n type maxBlank n iir).
Proof.
  revert iir. induction n as [|n IH]; intros iir Hall Hsort; [by destruct iir|].
  destruct iir as [|A later]; [done|]. cbn [bridge_sweep_n].
  apply Forall_cons in Hall as [HA Hlater].
  destruct (SubtitleType_eqb (itype A) type) eqn:Ht; cbn [negb].
  - rewrite of_channel_cons_eq in Hsort by done.
    destruct (bridge_scan_invariant A later (ibegin A) HA Hlater Hsort)
      as (H1 & H2 & H3 & _); [done| |].
    { by apply StronglySorted_inv in Hsort as [_ ?]. }
    destruct (bridge_scan type maxBlank A later) as [A' later']. simpl in *.
    constructor; [done|]. by apply IH.
  - rewrite of_channel_cons_ne in Hsort by done.
    constructor; [done|]. by apply IH.
Qed.

(** The pass keeps [begin <= end] on a collection sorted by begin. *)
Lemma FillFlashBlank_apply_begin_le_end (iir : IIR) :
  sorted_by_begin iir -> Forall begin_le_end iir ->
  Forall begin_le_end (IIRPassFillFlashBlank_apply type maxBlank iir).
Proof.
  intros Hsort Hall. unfold IIRPassFillFlashBlank_apply.
  rewrite IIR_sort_Permutation, FillFlashBlank_sweep_bridge.
  apply bridge_sweep_n_begin_le_end; [done|].
  by apply sorted_by_begin_of_channel.
Qed.

End BeginLeEnd.

Lemma run_passes_begin_le_end (passes : list (SubtitleType * Z)) (iir : IIR) :
  sorted_by_begin iir -> Forall begin_le_end iir ->
  Forall begin_le_end (run_passes passes iir).
Proof.
  revert iir. induction passes as [|[type maxBlank] passes IH];
    intros iir Hsort Hall; [done|].
  unfold run_passes. simpl. apply IH.
  - unfold IIRPassFillFlashBlank_apply. apply IIR_sort_sorted.
  - by apply FillFlashBlank_apply_begin_le_end.
Qed.

Section BuildBeginLeEnd.

Variable type : SubtitleType.

(** The loop of the build pass over frames in timestamp order: every
    interval it emits ends no earlier than it begins. *)
Lemma BuildIntervals_fold_begin_le_end (fps : list FramePoint) (st : BuildState) :
  timestamps_nondecreasing fps ->
  (state st = true -> Forall (fun fp => lastBegin st <= timestamp fp) fps) ->
  Forall begin_le_end (intervals st) ->
  Forall begin_le_end
    (intervals (fold_left (BuildIntervals_body type) fps st)).
Proof.
  unfold timestamps_nondecreasing. intros Hts. revert st.
  induction Hts as [|fp fps Hts IH Hfp]; intros st Hopen Hall; [done|].
  simpl. apply IH.
  - unfold BuildIntervals_body.
    destruct (state st) eqn:Hst, (flag type fp) eqn:Hf; simpl.
    + rewrite Hst. intros _. specialize (Hopen eq_refl).
      by apply Forall_cons in Hopen as [_ ?].
    + done.
    + intros _. eapply Forall_impl; [exact Hfp|]. simpl. intros; lia.
    + rewrite Hst. done.
  - unfold BuildIntervals_body.
    destruct (state st) eqn:Hst, (flag type fp) eqn:Hf; simpl; try done.
    apply Forall_app. split; [done|]. constructor; [|constructor].
    specialize (Hopen eq_refl). apply Forall_cons in Hopen as [Hle _].
    unfold begin_le_end. simpl. lia.
Qed.

Lemma timestamps_nondecreasing_virtualEnd (fpir : FPIR) (virtualEnd : FramePoint) :
  timestamps_nondecreasing fpir ->
  genVirtualEnd fpir = Ok virtualEnd ->
  timestamps_nondecreasing (fpir ++ [virtualEnd]).
Proof.
  unfold timestamps_nondecreasing, genVirtualEnd. intros Hts Hgen.
  destruct (last fpir) as [lastFramePoint|] eqn:Hlast; [|done].
  injection Hgen as <-.
  apply last_Some in Hlast as [fps ->].
  apply StronglySorted_app_2; [|done|repeat constructor].
  intros p q Hp Hq. apply list_elem_of_singleton in Hq as ->. simpl.
  apply elem_of_app in Hp as [Hp|Hp].
  - apply StronglySorted_app in Hts as (Hts & _ & _).
    apply Hts; [done|]. by apply list_elem_of_singleton.
  - by apply list_elem_of_singleton in Hp as ->.
Qed.

Lemma BuildIntervals_apply_begin_le_end (fpir : FPIR) (ivs : list Interval) :
  timestamps_nondecreasing fpir ->
  FPIRPassBuildIntervals_apply type fpir = Ok ivs ->
  Forall begin_le_end ivs.
Proof.
  intros Hts. unfold FPIRPassBuildIntervals_apply, getFramePointsWithVirtualEnd.
  destruct (genVirtualEnd fpir) as [virtualEnd|e] eqn:Hgen; [|done].
  simpl. intros [= <-].
  apply BuildIntervals_fold_begin_le_end; [|done|constructor].
  by apply timestamps_nondecreasing_virtualEnd.
Qed.

End BuildBeginLeEnd.

Lemma IIR_collect_begin_le_end (fpir : FPIR) (types : list SubtitleType)
    (acc iir : IIR) :
  timestamps_nondecreasing fpir ->
  Forall begin_le_end acc ->
  IIR_collect fpir types acc = Ok iir ->
  Forall begin_le_end iir.
Proof.
  intros Hts. revert acc. induction types as [|type types IH]; intros acc Hacc.
  { by intros [= <-]. }
  simpl. destruct (FPIRPassBuildIntervals_apply type fpir) as [ivs|e] eqn:Hb;
    [|done].
  simpl. apply IH. apply Forall_app. split; [done|].
  by eapply BuildIntervals_apply_begin_le_end.
Qed.

Lemma IIR_init_begin_le_end (fpir : FPIR) (iir : IIR) :
  timestamps_nondecreasing fpir ->
  IIR_init fpir = Ok iir ->
  sorted_by_begin iir /\ Forall begin_le_end iir.
Proof.
  intros Hts. unfold IIR_init.
  destruct (IIR_collect fpir SubtitleType_members []) as [ivs|e] eqn:Hc; [|done].
  simpl. intros [= <-]. split; [apply IIR_sort_sorted|].
  rewrite IIR_sort_Permutation.
  by eapply (IIR_collect_begin_le_end fpir SubtitleType_members []).
Qed.

(** C10: with non-decreasing timestamps from the producer, every interval
    the build pass emits has begin <= end; so has every interval of the
    collection IIR construction yields, and of the collection after any
    run of gap-bridging passes; a gap-bridging pass keeps begin <= end on
    a collection sorted by begin, after each iteration of its sweep and at
    its end; and at a bridged gap (A before B in begin order, 0 < dist)
    the midpoint keeps both: A.begin <= mid and mid <= B.end. *)
Theorem begin_le_end_throughout (fpir : FPIR) :
  timestamps_nondecreasing fpir ->
  (forall type ivs,
     FPIRPassBuildIntervals_apply type fpir = Ok ivs ->
     Forall begin_le_end ivs)
  /\ (forall iir passes,
        IIR_init fpir = Ok iir ->
        Forall begin_le_end iir
        /\ Forall begin_le_end (run_passes passes iir))
  /\ (forall type maxGap iir,
        sorted_by_begin iir -> Forall begin_le_end iir ->
        Forall begin_le_end (IIRPassFillFlashBlank_apply type maxGap iir)
        /\ (forall k, (k <= length iir)%nat ->
              Forall begin_le_end
                (fold_left (FillFlashBlank_body type maxGap) (seq 0 k) iir)))
  /\ (forall A B,
        begin_le_end A -> begin_le_end B -> ibegin A <= ibegin B ->
        0 < dist A B ->
        begin_le_end (mkInterval (ibegin A) (mid_of A B) (itype A))
        /\ begin_le_end (mkInterval (mid_of A B) (iend B) (itype B))).
Proof.
  intros Hts. repeat split.
  - intros type ivs. by apply BuildIntervals_apply_begin_le_end.
  - by eapply IIR_init_begin_le_end.
  - destruct (IIR_init_begin_le_end fpir iir Hts) as [? ?]; [done|].
    by apply run_passes_begin_le_end.
  - by apply FillFlashBlank_apply_begin_le_end.
  - intros k Hk.
    pose proof (FillFlashBlank_fold_sweep type maxGap k [] iir Hk) as Hfold.
    simpl in Hfold. rewrite Hfold.
    apply bridge_sweep_n_begin_le_end; [done|].
    by apply sorted_by_begin_of_channel.
  - rewrite dist_le in * by done.
    pose proof (mid_of_bounds A B). unfold begin_le_end in *. simpl. lia.
  - rewrite dist_le in * by done.
    pose proof (mid_of_bounds A B). unfold begin_le_end in *. simpl. lia.
Qed.

Lemma begin_le_end_throughout_witness :
  Forall begin_le_end
    (run_passes [(DIALOG, 300); (BLACKSCREEN, 1200)]
       [mkInterval 0 100 DIALOG; mkInterval 200 400 DIALOG]).
Proof.
  refine (proj2 (proj1 (proj2 (begin_le_end_throughout scenario1 _))
                   [mkInterval 0 100 DIALOG; mkInterval 200 400 DIALOG]
                   [(DIALOG, 300); (BLACKSCREEN, 1200)] _)).
  - unfold timestamps_nondecreasing, scenario1, frames_of. simpl.
    repeat constructor; simpl; lia.
  - reflexivity.
Defined.

(** * Gap bridging on separated intervals *)

Lemma insert_by_begin_head (x : Interval) (l : list Interval) :
  Forall (begin_le x) l -> insert_by_begin x l = x :: l.
Proof.
  intros [|y l' Hy _]; simpl; [done|]. unfold begin_le in Hy.
  by destruct (Z.leb_spec (ibegin x) (ibegin y)); [|lia].
Qed.

(** The sort is stable: the intervals of one channel are inserted among
    themselves as they would be on their own. *)
Lemma of_channel_insert_by_begin (type : SubtitleType) (x : Interval)
    (l : list Interval) :
  sorted_by_begin l ->
  of_channel type (insert_by_begin x l)
  = if SubtitleType_eqb (itype x) type
    then insert_by_begin x (of_channel type l)
    else of_channel type l.
Proof.
  unfold sorted_by_begin. intros Hl.
  induction Hl as [|y l' Hl IH Hy]; simpl.
  { destruct (SubtitleType_eqb (itype x) type) eqn:Hx;
      [by rewrite of_channel_cons_eq | by rewrite of_channel_cons_ne]. }
  destruct (Z.leb_spec (ibegin x) (ibegin y)) as [Hxy|Hxy].
  - destruct (SubtitleType_eqb (itype x) type) eqn:Hx.
    + rewrite of_channel_cons_eq by done. symmetry.
      apply insert_by_begin_head. apply Forall_forall. intros z Hz.
      apply list_elem_of_filter in Hz as [_ Hz].
      apply elem_of_cons in Hz as [->|Hz]; [done|].
      eapply Forall_forall in Hy; [|done]. unfold begin_le in *. lia.
    + by rewrite of_channel_cons_ne.
  - destruct (SubtitleType_eqb (itype y) type) eqn:Hty.
    + rewrite !(of_channel_cons_eq type y) by done. rewrite IH.
      destruct (SubtitleType_eqb (itype x) type); [|done]. simpl.
      by destruct (Z.leb_spec (ibegin x) (ibegin y)); [lia|].
    + rewrite !(of_channel_cons_ne type y) by done. by rewrite IH.
Qed.

Lemma of_channel_IIR_sort (type : SubtitleType) (iir : IIR) :
  of_channel type (IIR_sort iir) = IIR_sort (of_channel type iir).
Proof.
  induction iir as [|x l IH]; [done|]. simpl.
  rewrite of_channel_insert_by_begin by apply IIR_sort_sorted.
  destruct (SubtitleType_eqb (itype x) type) eqn:Hx.
  - rewrite of_channel_cons_eq by done. simpl. by rewrite IH.
  - by rewrite of_channel_cons_ne.
Qed.

Lemma StronglySorted_lookup {A} (R : A -> A -> Prop) (l : list A)
    (i j : nat) (a b : A) :
  StronglySorted R l -> (i < j)%nat -> l !! i = Some a -> l !! j = Some b ->
  R a b.
Proof.
  intros Hl. revert i j. induction Hl as [|x l Hl IH Hx]; intros i j Hij Ha Hb.
  { done. }
  destruct j as [|j]; [lia|]. destruct i as [|i]; simpl in *.
  - injection Ha as ->. eapply Forall_lookup_1 in Hx; done.
  - apply (IH i j); (lia || done).
Qed.

Lemma lower_head_lookup_0 (m : Z) (L : list Interval) :
  lower_head m L !! 0%nat = set_begin m <$> L !! 0%nat.
Proof. by destruct L. Qed.

Lemma lower_head_lookup_S (m : Z) (L : list Interval) (i : nat) :
  lower_head m L !! S i = L !! S i.
Proof. by destruct L. Qed.

Lemma length_lower_head (m : Z) (L : list Interval) :
  length (lower_head m L) = length L.
Proof. by destruct L. Qed.

Section BridgeChain.

Variable type : SubtitleType.
Variable maxGap : Z.

Lemma bridge_chain_cons (A B : Interval) (R : list Interval) :
  bridge_chain maxGap (A :: B :: R)
  = if bridgeable maxGap A B
    then set_end (mid_of A B) A
           :: lower_head (mid_of A B) (bridge_chain maxGap (B :: R))
    else A :: bridge_chain maxGap (B :: R).
Proof. done. Qed.

Lemma length_bridge_chain (L : list Interval) :
  length (bridge_chain maxGap L) = length L.
Proof.
  induction L as [|A rest IH]; [done|].
  destruct rest as [|B R]; [done|]. rewrite bridge_chain_cons.
  destruct (bridgeable maxGap A B); cbn [length]; [|by rewrite IH].
  by rewrite length_lower_head, IH.
Qed.

(** Neighbours whose gap qualifies end the chain at its midpoint. *)
Lemma bridge_chain_neighbours (L : list Interval) (i : nat) (A B : Interval) :
  L !! i = Some A -> L !! S i = Some B -> bridgeable maxGap A B = true ->
  exists A' B',
    bridge_chain maxGap L !! i = Some A'
    /\ bridge_chain maxGap L !! S i = Some B'
    /\ iend A' = mid_of A B /\ ibegin B' = mid_of A B.
Proof.
  revert i. induction L as [|A0 rest IH]; intros i HA HB Hbr; [done|].
  destruct i as [|i]; simpl in HA, HB.
  - injection HA as ->. destruct rest as [|B0 R]; [done|].
    simpl in HB. injection HB as ->.
    rewrite bridge_chain_cons, Hbr.
    pose proof (length_bridge_chain (B :: R)) as Hlen.
    destruct (bridge_chain maxGap (B :: R)) as [|B' R'] eqn:Hc; [done|].
    exists (set_end (mid_of A B) A), (set_begin (mid_of A B) B').
    repeat split.
  - destruct (IH i HA HB Hbr) as (A' & B' & HA' & HB' & HeA & HbB).
    destruct rest as [|B0 R]; [done|]. rewrite bridge_chain_cons.
    destruct (bridgeable maxGap A0 B0).
    + set (m := mid_of A0 B0). destruct i as [|i].
      * exists (set_begin m A'), B'. split; [|split; [|done]].
        -- change (lower_head m (bridge_chain maxGap (B0 :: R)) !! 0%nat
                   = Some (set_begin m A')).
           by rewrite lower_head_lookup_0, HA'.
        -- change (lower_head m (bridge_chain maxGap (B0 :: R)) !! 1%nat
                   = Some B').
           by rewrite lower_head_lookup_S.
      * exists A', B'. split; [|split; [|done]].
        -- change (lower_head m (bridge_chain maxGap (B0 :: R)) !! S i
                   = Some A').
           by rewrite lower_head_lookup_S.
        -- change (lower_head m (bridge_chain maxGap (B0 :: R)) !! S (S i)
                   = Some B').
           by rewrite lower_head_lookup_S.
    + exists A', B'. done.
Qed.

(** On separated intervals the chain leaves intervals that satisfy the
    invariant, with each ending no later than the following ones begin;
    the first keeps its begin and does not end earlier. *)
Lemma bridge_chain_separated (L : list Interval) :
  separated L ->
  Forall begin_le_end (bridge_chain maxGap L)
  /\ StronglySorted (fun A B => iend A <= ibegin B) (bridge_chain maxGap L)
  /\ (forall A R, L = A :: R ->
        exists A' R', bridge_chain maxGap L = A' :: R'
                      /\ ibegin A' = ibegin A /\ iend A <= iend A').
Proof.
  unfold separated, begin_le_end. intros [Hall Hsep].
  induction Hsep as [|A rest Hsep IH HA].
  { repeat split; try constructor. done. }
  apply Forall_cons in Hall as [HAle Hall].
  destruct rest as [|B R].
  { simpl. repeat split; [by repeat constructor|by repeat constructor|].
    intros A0 R0 [= <- <-]. exists A, []. repeat split; lia. }
  destruct (IH Hall) as (IH1 & IH2 & IH3).
  destruct (IH3 B R eq_refl) as (B' & R' & Hc & HbB & HeB).
  apply Forall_cons in HA as [HAB _].
  pose proof Hall as HBle. apply Forall_cons in HBle as [HBle _].
  rewrite bridge_chain_cons, Hc. rewrite Hc in IH1, IH2.
  apply Forall_cons in IH1 as [HB' HR'].
  apply StronglySorted_inv in IH2 as [HsR' HB'R'].
  destruct (bridgeable maxGap A B) eqn:Hbr.
  - pose proof (mid_of_bounds A B HAB) as Hmid. simpl.
    repeat split.
    + constructor; [simpl; lia|]. constructor; [simpl; lia|done].
    + constructor.
      * constructor; [done|]. done.
      * constructor; [simpl; lia|].
        eapply Forall_impl; [exact HB'R'|]. simpl. intros; lia.
    + intros A0 R0 [= <- <-]. eexists _, _. split; [done|]. simpl. lia.
  - repeat split.
    + constructor; [done|]. by constructor.
    + constructor; [by constructor|].
      constructor; [lia|]. eapply Forall_impl; [exact HB'R'|]. simpl. intros; lia.
    + intros A0 R0 [= <- <-]. eexists _, _. split; [done|]. lia.
Qed.

(** On separated intervals the chain only lowers begins and only raises
    ends. *)
Lemma bridge_chain_grows (L : list Interval) (i : nat) (A A' : Interval) :
  separated L ->
  L !! i = Some A -> bridge_chain maxGap L !! i = Some A' ->
  ibegin A' <= ibegin A /\ iend A <= iend A'.
Proof.
  unfold separated, begin_le_end. intros [Hall Hsep]. revert i A A' Hall.
  induction Hsep as [|A0 rest Hsep IH HA0]; intros i A A' Hall HA HA'; [done|].
  apply Forall_cons in Hall as [HA0le Hall].
  destruct rest as [|B R].
  { destruct i; simpl in *; [|done]. injection HA as <-. injection HA' as <-.
    lia. }
  apply Forall_cons in HA0 as [HA0B _].
  pose proof (mid_of_bounds A0 B HA0B) as Hmid.
  rewrite bridge_chain_cons in HA'.
  destruct (bridgeable maxGap A0 B); destruct i as [|i];
    simpl in HA; cbn -[bridge_chain] in HA'.
  - injection HA as <-. injection HA' as <-. simpl. lia.
  - destruct i as [|i].
    + rewrite lower_head_lookup_0 in HA'.
      destruct (bridge_chain maxGap (B :: R) !! 0%nat) as [A''|] eqn:Hc;
        [|done].
      injection HA' as <-. simpl in HA. injection HA as <-.
      destruct (IH 0%nat B A'' Hall eq_refl Hc) as [? ?]. simpl. lia.
    + rewrite lower_head_lookup_S in HA'. by apply (IH (S i)).
  - injection HA as <-. injection HA' as <-. lia.
  - by apply (IH i).
Qed.

Lemma bridge_chain_sorted (L : list Interval) :
  separated L -> sorted_by_begin (bridge_chain maxGap L).
Proof.
  intros Hsep. destruct (bridge_chain_separated L Hsep) as (Hall & Hs & _).
  unfold sorted_by_begin. revert Hall.
  induction Hs as [|A R Hs IH HA]; intros Hall; [constructor|].
  apply Forall_cons in Hall as [HAle Hall].
  constructor; [by apply IH|].
  eapply Forall_impl; [exact HA|]. unfold begin_le, begin_le_end in *.
  simpl. intros; lia.
Qed.

Lemma bridge_scan_fst_type (A : Interval) (later : list Interval) :
  itype (fst (bridge_scan type maxGap A later)) = itype A.
Proof.
  induction later as [|B later IH]; simpl; [done|].
  destruct (negb _).
  { by destruct (bridge_scan type maxGap A later). }
  destruct (dist A B <=? 0).
  { by destruct (bridge_scan type maxGap A later). }
  by destruct (dist A B >? maxGap).
Qed.

(** The scan for [A] when the intervals of the channel from [A] on are
    separated. *)
Lemma bridge_scan_separated (A : Interval) (later : list Interval) :
  separated (A :: of_channel type later) ->
  fst (bridge_scan type maxGap A later)
    :: of_channel type (snd (bridge_scan type maxGap A later))
  = chain_head maxGap A (of_channel type later).
Proof.
  unfold separated, begin_le_end. intros [Hall Hsep].
  induction later as [|B later IH]; [done|]. cbn [bridge_scan].
  destruct (SubtitleType_eqb (itype B) type) eqn:Ht; cbn [negb].
  2: { rewrite of_channel_cons_ne in Hall, Hsep |- * by done.
       specialize (IH Hall Hsep).
       destruct (bridge_scan type maxGap A later) as [A' rest]. simpl in *.
       by rewrite of_channel_cons_ne. }
  rewrite of_channel_cons_eq in Hall, Hsep |- * by done.
  apply StronglySorted_inv in Hsep as [_ HA].
  apply Forall_cons in HA as [HAB _].
  apply Forall_cons in Hall as [HAle _].
  unfold chain_head, bridgeable.
  assert (Hd : dist A B = ibegin B - iend A) by (apply dist_le; lia).
  rewrite Hd.
  destruct (Z.leb_spec (ibegin B - iend A) 0); [lia|].
  destruct (Z.ltb_spec 0 (ibegin B - iend A)); [|lia]. simpl.
  destruct (Z.gtb_spec (ibegin B - iend A) maxGap);
    destruct (Z.leb_spec (ibegin B - iend A) maxGap); try lia; simpl.
  - by rewrite of_channel_cons_eq.
  - by rewrite of_channel_cons_eq.
Qed.

Lemma separated_chain_head_tail (A : Interval) (L : list Interval) :
  separated (A :: L) -> separated (tail (chain_head maxGap A L)).
Proof.
  unfold separated, begin_le_end. intros [Hall Hsep].
  apply Forall_cons in Hall as [HAle Hall].
  apply StronglySorted_inv in Hsep as [Hsep HA].
  destruct L as [|B R]; simpl; [by repeat constructor|].
  destruct (bridgeable maxGap A B); simpl; [|done].
  apply Forall_cons in HA as [HAB _].
  apply Forall_cons in Hall as [HBle Hall].
  apply StronglySorted_inv in Hsep as [Hsep HB].
  pose proof (mid_of_bounds A B HAB).
  split; constructor; (done || simpl; lia).
Qed.

(** Lowering the begin of the first interval does not change what the
    chain does after it. *)
Lemma bridge_chain_set_begin (m : Z) (B : Interval) (R : list Interval) :
  separated (B :: R) -> m <= ibegin B ->
  bridge_chain maxGap (set_begin m B :: R)
  = lower_head m (bridge_chain maxGap (B :: R)).
Proof.
  unfold separated, begin_le_end. intros [Hall Hsep] Hm.
  destruct R as [|C R]; [done|]. rewrite !bridge_chain_cons.
  apply StronglySorted_inv in Hsep as [_ HB].
  apply Forall_cons in HB as [HBC _].
  apply Forall_cons in Hall as [HBle _].
  assert (Hb : bridgeable maxGap (set_begin m B) C = bridgeable maxGap B C).
  { unfold bridgeable. rewrite !dist_le by (simpl; lia). done. }
  rewrite Hb. by destruct (bridgeable maxGap B C).
Qed.

Lemma bridge_chain_chain_head (A : Interval) (L : list Interval) :
  separated (A :: L) ->
  bridge_chain maxGap (A :: L)
  = match chain_head maxGap A L with
    | [] => []
    | A' :: L' => A' :: bridge_chain maxGap L'
    end.
Proof.
  intros Hsep. destruct L as [|B R]; [done|].
  rewrite bridge_chain_cons. cbn [chain_head].
  destruct (bridgeable maxGap A B); [|done].
  f_equal. symmetry.
  destruct Hsep as [Hall Hsep]. unfold begin_le_end in Hall.
  apply Forall_cons in Hall as [HAle Hall].
  apply StronglySorted_inv in Hsep as [Hsep HA].
  apply Forall_cons in HA as [HAB _].
  pose proof (mid_of_bounds A B HAB).
  apply bridge_chain_set_begin; [by split|lia].
Qed.

(** The sweep, seen on one channel whose intervals are separated. *)
Lemma bridge_sweep_n_separated (n : nat) (iir : IIR) :
  (length iir <= n)%nat ->
  separated (of_channel type iir) ->
  of_channel type (bridge_sweep_n type maxGap n iir)
  = bridge_chain maxGap (of_channel type iir).
Proof.
  revert iir. induction n as [|n IH]; intros iir Hn Hsep.
  { destruct iir; [done|simpl in Hn; lia]. }
  destruct iir as [|A later]; [done|]. cbn [bridge_sweep_n].
  simpl in Hn.
  destruct (SubtitleType_eqb (itype A) type) eqn:Ht; cbn [negb].
  2: { rewrite of_channel_cons_ne in Hsep |- * by done.
       rewrite of_channel_cons_ne by done. apply IH; [lia|done]. }
  rewrite of_channel_cons_eq in Hsep |- * by done.
  pose proof (bridge_scan_separated A later Hsep) as Hscan.
  pose proof (bridge_scan_fst_type A later) as Hty.
  pose proof (bridge_scan_length type maxGap A later) as Hlen.
  pose proof (separated_chain_head_tail A _ Hsep) as Htail.
  rewrite bridge_chain_chain_head by done.
  rewrite <- Hscan in Htail |- *.
  destruct (bridge_scan type maxGap A later) as [A' later']. simpl in *.
  rewrite of_channel_cons_eq by (by rewrite Hty).
  f_equal. apply IH; [lia|done].
Qed.

(** The pass, seen on one channel whose intervals are separated. *)
Lemma FillFlashBlank_apply_separated (iir : IIR) :
  separated (of_channel type iir) ->
  of_channel type (IIRPassFillFlashBlank_apply type maxGap iir)
  = bridge_chain maxGap (of_channel type iir).
Proof.
  intros Hsep. unfold IIRPassFillFlashBlank_apply.
  rewrite of_channel_IIR_sort, FillFlashBlank_sweep_bridge.
  unfold bridge_sweep. rewrite bridge_sweep_n_separated by done.
  apply IIR_sort_id. by apply bridge_chain_sorted.
Qed.

End BridgeChain.


(** * The intervals gap bridging receives *)

Lemma separated_snoc (L : list Interval) (I : Interval) :
  separated L -> begin_le_end I ->
  Forall (fun J => iend J < ibegin I) L ->
  separated (L ++ [I]).
Proof.
  intros [Hall Hsep] HI HL. split.
  - apply Forall_app. split; [done|by constructor].
  - apply StronglySorted_app_2; [|done|repeat constructor].
    intros J I' HJ HI'. apply list_elem_of_singleton in HI' as ->.
    by eapply Forall_forall in HL.
Qed.

Lemma separated_sorted (L : list Interval) :
  separated L -> sorted_by_begin L.
Proof.
  unfold separated, sorted_by_begin. intros [Hall Hsep]. revert Hall.
  induction Hsep as [|A R Hsep IH HA]; intros Hall; [constructor|].
  apply Forall_cons in Hall as [HAle Hall].
  constructor; [by apply IH|].
  eapply Forall_impl; [exact HA|]. unfold begin_le, begin_le_end in *.
  simpl. intros; lia.
Qed.

Lemma of_channel_all (type : SubtitleType) (L : list Interval) :
  Forall (fun I => itype I = type) L -> of_channel type L = L.
Proof.
  induction 1 as [|I L HI _ IH]; [done|].
  rewrite of_channel_cons_eq by (by apply SubtitleType_eqb_eq). by rewrite IH.
Qed.

Lemma of_channel_none (type type' : SubtitleType) (L : list Interval) :
  type' <> type ->
  Forall (fun I => itype I = type') L -> of_channel type L = [].
Proof.
  intros Hne. induction 1 as [|I L HI _ IH]; [done|].
  rewrite of_channel_cons_ne; [done|].
  destruct (SubtitleType_eqb (itype I) type) eqn:Ht; [|done].
  apply SubtitleType_eqb_eq in Ht. congruence.
Qed.

Section BuildSeparated.

Variable type : SubtitleType.

Lemma BuildIntervals_fold_types (fps : list FramePoint) (st : BuildState) :
  Forall (fun I => itype I = type) (intervals st) ->
  Forall (fun I => itype I = type)
    (intervals (fold_left (BuildIntervals_body type) fps st)).
Proof.
  revert st. induction fps as [|fp fps IH]; intros st Hst; [done|].
  simpl. apply IH. unfold BuildIntervals_body.
  destruct (state st), (flag type fp); simpl; try done.
  apply Forall_app. split; [done|]. by repeat constructor.
Qed.

Lemma BuildIntervals_apply_types (fpir : FPIR) (ivs : list Interval) :
  FPIRPassBuildIntervals_apply type fpir = Ok ivs ->
  Forall (fun I => itype I = type) ivs.
Proof.
  unfold FPIRPassBuildIntervals_apply.
  destruct (getFramePointsWithVirtualEnd fpir) as [fps|e]; [|done].
  simpl. intros [= <-]. apply BuildIntervals_fold_types. constructor.
Qed.

Lemma BuildIntervals_body_inv (st : BuildState) (c : Z) (fp : FramePoint) :
  build_inv st c -> c <= timestamp fp ->
  (state st = false -> flag type fp = true -> c < timestamp fp) ->
  build_inv (BuildIntervals_body type st fp) (timestamp fp).
Proof.
  unfold build_inv. intros (Hsep & Hends & Hopen) Hc Hstrict.
  unfold BuildIntervals_body.
  destruct (state st) eqn:Hst, (flag type fp) eqn:Hf; simpl.
  - rewrite Hst. split; [done|]. split.
    + eapply Forall_impl; [exact Hends|]. simpl. intros; lia.
    + intros _. destruct (Hopen eq_refl) as [? ?]. split; [lia|done].
  - destruct (Hopen eq_refl) as [Hlb Hbefore]. split; [|split; [|done]].
    + apply separated_snoc; [done| |done]. unfold begin_le_end. simpl. lia.
    + apply Forall_app. split.
      * eapply Forall_impl; [exact Hends|]. simpl. intros; lia.
      * repeat constructor. simpl. lia.
  - specialize (Hstrict eq_refl eq_refl).
    split; [done|]. split.
    + eapply Forall_impl; [exact Hends|]. simpl. intros; lia.
    + intros _. split; [lia|].
      eapply Forall_impl; [exact Hends|]. simpl. intros; lia.
  - rewrite Hst. split; [done|]. split; [|done].
    eapply Forall_impl; [exact Hends|]. simpl. intros; lia.
Qed.

Lemma BuildIntervals_fold_inv (fps : list FramePoint) (st : BuildState) (c : Z) :
  timestamps_increasing fps ->
  Forall (fun fp => c < timestamp fp) fps ->
  build_inv st c ->
  build_inv (fold_left (BuildIntervals_body type) fps st)
    (match last fps with Some fp => timestamp fp | None => c end).
Proof.
  unfold timestamps_increasing. intros Hts. revert st c.
  induction Hts as [|fp fps Hts IH Hfp]; intros st c Hc Hinv; [done|].
  apply Forall_cons in Hc as [Hcfp _].
  simpl fold_left. rewrite last_cons.
  specialize (IH (BuildIntervals_body type st fp) (timestamp fp) Hfp).
  destruct (last fps) as [fp'|]; apply IH;
    apply (BuildIntervals_body_inv st c fp); (done || lia).
Qed.

(** From strictly increasing timestamps the build pass emits separated
    intervals. *)
Lemma BuildIntervals_apply_separated (fpir : FPIR) (ivs : list Interval) :
  timestamps_increasing fpir ->
  FPIRPassBuildIntervals_apply type fpir = Ok ivs ->
  separated ivs.
Proof.
  intros Hts. unfold FPIRPassBuildIntervals_apply, getFramePointsWithVirtualEnd,
    genVirtualEnd.
  destruct (last fpir) as [lastFramePoint|] eqn:Hlast; [|done].
  simpl. intros [= <-]. rewrite fold_left_app. simpl.
  assert (Hinv : build_inv
            (fold_left (BuildIntervals_body type) fpir (mkBuildState [] 0 false))
            (timestamp lastFramePoint)).
  { destruct fpir as [|fp fps]; [done|].
    pose proof (BuildIntervals_fold_inv (fp :: fps) (mkBuildState [] 0 false)
                  (timestamp fp - 1) Hts) as H.
    rewrite Hlast in H. apply H.
    - unfold timestamps_increasing in Hts.
      apply StronglySorted_inv in Hts as [_ Hfp].
      constructor; [lia|]. eapply Forall_impl; [exact Hfp|]. simpl. intros; lia.
    - unfold build_inv. simpl. repeat split; (done || constructor). }
  set (virtualEnd := mkFramePoint _ _ _).
  pose proof (BuildIntervals_body_inv _ _ virtualEnd Hinv) as Hend.
  apply Hend.
  - simpl. lia.
  - unfold virtualEnd. rewrite flag_virtualEnd. done.
Qed.

End BuildSeparated.

(** The intervals of one channel in the collection IIR construction
    yields are those its build pass emitted. *)
Lemma IIR_init_of_channel (type : SubtitleType) (fpir : FPIR) (iir : IIR) :
  timestamps_increasing fpir ->
  IIR_init fpir = Ok iir ->
  FPIRPassBuildIntervals_apply type fpir = Ok (of_channel type iir).
Proof.
  intros Hts. unfold IIR_init, SubtitleType_members. cbn [IIR_collect].
  destruct (FPIRPassBuildIntervals_apply DIALOG fpir) as [d|e] eqn:Hd; [|done].
  destruct (FPIRPassBuildIntervals_apply BLACKSCREEN fpir) as [b|e] eqn:Hb;
    [|done].
  destruct (FPIRPassBuildIntervals_apply WHITESCREEN fpir) as [w|e] eqn:Hw;
    [|done].
  destruct (FPIRPassBuildIntervals_apply CGSUB fpir) as [c|e] eqn:Hc; [|done].
  simpl. intros [= <-].
  pose proof (BuildIntervals_apply_types _ _ _ Hd) as Td.
  pose proof (BuildIntervals_apply_types _ _ _ Hb) as Tb.
  pose proof (BuildIntervals_apply_types _ _ _ Hw) as Tw.
  pose proof (BuildIntervals_apply_types _ _ _ Hc) as Tc.
  pose proof (BuildIntervals_apply_separated _ _ _ Hts Hd) as Sd.
  pose proof (BuildIntervals_apply_separated _ _ _ Hts Hb) as Sb.
  pose proof (BuildIntervals_apply_separated _ _ _ Hts Hw) as Sw.
  pose proof (BuildIntervals_apply_separated _ _ _ Hts Hc) as Sc.
  rewrite of_channel_IIR_sort. unfold of_channel. rewrite !filter_app.
  fold (of_channel type d) (of_channel type b) (of_channel type w)
    (of_channel type c).
  destruct type.
  - rewrite (of_channel_all DIALOG d), (of_channel_none DIALOG BLACKSCREEN b),
      (of_channel_none DIALOG WHITESCREEN w), (of_channel_none DIALOG CGSUB c)
      by done.
    simpl. rewrite !app_nil_r, IIR_sort_id; [done|by apply separated_sorted].
  - rewrite (of_channel_none BLACKSCREEN DIALOG d), (of_channel_all BLACKSCREEN b),
      (of_channel_none BLACKSCREEN WHITESCREEN w),
      (of_channel_none BLACKSCREEN CGSUB c) by done.
    simpl. rewrite !app_nil_r, IIR_sort_id; [done|by apply separated_sorted].
  - rewrite (of_channel_none WHITESCREEN DIALOG d),
      (of_channel_none WHITESCREEN BLACKSCREEN b), (of_channel_all WHITESCREEN w),
      (of_channel_none WHITESCREEN CGSUB c) by done.
    simpl. rewrite !app_nil_r, IIR_sort_id; [done|by apply separated_sorted].
  - rewrite (of_channel_none CGSUB DIALOG d), (of_channel_none CGSUB BLACKSCREEN b),
      (of_channel_none CGSUB WHITESCREEN w), (of_channel_all CGSUB c) by done.
    simpl. rewrite IIR_sort_id; [done|by apply separated_sorted].
Qed.

Section OtherChannel.

Variable type : SubtitleType.   (* the channel looked at *)
Variable type' : SubtitleType.  (* the channel of the pass *)
Variable maxBlank : Z.
Hypothesis other : type' <> type.

Lemma bridge_scan_other (A : Interval) (later : list Interval) :
  of_channel type (snd (bridge_scan type' maxBlank A later))
  = of_channel type later.
Proof.
  induction later as [|B later IH]; [done|]. cbn [bridge_scan].
  assert (Hrec : of_channel type
                   (snd (let (A', rest) := bridge_scan type' maxBlank A later in
                         (A', B :: rest)))
                 = of_channel type (B :: later)).
  { destruct (bridge_scan type' maxBlank A later) as [A' rest]. simpl in *.
    destruct (SubtitleType_eqb (itype B) type) eqn:Ht.
    - rewrite !of_channel_cons_eq by done. by rewrite IH.
    - by rewrite !of_channel_cons_ne. }
  destruct (SubtitleType_eqb (itype B) type') eqn:Ht'; cbn [negb]; [|done].
  destruct (dist A B <=? 0); [done|].
  destruct (dist A B >? maxBlank); [done|]. simpl.
  apply SubtitleType_eqb_eq in Ht'.
  rewrite !of_channel_cons_ne; [done| |].
  - destruct (SubtitleType_eqb (itype B) type) eqn:Ht; [|done].
    apply SubtitleType_eqb_eq in Ht. congruence.
  - simpl. destruct (SubtitleType_eqb (itype B) type) eqn:Ht; [|done].
    apply SubtitleType_eqb_eq in Ht. congruence.
Qed.

Lemma bridge_sweep_n_other (n : nat) (iir : IIR) :
  of_channel type (bridge_sweep_n type' maxBlank n iir) = of_channel type iir.
Proof.
  revert iir. induction n as [|n IH]; intros iir; [by destruct iir|].
  destruct iir as [|A later]; [done|]. cbn [bridge_sweep_n].
  destruct (SubtitleType_eqb (itype A) type') eqn:Ht'; cbn [negb].
  - pose proof (bridge_scan_other A later) as Hscan.
    pose proof (bridge_scan_fst_type type' maxBlank A later) as Hty.
    destruct (bridge_scan type' maxBlank A later) as [A' later']. simpl in *.
    apply SubtitleType_eqb_eq in Ht'.
    assert (Hn : forall X, itype X = itype A ->
                   SubtitleType_eqb (itype X) type = false).
    { intros X HX. destruct (SubtitleType_eqb (itype X) type) eqn:Ht; [|done].
      apply SubtitleType_eqb_eq in Ht. congruence. }
    rewrite !of_channel_cons_ne by auto. by rewrite IH.
  - destruct (SubtitleType_eqb (itype A) type) eqn:Ht.
    + rewrite !of_channel_cons_eq by done. by rewrite IH.
    + rewrite !of_channel_cons_ne by done. by rewrite IH.
Qed.

(** The pass for one channel leaves the intervals of another channel,
    and their order, as they were. *)
Lemma FillFlashBlank_apply_other (iir : IIR) :
  sorted_by_begin (of_channel type iir) ->
  of_channel type (IIRPassFillFlashBlank_apply type' maxBlank iir)
  = of_channel type iir.
Proof.
  intros Hsort. unfold IIRPassFillFlashBlank_apply.
  rewrite of_channel_IIR_sort, FillFlashBlank_sweep_bridge.
  unfold bridge_sweep. rewrite bridge_sweep_n_other. by apply IIR_sort_id.
Qed.

End OtherChannel.

(** In the pipeline, with strictly increasing timestamps, the intervals
    of a channel are separated when its gap-bridging pass runs, whatever
    passes for other channels ran before. *)
Lemma pipeline_separated (type : SubtitleType) (fpir : FPIR) (iir : IIR)
    (passes : list (SubtitleType * Z)) :
  timestamps_increasing fpir ->
  IIR_init fpir = Ok iir ->
  Forall (fun p => fst p <> type) passes ->
  separated (of_channel type (run_passes passes iir)).
Proof.
  intros Hts Hinit Hpasses.
  assert (Hsep : separated (of_channel type iir)).
  { eapply BuildIntervals_apply_separated; [done|].
    by apply IIR_init_of_channel. }
  clear Hinit. revert iir Hsep.
  induction Hpasses as [|[type' maxBlank] passes Hp _ IH]; intros iir Hsep;
    [done|].
  unfold run_passes. simpl. apply IH.
  rewrite FillFlashBlank_apply_other; [done|done|].
  by apply separated_sorted.
Qed.

(** C4, as the code has it: when before the pass the intervals of the
    channel, in collection order, each have begin <= end and each end
    strictly before the next begins (what the build pass emits from
    strictly increasing timestamps, see [pipeline_separated]), then after
    the pass the channel has as many intervals; an interval of the channel
    placed before another never has dist < 0 to it, nor the other to it
    when it was non-empty before the pass; and every two neighbours of the
    channel with 0 < dist <= maxGap before the pass end it with the end of
    the first and the begin of the second both at the floor midpoint of
    the gap. *)
Theorem FillFlashBlank_separated_channel
    (type : SubtitleType) (maxGap : Z) (iir : IIR) :
  separated (of_channel type iir) ->
  let before := of_channel type iir in
  let after := of_channel type (IIRPassFillFlashBlank_apply type maxGap iir) in
  length after = length before
  /\ (forall i j A' B',
        (i < j)%nat -> after !! i = Some A' -> after !! j = Some B' ->
        0 <= dist A' B')
  /\ (forall i j A A' B',
        (i < j)%nat -> before !! i = Some A -> ibegin A < iend A ->
        after !! i = Some A' -> after !! j = Some B' ->
        0 <= dist B' A')
  /\ (forall i A B,
        before !! i = Some A -> before !! S i = Some B ->
        0 < dist A B <= maxGap ->
        exists A' B',
          after !! i = Some A' /\ after !! S i = Some B'
          /\ iend A' = (iend A + ibegin B) / 2
          /\ ibegin B' = (iend A + ibegin B) / 2).
Proof.
  intros Hsep before after.
  assert (Hafter : after = bridge_chain maxGap before)
    by (by apply FillFlashBlank_apply_separated).
  rewrite Hafter. split; [apply length_bridge_chain|]. split; [|split].
  - intros i j A' B' Hij HA' HB'.
    destruct (bridge_chain_separated maxGap before Hsep) as (Hall & Hs & _).
    pose proof (StronglySorted_lookup _ _ i j A' B' Hs Hij HA' HB') as Hle.
    pose proof (Forall_lookup_1 _ _ _ _ Hall HA') as HAle.
    unfold begin_le_end in HAle. simpl in Hle.
    rewrite dist_le by lia. lia.
  - intros i j A A' B' Hij HA HAne HA' HB'.
    destruct (bridge_chain_separated maxGap before Hsep) as (Hall & Hs & _).
    pose proof (StronglySorted_lookup _ _ i j A' B' Hs Hij HA' HB') as Hle.
    destruct (bridge_chain_grows maxGap before i A A' Hsep HA HA') as [? ?].
    simpl in Hle. rewrite dist_gt by lia. lia.
  - intros i A B HA HB Hd.
    apply (bridge_chain_neighbours maxGap before i A B HA HB).
    unfold bridgeable.
    destruct (Z.ltb_spec 0 (dist A B)); [|lia].
    by destruct (Z.leb_spec (dist A B) maxGap); [|lia].
Qed.

Lemma FillFlashBlank_separated_channel_witness :
  exists A' B',
    of_channel DIALOG
      (IIRPassFillFlashBlank_apply DIALOG 100
         [mkInterval 0 10 DIALOG; mkInterval 12 13 CGSUB;
          mkInterval 20 30 DIALOG; mkInterval 40 50 DIALOG]) !! 1%nat
    = Some A'
    /\ of_channel DIALOG
         (IIRPassFillFlashBlank_apply DIALOG 100
            [mkInterval 0 10 DIALOG; mkInterval 12 13 CGSUB;
             mkInterval 20 30 DIALOG; mkInterval 40 50 DIALOG]) !! 2%nat
       = Some B'
    /\ iend A' = (30 + 40) / 2 /\ ibegin B' = (30 + 40) / 2.
Proof.
  refine (proj2 (proj2 (proj2 (FillFlashBlank_separated_channel DIALOG 100
            [mkInterval 0 10 DIALOG; mkInterval 12 13 CGSUB;
             mkInterval 20 30 DIALOG; mkInterval 40 50 DIALOG] _)))
            1%nat (mkInterval 20 30 DIALOG) (mkInterval 40 50 DIALOG) _ _ _).
  - split.
    + repeat constructor; unfold begin_le_end; simpl; lia.
    + repeat constructor; simpl; lia.
  - reflexivity.
  - reflexivity.
  - vm_compute. split; [reflexivity|discriminate].
Defined.

(** C4 as stated fails.  In the chain [0,10), [20,30), [40,50) with maxGap
    100 the first and the last interval are disjoint with dist 30, yet
    they end at 15 and 35, not at 25; and the overlapping [0,100),
    [50,150) still overlap after the pass. *)
Lemma FillFlashBlank_not_every_pair :
  IIRPassFillFlashBlank_apply DIALOG 100
    [mkInterval 0 10 DIALOG; mkInterval 20 30 DIALOG; mkInterval 40 50 DIALOG]
  = [mkInterval 0 15 DIALOG; mkInterval 15 35 DIALOG; mkInterval 35 50 DIALOG]
  /\ dist (mkInterval 0 10 DIALOG) (mkInterval 40 50 DIALOG) = 30
  /\ (10 + 40) / 2 = 25
  /\ IIRPassFillFlashBlank_apply DIALOG 100
       [mkInterval 0 100 DIALOG; mkInterval 50 150 DIALOG]
     = [mkInterval 0 100 DIALOG; mkInterval 50 150 DIALOG]
  /\ dist (mkInterval 0 100 DIALOG) (mkInterval 50 150 DIALOG) = -50.
Proof. repeat split. Qed.

(** * Noise removal: what a pass touches *)

Lemma SubtitleType_value_inj (a b : SubtitleType) :
  SubtitleType_value a = SubtitleType_value b -> a = b.
Proof. by destruct a, b. Qed.

Lemma same_but_flag_refl (type : SubtitleType) (fp : FramePoint) :
  same_but_flag type fp fp.
Proof. by unfold same_but_flag. Qed.

Lemma same_but_flag_set_flag (type : SubtitleType) (b : bool)
    (fp fp' : FramePoint) :
  same_but_flag type fp fp' -> same_but_flag type fp (set_flag type b fp').
Proof.
  unfold same_but_flag, set_flag. intros (Hi & Ht & Hlen & Hfl). simpl.
  repeat split; [done|done|by rewrite length_insert|].
  intros j Hj. rewrite list_lookup_insert_ne by done. by apply Hfl.
Qed.

Lemma same_but_flag_other (type type' : SubtitleType) (fp fp' : FramePoint) :
  type' <> type -> same_but_flag type fp fp' -> flag type' fp' = flag type' fp.
Proof.
  intros Hne (_ & _ & _ & Hfl). unfold flag. rewrite Hfl; [done|].
  intros Heq. by apply Hne, SubtitleType_value_inj.
Qed.

(** A well-formed frame point is determined by what it shares with the
    frame point it comes from and by its flag of [type]. *)
Lemma same_but_flag_set (type : SubtitleType) (fp fp' : FramePoint) :
  wf_FramePoint fp -> same_but_flag type fp fp' ->
  fp' = set_flag type (flag type fp') fp.
Proof.
  unfold wf_FramePoint, same_but_flag, set_flag, flag.
  intros Hwf (Hi & Ht & Hlen & Hfl).
  destruct fp as [i t fl], fp' as [i' t' fl']. simpl in *. subst i' t'.
  f_equal. apply list_eq. intros j.
  destruct (decide (j = SubtitleType_value type)) as [->|Hne].
  - pose proof (SubtitleType_value_lt type) as Hlt.
    rewrite list_lookup_insert_eq by lia.
    destruct (lookup_lt_is_Some_2 fl' (SubtitleType_value type)) as [b ->];
      [lia|done].
  - rewrite list_lookup_insert_ne by done. by apply Hfl.
Qed.

Lemma Forall2_fmap_eq {A B} (R : A -> A -> Prop) (f : A -> B) (l k : list A) :
  (forall x y, R x y -> f y = f x) -> Forall2 R l k -> f <$> k = f <$> l.
Proof. intros HR. induction 1; simpl; f_equal; auto. Qed.

Section RemoveNoiseEffect.

Variable type : SubtitleType.
Variable minPositiveLength : Z.
Variable minNegativeLength : Z.

Local Abbreviation body := (RemoveNoise_body type minPositiveLength minNegativeLength).
Local Abbreviation prefix := (RemoveNoise_prefix type minPositiveLength minNegativeLength).
Local Abbreviation pass := (FPIRPassRemoveNoise_apply type minPositiveLength minNegativeLength).

Lemma RemoveNoise_prefix_same_but_flag (fpir : FPIR) (k : nat) :
  Forall2 (same_but_flag type) fpir (prefix fpir k).
Proof.
  induction k as [|k IH].
  { apply Forall_Forall2_diag, Forall_forall. intros; apply same_but_flag_refl. }
  rewrite RemoveNoise_prefix_S.
  destruct (prefix fpir k !! k) as [fp|] eqn:Hfp.
  - destruct (RemoveNoise_body_cases type minPositiveLength minNegativeLength
                _ k fp Hfp) as [[_ ->]|(_ & _ & _ & ->)]; [done|].
    unfold flip. apply Forall2_alter_r; [done|].
    intros x y _ _ Hxy. by apply same_but_flag_set_flag.
  - unfold RemoveNoise_body. by rewrite Hfp.
Qed.

Lemma RemoveNoise_apply_same_but_flag (fpir : FPIR) :
  Forall2 (same_but_flag type) fpir (pass fpir).
Proof. apply RemoveNoise_prefix_same_but_flag. Qed.

Lemma RemoveNoise_apply_wf (fpir : FPIR) :
  Forall wf_FramePoint fpir -> Forall wf_FramePoint (pass fpir).
Proof.
  intros Hwf. eapply Forall2_Forall_r; [apply RemoveNoise_apply_same_but_flag|].
  eapply Forall_impl; [exact Hwf|]. unfold wf_FramePoint.
  intros fp Hfp fp' (_ & _ & Hlen & _). congruence.
Qed.

Lemma RemoveNoise_apply_timestamps (fpir : FPIR) :
  timestamp <$> pass fpir = timestamp <$> fpir.
Proof.
  eapply Forall2_fmap_eq; [|apply RemoveNoise_apply_same_but_flag].
  by intros x y (_ & ? & _).
Qed.

Lemma RemoveNoise_apply_other_channel (type' : SubtitleType) (fpir : FPIR) :
  type' <> type -> channel type' (pass fpir) = channel type' fpir.
Proof.
  intros Hne. unfold channel.
  eapply Forall2_fmap_eq; [|apply RemoveNoise_apply_same_but_flag].
  intros x y Hxy. by apply (same_but_flag_other type type').
Qed.

Lemma RemoveNoise_apply_length (fpir : FPIR) :
  length (pass fpir) = length fpir.
Proof. apply RemoveNoise_prefix_length. Qed.

End RemoveNoiseEffect.

(** X1: a noise-removal pass keeps the number of frames, every index and
    timestamp, the number of flags of every frame and the flags of every
    other channel; it stores to the flags of its own channel only. *)
Theorem RemoveNoise_frame_effect
    (type : SubtitleType) (minPositiveLength minNegativeLength : Z)
    (fpir : FPIR) :
  let out :=
    FPIRPassRemoveNoise_apply type minPositiveLength minNegativeLength fpir in
  Forall2 (same_but_flag type) fpir out
  /\ length out = length fpir
  /\ index <$> out = index <$> fpir
  /\ timestamp <$> out = timestamp <$> fpir
  /\ (forall type', type' <> type -> channel type' out = channel type' fpir)
  /\ (Forall wf_FramePoint fpir -> Forall wf_FramePoint out).
Proof.
  intros out.
  pose proof (RemoveNoise_apply_same_but_flag type minPositiveLength
                minNegativeLength fpir) as H.
  split; [done|]. split; [apply RemoveNoise_apply_length|].
  split; [|split; [|split]].
  - eapply Forall2_fmap_eq; [|exact H]. by intros x y (? & _).
  - apply RemoveNoise_apply_timestamps.
  - intros type' Hne. by apply RemoveNoise_apply_other_channel.
  - apply RemoveNoise_apply_wf.
Qed.

(** * Noise removal: what a pass keeps *)

(** X2: a direction whose length is at most 0 is disabled: a frame whose
    flag selects that length is the same frame after the pass; with both
    lengths at most 0 the pass changes nothing. *)
Theorem RemoveNoise_disabled
    (type : SubtitleType) (minPositiveLength minNegativeLength : Z)
    (fpir : FPIR) :
  (forall i framePoint,
     fpir !! i = Some framePoint ->
     (if flag type framePoint then minPositiveLength else minNegativeLength)
       <= 0 ->
     FPIRPassRemoveNoise_apply type minPositiveLength minNegativeLength fpir !! i
     = Some framePoint)
  /\ (minPositiveLength <= 0 -> minNegativeLength <= 0 ->
      FPIRPassRemoveNoise_apply type minPositiveLength minNegativeLength fpir
      = fpir).
Proof.
  assert (Hone : forall i framePoint,
    fpir !! i = Some framePoint ->
    (if flag type framePoint then minPositiveLength else minNegativeLength)
      <= 0 ->
    forall k,
      RemoveNoise_prefix type minPositiveLength minNegativeLength fpir k !! i
      = Some framePoint).
  { intros i fp Hfp Hm. induction k as [|k IH]; [done|].
    rewrite RemoveNoise_prefix_S.
    destruct (decide (k = i)) as [->|Hne]; [|by rewrite RemoveNoise_body_other].
    destruct (RemoveNoise_body_cases type minPositiveLength minNegativeLength
                _ i fp IH) as [[_ ->]|(_ & _ & Hc & _)]; [done|].
    set (m := if flag type fp then _ else _) in *.
    pose proof (backward_count_bounds type
                  (RemoveNoise_prefix type minPositiveLength minNegativeLength
                     fpir i) (flag type fp) (Z.of_nat i) m).
    pose proof (forward_count_bounds type
                  (RemoveNoise_prefix type minPositiveLength minNegativeLength
                     fpir i) (flag type fp) (Z.of_nat i) m).
    lia. }
  split.
  - intros i fp Hfp Hm. rewrite RemoveNoise_apply_prefix. by apply Hone.
  - intros Hp Hn. apply list_eq. intros i.
    destruct (fpir !! i) as [fp|] eqn:Hfp.
    + rewrite RemoveNoise_apply_prefix. apply Hone; [done|].
      destruct (flag type fp); done.
    + apply lookup_ge_None. rewrite RemoveNoise_apply_length.
      by apply lookup_ge_None.
Qed.

(** A run of more than [minLength] frames with the same flag stays as it
    is through every iteration of the pass. *)
Lemma RemoveNoise_prefix_long_run
    (type : SubtitleType) (minPositiveLength minNegativeLength : Z)
    (fpir : FPIR) (a len : nat) (v : bool) :
  (forall j, (a <= j < a + len)%nat ->
     exists framePoint, fpir !! j = Some framePoint /\ flag type framePoint = v) ->
  (if v then minPositiveLength else minNegativeLength) < Z.of_nat len ->
  forall k j, (a <= j < a + len)%nat ->
    RemoveNoise_prefix type minPositiveLength minNegativeLength fpir k !! j
    = fpir !! j.
Proof.
  intros Hrun Hlen.
  set (m := if v then minPositiveLength else minNegativeLength) in *.
  induction k as [|k IH]; intros j Hj; [done|].
  rewrite RemoveNoise_prefix_S.
  destruct (decide (k = j)) as [->|Hne];
    [|rewrite RemoveNoise_body_other by done; by apply IH].
  destruct (Hrun j Hj) as (fp & Hfp & Hv).
  set (s := RemoveNoise_prefix type minPositiveLength minNegativeLength fpir j)
    in *.
  assert (Hs : s !! j = Some fp) by (by rewrite IH).
  assert (Hflags : forall i : Z, Z.of_nat a <= i < Z.of_nat (a + len) ->
            flag_at type s i = v).
  { intros i Hi. destruct (Hrun (Z.to_nat i)) as (fpi & Hfpi & Hvi); [lia|].
    unfold flag_at. rewrite IH by lia. by rewrite Hfpi. }
  destruct (RemoveNoise_body_cases type minPositiveLength minNegativeLength
              s j fp Hs) as [[_ ->]|(Hl & Hr & Hc & _)]; [by rewrite Hs|].
  exfalso. rewrite Hv in *. fold m in Hl, Hr, Hc.
  pose proof (backward_count_bounds type s v (Z.of_nat j) m).
  pose proof (forward_count_bounds type s v (Z.of_nat j) m).
  assert (Z.min m (Z.of_nat j - Z.of_nat a)
          <= backward_count type s v (Z.of_nat j) m).
  { apply backward_count_ge; [lia|]. intros e He. apply Hflags. lia. }
  assert (Z.min m (Z.of_nat a + Z.of_nat len - 1 - Z.of_nat j)
          <= forward_count type s v (Z.of_nat j) m).
  { apply forward_count_ge; [lia|]. intros e He. apply Hflags. lia. }
  lia.
Qed.

(** X3: a run of more than [minLength] frames with the same flag is left
    as it is, wherever it lies in the sequence: every frame of the run
    counts, behind it and ahead of it, at least [minLength] frames of the
    run. *)
Theorem RemoveNoise_keeps_long_run
    (type : SubtitleType) (minPositiveLength minNegativeLength : Z)
    (fpir : FPIR) (a len : nat) (v : bool) :
  (forall j, (a <= j < a + len)%nat ->
     exists framePoint, fpir !! j = Some framePoint /\ flag type framePoint = v) ->
  (if v then minPositiveLength else minNegativeLength) < Z.of_nat len ->
  forall j, (a <= j < a + len)%nat ->
    FPIRPassRemoveNoise_apply type minPositiveLength minNegativeLength fpir !! j
    = fpir !! j.
Proof.
  intros Hrun Hlen j Hj. rewrite RemoveNoise_apply_prefix.
  by apply (RemoveNoise_prefix_long_run type minPositiveLength
              minNegativeLength fpir a len v).
Qed.

Lemma RemoveNoise_keeps_long_run_witness :
  FPIRPassRemoveNoise_apply DIALOG 1 1 scenario1 !! 2%nat = scenario1 !! 2%nat.
Proof.
  apply (RemoveNoise_keeps_long_run DIALOG 1 1 scenario1 2 2 true).
  - intros j Hj. assert (j = 2 \/ j = 3)%nat as [-> | ->] by lia;
      eexists; split; reflexivity.
  - simpl. lia.
  - lia.
Defined.



(** X5: a run of at most [minLength] frames with the same flag [v],
    away from the edges of the sequence, that follows a run of frames
    with the other flag longer than the [minLength] of that flag, and is
    followed by a frame with the other flag, is removed: every frame of
    it is flipped.  The frame before it is kept, so each frame of the run
    counts nothing behind it and fewer than [minLength] frames ahead. *)
Theorem RemoveNoise_removes_short_run
    (type : SubtitleType) (minPositiveLength minNegativeLength : Z)
    (fpir : FPIR) (b a len : nat) (v : bool) :
  Forall wf_FramePoint fpir ->
  (b < a)%nat ->
  (forall j, (b <= j < a)%nat ->
     exists framePoint,
       fpir !! j = Some framePoint /\ flag type framePoint = negb v) ->
  (if negb v then minPositiveLength else minNegativeLength)
    < Z.of_nat a - Z.of_nat b ->
  (forall j, (a <= j < a + len)%nat ->
     exists framePoint, fpir !! j = Some framePoint /\ flag type framePoint = v) ->
  (exists framePoint,
     fpir !! (a + len)%nat = Some framePoint /\ flag type framePoint = negb v) ->
  Z.of_nat len <= (if v then minPositiveLength else minNegativeLength) ->
  0 <= Z.of_nat a - (if v then minPositiveLength else minNegativeLength) ->
  Z.of_nat (a + len) - 1
    + (if v then minPositiveLength else minNegativeLength)
    <= Z.of_nat (length fpir) - 1 ->
  forall j framePoint,
    (a <= j < a + len)%nat -> fpir !! j = Some framePoint ->
    FPIRPassRemoveNoise_apply type minPositiveLength minNegativeLength fpir !! j
    = Some (set_flag type (negb v) framePoint).
Proof.
  intros Hwf Hba Hbefore Hlong Hrun (fpe & Hfpe & Hve) Hlen Hleft Hright.
  set (m := if v then minPositiveLength else minNegativeLength) in *.
  assert (Hkept : forall k j, (b <= j < a)%nat ->
    RemoveNoise_prefix type minPositiveLength minNegativeLength fpir k !! j
    = fpir !! j).
  { intros k j Hj.
    apply (RemoveNoise_prefix_long_run type minPositiveLength
             minNegativeLength fpir b (a - b) (negb v)).
    - intros j' Hj'. apply Hbefore. lia.
    - lia.
    - lia. }
  assert (Hall : forall k j fp, (a <= j < a + len)%nat -> fpir !! j = Some fp ->
    RemoveNoise_prefix type minPositiveLength minNegativeLength fpir k !! j
    = Some (if decide (j < k)%nat then set_flag type (negb v) fp else fp)).
  { induction k as [|k IH]; intros j fp Hj Hfp.
    { by rewrite decide_False by lia. }
    rewrite RemoveNoise_prefix_S.
    destruct (decide (k = j)) as [->|Hne].
    2: { rewrite RemoveNoise_body_other by done. rewrite (IH j fp Hj Hfp).
         destruct (decide (j < k)%nat), (decide (j < S k)%nat); (done || lia). }
    rewrite decide_True by lia.
    set (s := RemoveNoise_prefix type minPositiveLength minNegativeLength
                fpir j) in *.
    assert (Hs : s !! j = Some fp).
    { rewrite (IH j fp Hj Hfp). by rewrite decide_False by lia. }
    destruct (Hrun j Hj) as (fp' & Hfp' & Hv).
    rewrite Hfp in Hfp'. injection Hfp' as <-.
    assert (Hback : flag_at type s (Z.of_nat j - 1) = negb v).
    { destruct (decide (j = a)) as [->|Hja].
      - destruct (Hbefore (pred a)) as (fpb & Hfpb & Hvb); [lia|].
        replace (Z.of_nat a - 1) with (Z.of_nat (pred a)) by lia.
        erewrite flag_at_Some; [exact Hvb|].
        unfold s. rewrite Hkept by lia. exact Hfpb.
      - destruct (Hrun (pred j)) as (fpp & Hfpp & Hvp); [lia|].
        replace (Z.of_nat j - 1) with (Z.of_nat (pred j)) by lia.
        erewrite flag_at_Some;
          [|rewrite (IH (pred j) fpp) by (done || lia);
            rewrite decide_True by lia; reflexivity].
        apply flag_set_flag. by eapply Forall_lookup_1. }
    assert (Hend : flag_at type s (Z.of_nat (a + len)) = negb v).
    { erewrite flag_at_Some; [exact Hve|].
      unfold s. rewrite RemoveNoise_prefix_ge by lia. exact Hfpe. }
    destruct (RemoveNoise_body_cases type minPositiveLength minNegativeLength
                s j fp Hs) as [[Hcase _]|(_ & _ & _ & ->)].
    - exfalso. rewrite Hv in Hcase. fold m in Hcase.
      pose proof (RemoveNoise_prefix_length type minPositiveLength
                    minNegativeLength fpir j) as Hslen.
      fold s in Hslen. rewrite Hslen in Hcase.
      destruct Hcase as [Hcase|[Hcase|Hcase]]; [lia|lia|].
      pose proof (backward_count_bounds type s v (Z.of_nat j) m) as Hbb.
      pose proof (forward_count_bounds type s v (Z.of_nat j) m) as Hfb.
      assert (backward_count type s v (Z.of_nat j) m <= 0) as Hb0.
      { destruct (Z.le_gt_cases (backward_count type s v (Z.of_nat j) m) 0)
          as [|Hpos]; [done|]. exfalso.
        pose proof (backward_count_prefix type s v (Z.of_nat j) m 1) as H1.
        rewrite Hback in H1. specialize (H1 ltac:(lia)). by destruct v. }
      assert (forward_count type s v (Z.of_nat j) m
              < Z.of_nat (a + len) - Z.of_nat j) as Hf0.
      { destruct (Z.lt_ge_cases (forward_count type s v (Z.of_nat j) m)
                    (Z.of_nat (a + len) - Z.of_nat j)) as [|Hbig]; [done|].
        exfalso.
        pose proof (forward_count_prefix type s v (Z.of_nat j) m
                      (Z.of_nat (a + len) - Z.of_nat j)) as H1.
        replace (Z.of_nat j + (Z.of_nat (a + len) - Z.of_nat j))
          with (Z.of_nat (a + len)) in H1 by lia.
        rewrite Hend in H1. specialize (H1 ltac:(lia)). by destruct v. }
      lia.
    - unfold flip. rewrite list_lookup_alter_eq, Hs. simpl. by rewrite Hv. }
  intros j fp Hj Hfp. rewrite RemoveNoise_apply_prefix.
  rewrite (Hall (length fpir) j fp Hj Hfp).
  pose proof (lookup_lt_Some _ _ _ Hfp). by rewrite decide_True by lia.
Qed.

Lemma RemoveNoise_removes_short_run_witness :
  FPIRPassRemoveNoise_apply DIALOG 1 1
    (frames_of [0; 100; 200; 300; 400; 500; 600]
       [false; false; false; true; false; false; false]) !! 3%nat
  = Some (set_flag DIALOG (negb true)
            (mkFramePoint 3 300 [true; false; false; false])).
Proof.
  apply (RemoveNoise_removes_short_run DIALOG 1 1
           (frames_of [0; 100; 200; 300; 400; 500; 600]
              [false; false; false; true; false; false; false])
           0 3 1 true).
  - repeat constructor.
  - lia.
  - intros j Hj. assert (j = 0 \/ j = 1 \/ j = 2)%nat as [-> | [-> | ->]] by lia;
      eexists; split; reflexivity.
  - simpl. lia.
  - intros j Hj. assert (j = 3)%nat as -> by lia. eexists; split; reflexivity.
  - eexists; split; reflexivity.
  - simpl. lia.
  - simpl. lia.
  - simpl. lia.
  - lia.
  - reflexivity.
Defined.

(** * Noise removal: the pass as a function of its channel *)

Section ChannelRemovalFacts.

Variable type : SubtitleType.
Variable minPositiveLength : Z.
Variable minNegativeLength : Z.

Lemma channel_flip (fpir : FPIR) (i : nat) :
  Forall wf_FramePoint fpir ->
  channel type (flip type fpir i) = alter negb i (channel type fpir).
Proof.
  intros Hwf. unfold channel, flip. apply list_fmap_alter.
  eapply Forall_impl; [exact Hwf|]. intros fp Hfp. by apply flag_set_flag.
Qed.

Lemma wf_flip (fpir : FPIR) (i : nat) :
  Forall wf_FramePoint fpir -> Forall wf_FramePoint (flip type fpir i).
Proof.
  intros Hwf. unfold flip. apply Forall_alter; [done|].
  intros fp _ Hfp. by apply wf_set_flag.
Qed.

Lemma channel_noise_visit (fpir : FPIR) (i : nat) :
  Forall wf_FramePoint fpir ->
  channel type
    (noise_visit type minPositiveLength minNegativeLength fpir i)
  = channel_visit minPositiveLength minNegativeLength (channel type fpir) i.
Proof.
  intros Hwf. unfold noise_visit, channel_visit. rewrite length_channel.
  destruct (channel type fpir !! i) as [v|]; [|done].
  repeat case_decide; try done. by apply channel_flip.
Qed.

Lemma wf_noise_visit (fpir : FPIR) (i : nat) :
  Forall wf_FramePoint fpir ->
  Forall wf_FramePoint
    (noise_visit type minPositiveLength minNegativeLength fpir i).
Proof.
  intros Hwf. unfold noise_visit.
  destruct (channel type fpir !! i) as [v|]; [|done].
  repeat case_decide; try done. by apply wf_flip.
Qed.

Lemma channel_noise_fold (ids : list nat) (fpir : FPIR) :
  Forall wf_FramePoint fpir ->
  channel type
    (fold_left (noise_visit type minPositiveLength minNegativeLength) ids fpir)
  = fold_left (channel_visit minPositiveLength minNegativeLength) ids
      (channel type fpir).
Proof.
  revert fpir. induction ids as [|id ids IH]; intros fpir Hwf; simpl; [done|].
  rewrite IH by (by apply wf_noise_visit). by rewrite channel_noise_visit.
Qed.

Lemma RemoveNoise_apply_channel (fpir : FPIR) :
  Forall wf_FramePoint fpir ->
  channel type
    (FPIRPassRemoveNoise_apply type minPositiveLength minNegativeLength fpir)
  = channel_removal minPositiveLength minNegativeLength (channel type fpir).
Proof.
  intros Hwf. unfold FPIRPassRemoveNoise_apply, channel_removal.
  rewrite length_channel. rewrite <- channel_noise_fold by done. f_equal.
  generalize (seq 0 (length fpir)). intros ids. generalize fpir.
  induction ids as [|id ids IH]; intros s; simpl; [done|].
  by rewrite RemoveNoise_body_visit, IH.
Qed.

(** Frame by frame, the output of a pass is its input with the flag of
    [type] stored again. *)
Lemma RemoveNoise_apply_lookup (fpir : FPIR) (i : nat) (fp : FramePoint) :
  Forall wf_FramePoint fpir -> fpir !! i = Some fp ->
  exists fp',
    FPIRPassRemoveNoise_apply type minPositiveLength minNegativeLength fpir !! i
    = Some fp'
    /\ fp' = set_flag type (flag type fp') fp.
Proof.
  intros Hwf Hfp.
  pose proof (RemoveNoise_apply_same_but_flag type minPositiveLength
                minNegativeLength fpir) as H.
  destruct (Forall2_lookup_l _ _ _ _ _ H Hfp) as (fp' & Hfp' & Hsame).
  exists fp'. split; [done|]. apply same_but_flag_set; [|done].
  by eapply Forall_lookup_1.
Qed.

End ChannelRemovalFacts.

(** X6: on frame points that hold a flag for every subtitle type, the
    flags a pass leaves in its channel are a function of the flags it
    found there and of the two lengths: timestamps, indices and the other
    channels play no part. *)
Theorem RemoveNoise_channel_function
    (type : SubtitleType) (minPositiveLength minNegativeLength : Z)
    (fpir : FPIR) :
  Forall wf_FramePoint fpir ->
  channel type
    (FPIRPassRemoveNoise_apply type minPositiveLength minNegativeLength fpir)
  = channel_removal minPositiveLength minNegativeLength (channel type fpir).
Proof.
  apply RemoveNoise_apply_channel.
Qed.

Lemma RemoveNoise_channel_function_witness :
  channel DIALOG (FPIRPassRemoveNoise_apply DIALOG 1 1 scenario1)
  = channel_removal 1 1 (channel DIALOG scenario1).
Proof.
  apply (RemoveNoise_channel_function DIALOG 1 1 scenario1).
  repeat constructor.
Defined.

Lemma set_flag_comm (t1 t2 : SubtitleType) (b1 b2 : bool) (fp : FramePoint) :
  t1 <> t2 ->
  set_flag t1 b1 (set_flag t2 b2 fp) = set_flag t2 b2 (set_flag t1 b1 fp).
Proof.
  intros Hne. unfold set_flag. simpl. f_equal.
  apply list_insert_insert_ne. intros Heq.
  by apply Hne, SubtitleType_value_inj.
Qed.

(** X7: noise-removal passes for two different channels commute: the order
    in which [main] runs its four passes does not matter. *)
Theorem RemoveNoise_commute
    (t1 t2 : SubtitleType) (p1 n1 p2 n2 : Z) (fpir : FPIR) :
  t1 <> t2 ->
  Forall wf_FramePoint fpir ->
  FPIRPassRemoveNoise_apply t1 p1 n1 (FPIRPassRemoveNoise_apply t2 p2 n2 fpir)
  = FPIRPassRemoveNoise_apply t2 p2 n2 (FPIRPassRemoveNoise_apply t1 p1 n1 fpir).
Proof.
  intros Hne Hwf.
  set (y1 := FPIRPassRemoveNoise_apply t1 p1 n1 fpir).
  set (y2 := FPIRPassRemoveNoise_apply t2 p2 n2 fpir).
  assert (Hwf1 : Forall wf_FramePoint y1) by (by apply RemoveNoise_apply_wf).
  assert (Hwf2 : Forall wf_FramePoint y2) by (by apply RemoveNoise_apply_wf).
  assert (Hc1 : channel t1 (FPIRPassRemoveNoise_apply t1 p1 n1 y2)
                = channel t1 y1).
  { unfold y1. rewrite (RemoveNoise_apply_channel t1 p1 n1 y2 Hwf2),
      (RemoveNoise_apply_channel t1 p1 n1 fpir Hwf). f_equal.
    by apply RemoveNoise_apply_other_channel. }
  assert (Hc2 : channel t2 (FPIRPassRemoveNoise_apply t2 p2 n2 y1)
                = channel t2 y2).
  { unfold y2. rewrite (RemoveNoise_apply_channel t2 p2 n2 y1 Hwf1),
      (RemoveNoise_apply_channel t2 p2 n2 fpir Hwf). f_equal.
    by apply RemoveNoise_apply_other_channel. }
  apply list_eq. intros i.
  destruct (fpir !! i) as [fp|] eqn:Hfp.
  - destruct (RemoveNoise_apply_lookup t1 p1 n1 fpir i fp Hwf Hfp)
      as (fp1 & Hfp1 & E1).
    destruct (RemoveNoise_apply_lookup t2 p2 n2 fpir i fp Hwf Hfp)
      as (fp2 & Hfp2 & E2).
    fold y1 in Hfp1. fold y2 in Hfp2.
    destruct (RemoveNoise_apply_lookup t1 p1 n1 y2 i fp2 Hwf2 Hfp2)
      as (q & Hq & Eq).
    destruct (RemoveNoise_apply_lookup t2 p2 n2 y1 i fp1 Hwf1 Hfp1)
      as (r & Hr & Er).
    rewrite Hq, Hr. f_equal.
    assert (flag t1 q = flag t1 fp1) as Hq1.
    { apply (f_equal (fun l => l !! i)) in Hc1. unfold channel in Hc1.
      rewrite !list_lookup_fmap, Hq, Hfp1 in Hc1. by injection Hc1. }
    assert (flag t2 r = flag t2 fp2) as Hr2.
    { apply (f_equal (fun l => l !! i)) in Hc2. unfold channel in Hc2.
      rewrite !list_lookup_fmap, Hr, Hfp2 in Hc2. by injection Hc2. }
    rewrite Eq, Er, Hq1, Hr2.
    remember (flag t1 fp1) as b1 eqn:Hb1. remember (flag t2 fp2) as b2 eqn:Hb2.
    clear Hb1 Hb2. rewrite E1, E2. by apply set_flag_comm.
  - apply lookup_ge_None in Hfp.
    subst y1 y2. transitivity (@None FramePoint); [|symmetry];
      apply lookup_ge_None; by rewrite !RemoveNoise_apply_length.
Qed.

Lemma RemoveNoise_commute_witness :
  FPIRPassRemoveNoise_apply DIALOG 1 1
    (FPIRPassRemoveNoise_apply BLACKSCREEN 10 2 scenario1)
  = FPIRPassRemoveNoise_apply BLACKSCREEN 10 2
      (FPIRPassRemoveNoise_apply DIALOG 1 1 scenario1).
Proof.
  apply (RemoveNoise_commute DIALOG BLACKSCREEN 1 1 10 2 scenario1).
  - discriminate.
  - repeat constructor.
Defined.

(** * Interval building: when it returns, and what it emits *)

Lemma getFramePointsWithVirtualEnd_nonempty (fpir : FPIR) :
  fpir <> [] ->
  exists lastFramePoint,
    last fpir = Some lastFramePoint
    /\ getFramePointsWithVirtualEnd fpir
       = Ok (fpir ++ [mkFramePoint (Z.of_nat (length fpir))
                        (timestamp lastFramePoint)
                        [false; false; false; false]]).
Proof.
  intros Hne. destruct (proj2 (last_is_Some fpir) Hne) as [fp Hfp].
  exists fp. split; [done|]. unfold getFramePointsWithVirtualEnd.
  by rewrite (genVirtualEnd_nonempty fpir fp Hfp).
Qed.

Lemma BuildIntervals_apply_nonempty (type : SubtitleType) (fpir : FPIR) :
  fpir <> [] -> exists ivs, FPIRPassBuildIntervals_apply type fpir = Ok ivs.
Proof.
  intros Hne.
  destruct (getFramePointsWithVirtualEnd_nonempty fpir Hne) as (fp & _ & H).
  unfold FPIRPassBuildIntervals_apply. rewrite H. simpl. by eexists.
Qed.

Lemma IIR_init_nonempty (fpir : FPIR) :
  fpir <> [] -> exists iir, IIR_init fpir = Ok iir.
Proof.
  intros Hne. unfold IIR_init, SubtitleType_members. cbn [IIR_collect].
  destruct (BuildIntervals_apply_nonempty DIALOG fpir Hne) as [d ->].
  destruct (BuildIntervals_apply_nonempty BLACKSCREEN fpir Hne) as [b ->].
  destruct (BuildIntervals_apply_nonempty WHITESCREEN fpir Hne) as [w ->].
  destruct (BuildIntervals_apply_nonempty CGSUB fpir Hne) as [c ->].
  simpl. by eexists.
Qed.

(** X8: the virtual end, the interval-build pass and the construction of
    the IIR return a result exactly when the frame sequence is not
    empty. *)
Theorem BuildIntervals_returns_iff_nonempty
    (type : SubtitleType) (fpir : FPIR) :
  ((exists virtualEnd, genVirtualEnd fpir = Ok virtualEnd) <-> fpir <> [])
  /\ ((exists ivs, FPIRPassBuildIntervals_apply type fpir = Ok ivs)
      <-> fpir <> [])
  /\ ((exists iir, IIR_init fpir = Ok iir) <-> fpir <> []).
Proof.
  split; [|split]; split.
  - intros [ve H] ->. discriminate.
  - intros Hne. destruct (proj2 (last_is_Some fpir) Hne) as [fp Hfp].
    rewrite (genVirtualEnd_nonempty fpir fp Hfp). by eexists.
  - intros [ivs H] ->. discriminate.
  - apply BuildIntervals_apply_nonempty.
  - intros [iir H] ->. discriminate.
  - apply IIR_init_nonempty.
Qed.

Section BuildRuns.

Variable type : SubtitleType.

Lemma maximal_run_app (seen more : list FramePoint) (I : Interval)
    (i j : nat) :
  maximal_run type seen I i j -> maximal_run type (seen ++ more) I i j.
Proof.
  intros (fpi & fpj & Hi & Hj & HI & Hij & Hon & Hoff & Hprev).
  pose proof (lookup_lt_Some _ _ _ Hj) as Hlen.
  exists fpi, fpj. repeat split; try done.
  - by apply lookup_app_l_Some.
  - by apply lookup_app_l_Some.
  - intros k fp Hk Hfp. rewrite lookup_app_l in Hfp by lia. by eapply Hon.
  - intros fp Hi0 Hfp. rewrite lookup_app_l in Hfp by lia. by eapply Hprev.
Qed.

Lemma runs_inv_step (st : BuildState) (seen : list FramePoint)
    (fp : FramePoint) :
  runs_inv type st seen ->
  runs_inv type (BuildIntervals_body type st fp) (seen ++ [fp]).
Proof.
  intros (HA & HB & HC & HD).
  assert (Hnew : (seen ++ [fp]) !! length seen = Some fp).
  { by rewrite lookup_app_r, Nat.sub_diag by lia. }
  assert (Hold : forall k x, (seen ++ [fp]) !! k = Some x ->
            (k < length seen)%nat /\ seen !! k = Some x
            \/ k = length seen /\ x = fp).
  { intros k x Hk. destruct (decide (k < length seen)%nat) as [Hlt|Hge].
    - left. by rewrite lookup_app_l in Hk.
    - right. pose proof (lookup_lt_Some _ _ _ Hk) as Hb.
      rewrite length_app in Hb. simpl in Hb.
      assert (k = length seen) as -> by lia. split; [done|]. congruence. }
  assert (Hlast : forall x, length seen <> 0%nat ->
            (seen ++ [fp]) !! pred (length seen) = Some x ->
            last seen = Some x).
  { intros x Hlen Hx. rewrite lookup_app_l in Hx by lia.
    by rewrite last_lookup. }
  unfold BuildIntervals_body.
  destruct (state st) eqn:Hst, (flag type fp) eqn:Hf; simpl.
  - (* a run is open and goes on *)
    destruct (HC eq_refl) as (i & fpi & Hi & Hb & Hon & Hprev).
    pose proof (lookup_lt_Some _ _ _ Hi) as Hilen.
    assert (Hopen : forall i', open_run type seen (lastBegin st) i' ->
              open_run type (seen ++ [fp]) (lastBegin st) i').
    { intros i' (fpi' & Hi' & Hb' & Hon' & Hprev').
      pose proof (lookup_lt_Some _ _ _ Hi') as Hilen'.
      exists fpi'. repeat split; try done.
      - by apply lookup_app_l_Some.
      - intros k x Hk Hx. destruct (Hold k x Hx) as [[_ Hx']|[_ ->]];
          [by eapply Hon'|done].
      - intros x Hi0 Hx. rewrite lookup_app_l in Hx by lia. by eapply Hprev'. }
    repeat split.
    + intros I HI. destruct (HA I HI) as (i' & j' & Hrun).
      exists i', j'. by apply maximal_run_app.
    + intros k x Hx Hxon.
      destruct (Hold k x Hx) as [[_ Hx']|[-> _]].
      * destruct (HB k x Hx' Hxon)
          as [(I & i' & j' & HI & Hrun & Hk)|(_ & i' & Hopen' & Hk)].
        -- left. exists I, i', j'. split; [done|].
           split; [by apply maximal_run_app|done].
        -- right. split; [done|]. exists i'. split; [by apply Hopen|done].
      * right. split; [done|]. exists i. split; [|lia].
        apply Hopen. by exists fpi.
    + intros _. exists i. apply Hopen. by exists fpi.
    + simpl; intros; congruence.
  - (* the open run is closed by [fp] *)
    destruct (HC eq_refl) as (i & fpi & Hi & Hb & Hon & Hprev).
    pose proof (lookup_lt_Some _ _ _ Hi) as Hilen.
    assert (Hrun : maximal_run type (seen ++ [fp])
              (mkInterval (lastBegin st) (timestamp fp) type)
              i (length seen)).
    { exists fpi, fp. repeat split; try done.
      - by apply lookup_app_l_Some.
      - by rewrite Hb.
      - intros k x Hk Hx. rewrite lookup_app_l in Hx by lia.
        eapply Hon; [|done]. lia.
      - intros x Hi0 Hx. rewrite lookup_app_l in Hx by lia. by eapply Hprev. }
    repeat split.
    + intros I HI. apply elem_of_app in HI as [HI|HI].
      * destruct (HA I HI) as (i' & j' & Hrun').
        exists i', j'. by apply maximal_run_app.
      * apply list_elem_of_singleton in HI as ->. by exists i, (length seen).
    + intros k x Hx Hxon. left.
      destruct (Hold k x Hx) as [[Hklen Hx']|[_ ->]]; [|congruence].
      destruct (HB k x Hx' Hxon)
        as [(I & i' & j' & HI & Hrun' & Hk)|(_ & i' & Hopen' & Hk)].
      * exists I, i', j'. split; [apply elem_of_app; by left|].
        split; [by apply maximal_run_app|done].
      * exists (mkInterval (lastBegin st) (timestamp fp) type), i',
          (length seen).
        split; [apply elem_of_app; right; by apply list_elem_of_singleton|].
        split; [|lia].
        destruct Hopen' as (fpi' & Hi' & Hb' & Hon' & Hprev').
        exists fpi', fp. repeat split; try done.
        -- by apply lookup_app_l_Some.
        -- by rewrite Hb'.
        -- lia.
        -- intros k' x' Hk' Hx''. rewrite lookup_app_l in Hx'' by lia.
           eapply Hon'; [|done]. lia.
        -- intros x' Hi0 Hx''. rewrite lookup_app_l in Hx'' by lia.
           by eapply Hprev'.
    + simpl; intros; congruence.
    + intros _ x Hx. rewrite last_snoc in Hx. congruence.
  - (* [fp] opens a run *)
    assert (Hopen : open_run type (seen ++ [fp]) (timestamp fp) (length seen)).
    { exists fp. repeat split; try done.
      - intros k x Hk Hx. destruct (Hold k x Hx) as [[Hlt _]|[_ ->]];
          [lia|done].
      - intros x Hlen Hx. apply (HD eq_refl). by apply Hlast. }
    repeat split.
    + intros I HI. destruct (HA I HI) as (i' & j' & Hrun).
      exists i', j'. by apply maximal_run_app.
    + intros k x Hx Hxon.
      destruct (Hold k x Hx) as [[Hklen Hx']|[-> _]].
      * left. destruct (HB k x Hx' Hxon)
          as [(I & i' & j' & HI & Hrun' & Hk)|(Habs & _)]; [|congruence].
        exists I, i', j'. split; [done|].
        split; [by apply maximal_run_app|done].
      * right. split; [done|]. by exists (length seen).
    + intros _. by exists (length seen).
    + simpl; intros; congruence.
  - (* no run is open and none begins *)
    repeat split.
    + intros I HI. destruct (HA I HI) as (i' & j' & Hrun).
      exists i', j'. by apply maximal_run_app.
    + intros k x Hx Hxon. left.
      destruct (Hold k x Hx) as [[Hklen Hx']|[_ ->]]; [|congruence].
      destruct (HB k x Hx' Hxon)
        as [(I & i' & j' & HI & Hrun' & Hk)|(Habs & _)]; [|congruence].
      exists I, i', j'. split; [done|].
      split; [by apply maximal_run_app|done].
    + simpl; intros; congruence.
    + intros _ x Hx. rewrite last_snoc in Hx. congruence.
Qed.

Lemma runs_inv_fold (rest seen : list FramePoint) (st : BuildState) :
  runs_inv type st seen ->
  runs_inv type (fold_left (BuildIntervals_body type) rest st) (seen ++ rest).
Proof.
  revert seen st. induction rest as [|fp rest IH]; intros seen st Hinv.
  - by rewrite app_nil_r.
  - simpl. rewrite cons_middle, app_assoc. apply IH. by apply runs_inv_step.
Qed.

Lemma runs_inv_init : runs_inv type (mkBuildState [] 0 false) [].
Proof.
  repeat split; simpl; try done.
  intros I HI. by apply elem_of_nil in HI.
Qed.

End BuildRuns.

Section BuildRunsFacts.

Variable type : SubtitleType.

Lemma BuildIntervals_apply_runs (fpir : FPIR) (fps : list FramePoint)
    (ivs : list Interval) :
  getFramePointsWithVirtualEnd fpir = Ok fps ->
  FPIRPassBuildIntervals_apply type fpir = Ok ivs ->
  (forall I, I ∈ ivs -> exists i j, maximal_run type fps I i j)
  /\ (forall k fp, fps !! k = Some fp -> flag type fp = true ->
        exists I i j,
          I ∈ ivs /\ maximal_run type fps I i j /\ (i <= k < j)%nat).
Proof.
  intros Hfps. unfold FPIRPassBuildIntervals_apply. rewrite Hfps. simpl.
  intros [= <-].
  pose proof (runs_inv_fold type fps [] _ (runs_inv_init type))
    as (HA & HB & _ & _).
  simpl in HA, HB. split; [done|]. intros k fp Hk Hon.
  destruct (HB k fp Hk Hon) as [H|[Hst _]]; [done|]. exfalso.
  unfold getFramePointsWithVirtualEnd, genVirtualEnd in Hfps.
  destruct (last fpir) as [lastFramePoint|]; [|done].
  simpl in Hfps. injection Hfps as <-.
  rewrite BuildIntervals_state_last, flag_virtualEnd in Hst. discriminate.
Qed.

(** The timestamps of the frames with the virtual end, when those of the
    frames increase strictly: they increase strictly up to the last
    frame, and the virtual end repeats the timestamp of the last frame. *)
Lemma virtualEnd_timestamps (fpir : FPIR) (fps : list FramePoint)
    (a b : nat) (x y : FramePoint) :
  timestamps_increasing fpir ->
  getFramePointsWithVirtualEnd fpir = Ok fps ->
  fps !! a = Some x -> fps !! b = Some y -> (a < b)%nat ->
  timestamp x <= timestamp y
  /\ ((S a < length fpir)%nat -> timestamp x < timestamp y)
  /\ ((b < length fpir)%nat -> timestamp x < timestamp y)
  /\ ((S a = length fpir)%nat -> timestamp x = timestamp y).
Proof.
  unfold timestamps_increasing. intros Hts Hfps Ha Hb Hab.
  unfold getFramePointsWithVirtualEnd, genVirtualEnd in Hfps.
  destruct (last fpir) as [lastFramePoint|] eqn:Hlast; [|done].
  simpl in Hfps. injection Hfps as <-.
  pose proof (lookup_lt_Some _ _ _ Hb) as Hblen.
  rewrite length_app in Hblen. simpl in Hblen.
  rewrite last_lookup in Hlast.
  rewrite lookup_app_l in Ha by lia.
  destruct (decide (b < length fpir)%nat) as [Hlt|Hge].
  - rewrite lookup_app_l in Hb by lia.
    pose proof (StronglySorted_lookup _ _ _ _ _ _ Hts Hab Ha Hb) as H.
    simpl in H. repeat split; intros; lia.
  - assert (b = length fpir) as -> by lia.
    rewrite lookup_app_r, Nat.sub_diag in Hb by lia. injection Hb as <-.
    simpl. destruct (decide (S a < length fpir)%nat) as [Hlt|Hge'].
    + assert (a < pred (length fpir))%nat as Hal by lia.
      pose proof (StronglySorted_lookup _ _ _ _ _ _ Hts Hal Ha Hlast) as H.
      simpl in H. repeat split; intros; lia.
    + assert (a = pred (length fpir)) as -> by lia.
      rewrite Ha in Hlast. injection Hlast as ->.
      repeat split; intros; lia.
Qed.

End BuildRunsFacts.

(** X9: the intervals the build pass emits are the maximal runs of frames
    whose flag is on, read over the frames with the virtual end: each
    interval goes from the timestamp of the first frame of a run to the
    timestamp of the frame that closes it, and every frame whose flag is
    on lies in the run of an emitted interval. *)
Theorem BuildIntervals_maximal_runs
    (type : SubtitleType) (fpir : FPIR) (fps : list FramePoint)
    (ivs : list Interval) :
  getFramePointsWithVirtualEnd fpir = Ok fps ->
  FPIRPassBuildIntervals_apply type fpir = Ok ivs ->
  (forall I, I ∈ ivs -> exists i j, maximal_run type fps I i j)
  /\ (forall k framePoint,
        fps !! k = Some framePoint -> flag type framePoint = true ->
        exists I i j,
          I ∈ ivs /\ maximal_run type fps I i j /\ (i <= k < j)%nat).
Proof. apply BuildIntervals_apply_runs. Qed.

Lemma BuildIntervals_maximal_runs_witness :
  (forall I, I ∈ [mkInterval 0 100 DIALOG; mkInterval 200 400 DIALOG] ->
     exists i j,
       maximal_run DIALOG
         (scenario1 ++ [mkFramePoint 5 400 [false; false; false; false]])
         I i j)
  /\ (forall k framePoint,
        (scenario1 ++ [mkFramePoint 5 400 [false; false; false; false]]) !! k
        = Some framePoint ->
        flag DIALOG framePoint = true ->
        exists I i j,
          I ∈ [mkInterval 0 100 DIALOG; mkInterval 200 400 DIALOG]
          /\ maximal_run DIALOG
               (scenario1
                  ++ [mkFramePoint 5 400 [false; false; false; false]])
               I i j
          /\ (i <= k < j)%nat).
Proof.
  apply (BuildIntervals_maximal_runs DIALOG scenario1); reflexivity.
Defined.

(** X10: with strictly increasing timestamps the emitted intervals cover
    the timestamps of exactly the frames whose flag is on, the last frame
    apart: its timestamp is the end of the collection and lies in no
    interval, whatever its flag. *)
Theorem BuildIntervals_covers
    (type : SubtitleType) (fpir : FPIR) (ivs : list Interval)
    (k : nat) (framePoint : FramePoint) :
  timestamps_increasing fpir ->
  FPIRPassBuildIntervals_apply type fpir = Ok ivs ->
  fpir !! k = Some framePoint ->
  ((S k < length fpir)%nat ->
   (flag type framePoint = true
    <-> exists I, I ∈ ivs /\ covers I (timestamp framePoint)))
  /\ ((S k = length fpir)%nat ->
      ~ exists I, I ∈ ivs /\ covers I (timestamp framePoint)).
Proof.
  intros Hts Hivs Hk.
  pose proof (lookup_lt_Some _ _ _ Hk) as Hklen.
  assert (Hne : fpir <> []) by (intros ->; done).
  destruct (getFramePointsWithVirtualEnd_nonempty fpir Hne)
    as (lastFramePoint & Hlast & Hfps).
  set (fps := fpir ++ _) in Hfps.
  destruct (BuildIntervals_apply_runs type fpir fps ivs Hfps Hivs)
    as [Hsound Hcomplete].
  assert (Hk' : fps !! k = Some framePoint) by (by apply lookup_app_l_Some).
  assert (Hin : forall I i j, maximal_run type fps I i j ->
            covers I (timestamp framePoint) ->
            (i <= k < j)%nat /\ (S k < length fpir)%nat).
  { intros I i j (fpi & fpj & Hi & Hj & -> & Hij & Hon & Hoff & _) [Hb He].
    simpl in Hb, He.
    assert (i <= k)%nat as Hik.
    { destruct (decide (i <= k)%nat) as [|Hgt]; [done|]. exfalso.
      assert (k < i)%nat as Hlt by lia.
      destruct (virtualEnd_timestamps fpir fps k i framePoint fpi Hts Hfps
                  Hk' Hi Hlt) as (H1 & H2 & H3 & H4).
      pose proof (lookup_lt_Some _ _ _ Hi) as Hilen.
      pose proof (lookup_lt_Some _ _ _ Hj) as Hjlen.
      unfold fps in Hilen, Hjlen. rewrite length_app in Hilen, Hjlen.
      simpl in Hilen, Hjlen. assert (i < length fpir)%nat as Hi' by lia.
      specialize (H3 Hi'). lia. }
    assert (k < j)%nat as Hkj.
    { destruct (decide (k < j)%nat) as [|Hge]; [done|]. exfalso.
      destruct (decide (j = k)) as [->|Hjk].
      - rewrite Hk' in Hj. injection Hj as <-. lia.
      - assert (j < k)%nat as Hlt by lia.
        destruct (virtualEnd_timestamps fpir fps j k fpj framePoint Hts Hfps
                    Hj Hk' Hlt) as (H1 & _). lia. }
    split; [done|].
    destruct (decide (S k < length fpir)%nat) as [|Hge]; [done|]. exfalso.
    assert (S k = length fpir) as Hlastk by lia.
    destruct (virtualEnd_timestamps fpir fps k j framePoint fpj Hts Hfps
                Hk' Hj Hkj) as (_ & _ & _ & H4).
    specialize (H4 Hlastk). lia. }
  split.
  - intros Hlt. split.
    + intros Hflag.
      destruct (Hcomplete k framePoint Hk' Hflag)
        as (I & i & j & HI & Hrun & Hikj).
      exists I. split; [done|].
      destruct Hrun as (fpi & fpj & Hi & Hj & -> & Hij & Hon & Hoff & _).
      unfold covers. simpl. split.
      * destruct (decide (i = k)) as [->|Hne'].
        -- rewrite Hk' in Hi. injection Hi as <-. lia.
        -- assert (i < k)%nat as Hik by lia.
           destruct (virtualEnd_timestamps fpir fps i k fpi framePoint Hts
                       Hfps Hi Hk' Hik) as (H1 & _). lia.
      * assert (k < j)%nat as Hkj by lia.
        destruct (virtualEnd_timestamps fpir fps k j framePoint fpj Hts
                    Hfps Hk' Hj Hkj) as (_ & H2 & _). by apply H2.
    + intros (I & HI & Hcov). destruct (Hsound I HI) as (i & j & Hrun).
      destruct (Hin I i j Hrun Hcov) as [Hikj _].
      destruct Hrun as (fpi & fpj & Hi & Hj & _ & Hij & Hon & _).
      by apply (Hon k framePoint).
  - intros Heq (I & HI & Hcov). destruct (Hsound I HI) as (i & j & Hrun).
    destruct (Hin I i j Hrun Hcov) as [_ Hlt]. lia.
Qed.

Lemma BuildIntervals_covers_witness :
  ((S 2 < length scenario1)%nat ->
   (flag DIALOG (mkFramePoint 2 200 [true; false; false; false]) = true
    <-> exists I,
          I ∈ [mkInterval 0 100 DIALOG; mkInterval 200 400 DIALOG]
          /\ covers I
               (timestamp (mkFramePoint 2 200 [true; false; false; false]))))
  /\ ((S 2 = length scenario1)%nat ->
      ~ exists I,
          I ∈ [mkInterval 0 100 DIALOG; mkInterval 200 400 DIALOG]
          /\ covers I
               (timestamp (mkFramePoint 2 200 [true; false; false; false]))).
Proof.
  apply (BuildIntervals_covers DIALOG scenario1
           [mkInterval 0 100 DIALOG; mkInterval 200 400 DIALOG] 2).
  - unfold timestamps_increasing, scenario1, frames_of. simpl.
    repeat constructor; simpl; lia.
  - reflexivity.
  - reflexivity.
Defined.

(** X11: on a sequence that is not empty, no flag on gives no interval,
    and every flag on gives the one interval from the first timestamp to
    the last. *)
Theorem BuildIntervals_uniform
    (type : SubtitleType) (first : FramePoint) (rest : list FramePoint) :
  let fpir := first :: rest in
  (Forall (fun fp => flag type fp = false) fpir ->
   FPIRPassBuildIntervals_apply type fpir = Ok [])
  /\ (Forall (fun fp => flag type fp = true) fpir ->
      exists lastFramePoint,
        last fpir = Some lastFramePoint
        /\ FPIRPassBuildIntervals_apply type fpir
           = Ok [mkInterval (timestamp first) (timestamp lastFramePoint) type]).
Proof.
  intros fpir. subst fpir.
  destruct (getFramePointsWithVirtualEnd_nonempty (first :: rest))
    as (lastFramePoint & Hlast & Hfps); [discriminate|].
  unfold FPIRPassBuildIntervals_apply. rewrite Hfps. cbn [bind]. split.
  - intros Hoff. rewrite fold_left_app.
    assert (Hfold : forall fps st, state st = false ->
              Forall (fun fp => flag type fp = false) fps ->
              fold_left (BuildIntervals_body type) fps st = st).
    { intros fps st Hst H. induction H as [|fp fps Hfp _ IH]; [done|].
      simpl. unfold BuildIntervals_body at 2. by rewrite Hst, Hfp. }
    rewrite (Hfold (first :: rest)) by done. simpl. unfold BuildIntervals_body. simpl.
    by rewrite flag_virtualEnd.
  - intros Hon. exists lastFramePoint. split; [done|].
    rewrite fold_left_app.
    rewrite (BuildIntervals_run type first rest) by done.
    simpl. unfold BuildIntervals_body. simpl. by rewrite flag_virtualEnd.
Qed.

(** * The interval collection: sorting and construction *)

Lemma insert_by_begin_filter_begin (b : Z) (x : Interval) (l : list Interval) :
  filter (fun I => ibegin I = b) (insert_by_begin x l)
  = filter (fun I => ibegin I = b) (x :: l).
Proof.
  induction l as [|y l IH]; simpl; [done|].
  destruct (Z.leb_spec (ibegin x) (ibegin y)) as [Hle|Hgt]; [done|].
  destruct (decide (ibegin x = b)) as [Hx|Hx].
  - rewrite (filter_cons_False _ y) by lia.
    rewrite IH. rewrite (filter_cons_True _ x) by done.
    rewrite (filter_cons_True _ x) by done.
    by rewrite (filter_cons_False _ y) by lia.
  - rewrite (filter_cons_False _ x (y :: l)) by done.
    destruct (decide (ibegin y = b)) as [Hy|Hy].
    + rewrite !(filter_cons_True _ y) by done. rewrite IH.
      by rewrite (filter_cons_False _ x) by done.
    + rewrite !(filter_cons_False _ y) by done. rewrite IH.
      by rewrite (filter_cons_False _ x) by done.
Qed.

Lemma IIR_sort_filter_begin (b : Z) (iir : IIR) :
  filter (fun I => ibegin I = b) (IIR_sort iir)
  = filter (fun I => ibegin I = b) iir.
Proof.
  induction iir as [|x l IH]; [done|]. simpl.
  rewrite insert_by_begin_filter_begin.
  destruct (decide (ibegin x = b)) as [Hx|Hx].
  - rewrite !(filter_cons_True _ x) by done. by rewrite IH.
  - rewrite !(filter_cons_False _ x) by done. by rewrite IH.
Qed.

(** X12: [IIR.sort] is the stable sort by [begin]: its result is in the
    order of the begins, holds the same intervals, keeps the intervals of
    equal begin in the order they had, keeps the intervals of a channel
    that were in order as they were, and is the collection itself when
    that is in order already. *)
Theorem IIR_sort_stable (iir : IIR) :
  sorted_by_begin (IIR_sort iir)
  /\ IIR_sort iir ≡ₚ iir
  /\ (forall b,
        filter (fun I => ibegin I = b) (IIR_sort iir)
        = filter (fun I => ibegin I = b) iir)
  /\ (forall type,
        sorted_by_begin (of_channel type iir) ->
        of_channel type (IIR_sort iir) = of_channel type iir)
  /\ (sorted_by_begin iir -> IIR_sort iir = iir)
  /\ IIR_sort (IIR_sort iir) = IIR_sort iir.
Proof.
  split; [apply IIR_sort_sorted|]. split; [apply IIR_sort_Permutation|].
  split; [intros b; apply IIR_sort_filter_begin|].
  split; [|split].
  - intros type Hs. rewrite of_channel_IIR_sort. by apply IIR_sort_id.
  - apply IIR_sort_id.
  - apply IIR_sort_id, IIR_sort_sorted.
Qed.

Lemma IIR_init_collect (fpir : FPIR) (iir : IIR) :
  IIR_init fpir = Ok iir ->
  exists d b w c,
    FPIRPassBuildIntervals_apply DIALOG fpir = Ok d
    /\ FPIRPassBuildIntervals_apply BLACKSCREEN fpir = Ok b
    /\ FPIRPassBuildIntervals_apply WHITESCREEN fpir = Ok w
    /\ FPIRPassBuildIntervals_apply CGSUB fpir = Ok c
    /\ iir = IIR_sort (d ++ b ++ w ++ c).
Proof.
  unfold IIR_init, SubtitleType_members. cbn [IIR_collect].
  destruct (FPIRPassBuildIntervals_apply DIALOG fpir) as [d|e]; [|done].
  destruct (FPIRPassBuildIntervals_apply BLACKSCREEN fpir) as [b|e]; [|done].
  destruct (FPIRPassBuildIntervals_apply WHITESCREEN fpir) as [w|e]; [|done].
  destruct (FPIRPassBuildIntervals_apply CGSUB fpir) as [c|e]; [|done].
  simpl. intros [= <-]. exists d, b, w, c. by rewrite <- !app_assoc.
Qed.

Lemma IIR_init_of_channel_sort (type : SubtitleType) (fpir : FPIR) (iir : IIR) :
  IIR_init fpir = Ok iir ->
  exists ivs,
    FPIRPassBuildIntervals_apply type fpir = Ok ivs
    /\ of_channel type iir = IIR_sort ivs.
Proof.
  intros Hinit.
  destruct (IIR_init_collect fpir iir Hinit)
    as (d & b & w & c & Hd & Hb & Hw & Hc & ->).
  pose proof (BuildIntervals_apply_types _ _ _ Hd) as Td.
  pose proof (BuildIntervals_apply_types _ _ _ Hb) as Tb.
  pose proof (BuildIntervals_apply_types _ _ _ Hw) as Tw.
  pose proof (BuildIntervals_apply_types _ _ _ Hc) as Tc.
  rewrite of_channel_IIR_sort. unfold of_channel. rewrite !filter_app.
  fold (of_channel type d) (of_channel type b) (of_channel type w)
    (of_channel type c).
  destruct type.
  - exists d. split; [done|].
    rewrite (of_channel_all DIALOG d), (of_channel_none DIALOG BLACKSCREEN b),
      (of_channel_none DIALOG WHITESCREEN w), (of_channel_none DIALOG CGSUB c)
      by done.
    by rewrite !app_nil_r.
  - exists b. split; [done|].
    rewrite (of_channel_none BLACKSCREEN DIALOG d),
      (of_channel_all BLACKSCREEN b),
      (of_channel_none BLACKSCREEN WHITESCREEN w),
      (of_channel_none BLACKSCREEN CGSUB c) by done.
    by rewrite !app_nil_r.
  - exists w. split; [done|].
    rewrite (of_channel_none WHITESCREEN DIALOG d),
      (of_channel_none WHITESCREEN BLACKSCREEN b),
      (of_channel_all WHITESCREEN w),
      (of_channel_none WHITESCREEN CGSUB c) by done.
    by rewrite !app_nil_r.
  - exists c. split; [done|].
    by rewrite (of_channel_none CGSUB DIALOG d),
      (of_channel_none CGSUB BLACKSCREEN b),
      (of_channel_none CGSUB WHITESCREEN w), (of_channel_all CGSUB c) by done.
Qed.

Lemma IIR_init_sorted (fpir : FPIR) (iir : IIR) :
  IIR_init fpir = Ok iir -> sorted_by_begin iir.
Proof.
  intros Hinit.
  destruct (IIR_init_collect fpir iir Hinit) as (d & b & w & c & _ & _ & _ & _ & ->).
  apply IIR_sort_sorted.
Qed.

Lemma elem_of_of_channel (I : Interval) (iir : IIR) :
  I ∈ iir -> I ∈ of_channel (itype I) iir.
Proof.
  intros HI. unfold of_channel. apply list_elem_of_filter. split; [|done].
  apply SubtitleType_eqb_refl.
Qed.

(** X13: the collection [IIR.__init__] builds is in the order of the
    begins; its intervals of a channel are those the build pass of the
    channel emitted, sorted; every interval of it comes from the build
    pass of its type; and with strictly increasing timestamps its
    intervals of a channel are the output of the build pass, in the order
    the pass emitted them. *)
Theorem IIR_init_channels (fpir : FPIR) (iir : IIR) :
  IIR_init fpir = Ok iir ->
  sorted_by_begin iir
  /\ (forall type, exists ivs,
        FPIRPassBuildIntervals_apply type fpir = Ok ivs
        /\ of_channel type iir = IIR_sort ivs)
  /\ (forall I, I ∈ iir -> exists ivs,
        FPIRPassBuildIntervals_apply (itype I) fpir = Ok ivs /\ I ∈ ivs)
  /\ (timestamps_increasing fpir ->
      forall type,
        FPIRPassBuildIntervals_apply type fpir = Ok (of_channel type iir)).
Proof.
  intros Hinit. split; [by eapply IIR_init_sorted|]. split; [|split].
  - intros type. by apply IIR_init_of_channel_sort.
  - intros I HI.
    destruct (IIR_init_of_channel_sort (itype I) fpir iir Hinit)
      as (ivs & Hivs & Hch).
    exists ivs. split; [done|].
    apply elem_of_of_channel in HI. rewrite Hch in HI.
    by rewrite IIR_sort_Permutation in HI.
  - intros Hts type. by apply IIR_init_of_channel.
Qed.

Lemma IIR_init_channels_witness :
  sorted_by_begin [mkInterval 0 100 DIALOG; mkInterval 200 400 DIALOG]
  /\ (forall type, exists ivs,
        FPIRPassBuildIntervals_apply type scenario1 = Ok ivs
        /\ of_channel type [mkInterval 0 100 DIALOG; mkInterval 200 400 DIALOG]
           = IIR_sort ivs)
  /\ (forall I,
        I ∈ [mkInterval 0 100 DIALOG; mkInterval 200 400 DIALOG] ->
        exists ivs,
          FPIRPassBuildIntervals_apply (itype I) scenario1 = Ok ivs
          /\ I ∈ ivs)
  /\ (timestamps_increasing scenario1 ->
      forall type,
        FPIRPassBuildIntervals_apply type scenario1
        = Ok (of_channel type
                [mkInterval 0 100 DIALOG; mkInterval 200 400 DIALOG])).
Proof.
  apply (IIR_init_channels scenario1). reflexivity.
Defined.

(** * Intervals: intersecting and touching *)

(** X14: [intersects] and [touches] exclude each other; on intervals with
    begin < end both are symmetric, though [dist] is not; an empty
    interval and an interval of the same begin touch when the empty one
    is asked and intersect when the other is asked. *)
Theorem intersects_touches_symmetry (A B : Interval) :
  intersects A B && touches A B = false
  /\ (ibegin A < iend A -> ibegin B < iend B ->
      intersects A B = intersects B A /\ touches A B = touches B A)
  /\ (ibegin A = iend A -> ibegin B = ibegin A -> ibegin B < iend B ->
      touches A B = true /\ intersects A B = false
      /\ touches B A = false /\ intersects B A = true).
Proof.
  unfold intersects, touches. split; [|split].
  - destruct (Z.ltb_spec (dist A B) 0), (Z.eqb_spec (dist A B) 0);
      simpl; (done || lia).
  - intros HA HB.
    destruct (Z.lt_trichotomy (ibegin A) (ibegin B)) as [H|[H|H]].
    + by rewrite (dist_le A B), (dist_gt B A) by lia.
    + rewrite (dist_le A B), (dist_le B A) by lia.
      split.
      * destruct (Z.ltb_spec (ibegin B - iend A) 0),
          (Z.ltb_spec (ibegin A - iend B) 0); (done || lia).
      * destruct (Z.eqb_spec (ibegin B - iend A) 0),
          (Z.eqb_spec (ibegin A - iend B) 0); (done || lia).
    + by rewrite (dist_gt A B), (dist_le B A) by lia.
  - intros HA HBA HB.
    rewrite (dist_le A B), (dist_le B A) by lia.
    destruct (Z.eqb_spec (ibegin B - iend A) 0); [|lia].
    destruct (Z.ltb_spec (ibegin B - iend A) 0); [lia|].
    destruct (Z.eqb_spec (ibegin A - iend B) 0); [lia|].
    destruct (Z.ltb_spec (ibegin A - iend B) 0); [done|lia].
Qed.

(** * Gap bridging: what the sweep leaves alone *)

Section FillFlashBlankFacts.

Variable type : SubtitleType.
Variable maxBlank : Z.

Lemma FillFlashBlank_while_nothing (iir : IIR) (id : nat) (otherIds : list nat) :
  (forall j A B, j ∈ otherIds -> iir !! id = Some A -> iir !! j = Some B ->
     itype B = type -> dist A B <= 0 \/ maxBlank < dist A B) ->
  FillFlashBlank_while type maxBlank iir id otherIds = iir.
Proof.
  induction otherIds as [|j otherIds IH]; intros Hno; [done|]. simpl.
  destruct (iir !! id) as [A|] eqn:HA; [|done].
  destruct (iir !! j) as [B|] eqn:HB; [|done].
  assert (IH' : FillFlashBlank_while type maxBlank iir id otherIds = iir).
  { apply IH. intros j' A' B' Hj'. apply Hno. by apply elem_of_cons; right. }
  destruct (SubtitleType_eqb (itype B) type) eqn:Ht; cbn [negb]; [|done].
  apply SubtitleType_eqb_eq in Ht.
  destruct (Z.gtb_spec (dist A B) maxBlank) as [Hfar|Hnear]; [done|].
  destruct (Z.leb_spec (dist A B) 0) as [Hov|Hgap]; [done|].
  destruct (Hno j A B) as [H|H]; try done; [by apply elem_of_cons; left|lia|lia].
Qed.

Lemma FillFlashBlank_sweep_nothing (iir : IIR) :
  (forall i j A B, (i < j)%nat -> iir !! i = Some A -> iir !! j = Some B ->
     itype A = type -> itype B = type ->
     dist A B <= 0 \/ maxBlank < dist A B) ->
  FillFlashBlank_sweep type maxBlank iir = iir.
Proof.
  intros Hno. unfold FillFlashBlank_sweep.
  assert (Hbody : forall id, FillFlashBlank_body type maxBlank iir id = iir).
  { intros id. unfold FillFlashBlank_body.
    destruct (iir !! id) as [A|] eqn:HA; [|done].
    destruct (SubtitleType_eqb (itype A) type) eqn:Ht; cbn [negb]; [|done].
    apply SubtitleType_eqb_eq in Ht.
    apply FillFlashBlank_while_nothing. intros j A' B Hj HA' HB HtB.
    apply elem_of_seq in Hj. rewrite HA in HA'. injection HA' as <-.
    apply (Hno id j); (done || lia). }
  generalize (seq 0 (length iir)). intros ids.
  induction ids as [|id ids IH]; simpl; [done|]. by rewrite Hbody.
Qed.

Lemma bridge_scan_types (A : Interval) (later : list Interval) :
  itype <$> snd (bridge_scan type maxBlank A later) = itype <$> later.
Proof.
  induction later as [|B later IH]; simpl; [done|].
  destruct (negb _).
  { destruct (bridge_scan type maxBlank A later); simpl in *. by f_equal. }
  destruct (dist A B <=? 0).
  { destruct (bridge_scan type maxBlank A later); simpl in *. by f_equal. }
  by destruct (dist A B >? maxBlank).
Qed.

Lemma bridge_sweep_n_types (n : nat) (iir : IIR) :
  itype <$> bridge_sweep_n type maxBlank n iir = itype <$> iir.
Proof.
  revert iir. induction n as [|n IH]; intros iir; [by destruct iir|].
  destruct iir as [|A later]; [done|]. cbn [bridge_sweep_n].
  destruct (negb _).
  - rewrite !fmap_cons. by rewrite IH.
  - pose proof (bridge_scan_types A later) as Hty.
    pose proof (bridge_scan_fst_type type maxBlank A later) as HA.
    destruct (bridge_scan type maxBlank A later) as [A' later']. simpl in *.
    by rewrite IH, Hty, HA.
Qed.

Lemma of_channel_length_types (type' : SubtitleType) (l1 l2 : list Interval) :
  itype <$> l1 = itype <$> l2 ->
  length (of_channel type' l1) = length (of_channel type' l2).
Proof.
  revert l2. induction l1 as [|A l1 IH]; intros [|B l2] Heq; try done.
  injection Heq as HAB Heq.
  destruct (SubtitleType_eqb (itype A) type') eqn:Ht.
  - rewrite (of_channel_cons_eq type' A), (of_channel_cons_eq type' B)
      by (done || by rewrite <- HAB).
    simpl. f_equal. by apply IH.
  - rewrite (of_channel_cons_ne type' A), (of_channel_cons_ne type' B)
      by (done || by rewrite <- HAB).
    by apply IH.
Qed.

Lemma grown_refl (A : Interval) : grown A A.
Proof. unfold grown. repeat split; (done || lia). Qed.

Lemma Forall2_grown_refl (l : list Interval) : Forall2 grown l l.
Proof. apply Forall_Forall2_diag, Forall_forall. intros; apply grown_refl. Qed.

Lemma bridge_scan_grown (A : Interval) (later : list Interval) :
  sorted_by_begin (A :: of_channel type later) ->
  grown A (fst (bridge_scan type maxBlank A later))
  /\ Forall2 grown later (snd (bridge_scan type maxBlank A later)).
Proof.
  unfold sorted_by_begin.
  induction later as [|B later IH]; intros Hsort.
  { simpl. split; [apply grown_refl|constructor]. }
  cbn [bridge_scan].
  destruct (SubtitleType_eqb (itype B) type) eqn:Ht; cbn [negb].
  2: { rewrite of_channel_cons_ne in Hsort by done.
       destruct (IH Hsort) as [H1 H2].
       destruct (bridge_scan type maxBlank A later) as [A' rest]. simpl in *.
       split; [done|]. constructor; [apply grown_refl|done]. }
  rewrite of_channel_cons_eq in Hsort by done.
  apply StronglySorted_inv in Hsort as [Hsort HAle].
  apply Forall_cons in HAle as [HAB HAle].
  apply StronglySorted_inv in Hsort as [Hsort HBle].
  unfold begin_le in HAB.
  rewrite (dist_le A B) by done.
  destruct (Z.leb_spec (ibegin B - iend A) 0) as [Hov|Hgap].
  { assert (Hsort' : StronglySorted begin_le (A :: of_channel type later))
      by (by constructor).
    destruct (IH Hsort') as [H1 H2].
    destruct (bridge_scan type maxBlank A later) as [A' rest]. simpl in *.
    split; [done|]. constructor; [apply grown_refl|done]. }
  destruct (Z.gtb_spec (ibegin B - iend A) maxBlank) as [Hfar|Hnear]; simpl.
  { split; [apply grown_refl|apply Forall2_grown_refl]. }
  pose proof (mid_of_bounds A B) as Hmid. unfold mid_of in Hmid.
  split.
  - unfold grown. simpl. repeat split; (done || lia).
  - constructor; [|apply Forall2_grown_refl]. unfold grown. simpl.
    repeat split; (done || lia).
Qed.

Lemma bridge_sweep_n_grown (n : nat) (iir : IIR) :
  Forall begin_le_end iir -> sorted_by_begin (of_channel type iir) ->
  Forall2 grown iir (bridge_sweep_n type maxBlank n iir).
Proof.
  revert iir. induction n as [|n IH]; intros iir Hall Hsort.
  { destruct iir; apply Forall2_grown_refl. }
  destruct iir as [|A later]; [constructor|]. cbn [bridge_sweep_n].
  apply Forall_cons in Hall as [HA Hlater].
  destruct (SubtitleType_eqb (itype A) type) eqn:Ht; cbn [negb].
  - rewrite of_channel_cons_eq in Hsort by done.
    destruct (bridge_scan_invariant type maxBlank A later (ibegin A) HA Hlater
                Hsort) as (H1 & H2 & H3 & _); [done| |].
    { by apply StronglySorted_inv in Hsort as [_ ?]. }
    destruct (bridge_scan_grown A later Hsort) as [G1 G2].
    destruct (bridge_scan type maxBlank A later) as [A' later']. simpl in *.
    constructor; [done|].
    eapply Forall2_trans; [|exact G2|by apply IH].
    unfold grown. intros x y z (? & ? & ?) (? & ? & ?).
    repeat split; (lia || congruence).
  - rewrite of_channel_cons_ne in Hsort by done.
    constructor; [apply grown_refl|]. by apply IH.
Qed.

Lemma FillFlashBlank_sweep_grown (iir : IIR) :
  Forall begin_le_end iir -> sorted_by_begin (of_channel type iir) ->
  Forall2 grown iir (FillFlashBlank_sweep type maxBlank iir).
Proof.
  intros Hall Hsort. rewrite FillFlashBlank_sweep_bridge.
  by apply bridge_sweep_n_grown.
Qed.

End FillFlashBlankFacts.

(** X15: when no two intervals of the channel, the first before the second
    in the collection, are at a distance in (0, maxBlank], the sweep
    stores nothing and the pass only sorts; so it does whenever
    [maxBlank <= 0]. *)
Theorem FillFlashBlank_nothing_to_bridge
    (type : SubtitleType) (maxBlank : Z) (iir : IIR) :
  ((forall i j A B,
      (i < j)%nat -> iir !! i = Some A -> iir !! j = Some B ->
      itype A = type -> itype B = type ->
      dist A B <= 0 \/ maxBlank < dist A B) ->
   FillFlashBlank_sweep type maxBlank iir = iir
   /\ IIRPassFillFlashBlank_apply type maxBlank iir = IIR_sort iir)
  /\ (maxBlank <= 0 ->
      IIRPassFillFlashBlank_apply type maxBlank iir = IIR_sort iir).
Proof.
  split.
  - intros Hno. unfold IIRPassFillFlashBlank_apply.
    by rewrite FillFlashBlank_sweep_nothing.
  - intros Hmax. unfold IIRPassFillFlashBlank_apply.
    rewrite FillFlashBlank_sweep_nothing; [done|]. intros. lia.
Qed.

(** X16: the pass keeps the number of intervals and, position by position
    in its sweep, their types; the intervals of the other channels come
    out of the sweep as they went in, and out of the pass sorted. *)
Theorem FillFlashBlank_shape
    (type : SubtitleType) (maxBlank : Z) (iir : IIR) :
  length (IIRPassFillFlashBlank_apply type maxBlank iir) = length iir
  /\ itype <$> FillFlashBlank_sweep type maxBlank iir = itype <$> iir
  /\ (forall type',
        length (of_channel type' (IIRPassFillFlashBlank_apply type maxBlank iir))
        = length (of_channel type' iir))
  /\ (forall type', type' <> type ->
        of_channel type' (FillFlashBlank_sweep type maxBlank iir)
        = of_channel type' iir
        /\ of_channel type' (IIRPassFillFlashBlank_apply type maxBlank iir)
           = IIR_sort (of_channel type' iir)).
Proof.
  assert (Hty : itype <$> FillFlashBlank_sweep type maxBlank iir = itype <$> iir).
  { rewrite FillFlashBlank_sweep_bridge. apply bridge_sweep_n_types. }
  split; [|split; [done|split]].
  - unfold IIRPassFillFlashBlank_apply. rewrite IIR_sort_Permutation.
    apply (f_equal length) in Hty. by rewrite !length_fmap in Hty.
  - intros type'. unfold IIRPassFillFlashBlank_apply.
    rewrite of_channel_IIR_sort, IIR_sort_Permutation.
    by apply of_channel_length_types.
  - intros type' Hne.
    assert (Hsw : of_channel type' (FillFlashBlank_sweep type maxBlank iir)
                  = of_channel type' iir).
    { rewrite FillFlashBlank_sweep_bridge. unfold bridge_sweep.
      apply bridge_sweep_n_other. congruence. }
    split; [done|]. unfold IIRPassFillFlashBlank_apply.
    by rewrite of_channel_IIR_sort, Hsw.
Qed.

(** X17: on a collection whose intervals have begin <= end and whose
    intervals of the channel are in the order of their begins, the sweep
    only lowers begins and raises ends, so the pass uncovers nothing:
    a time an interval covered is covered by an interval of the same type
    after the pass. *)
Theorem FillFlashBlank_grows
    (type : SubtitleType) (maxBlank : Z) (iir : IIR) :
  Forall begin_le_end iir ->
  sorted_by_begin (of_channel type iir) ->
  Forall2 grown iir (FillFlashBlank_sweep type maxBlank iir)
  /\ (forall A t, A ∈ iir -> covers A t ->
        exists A',
          A' ∈ IIRPassFillFlashBlank_apply type maxBlank iir
          /\ itype A' = itype A /\ covers A' t).
Proof.
  intros Hall Hsort.
  pose proof (FillFlashBlank_sweep_grown type maxBlank iir Hall Hsort) as Hg.
  split; [done|]. intros A t HA Hcov.
  apply list_elem_of_lookup in HA as [i Hi].
  destruct (Forall2_lookup_l _ _ _ _ _ Hg Hi) as (A' & Hi' & HAA').
  exists A'. unfold IIRPassFillFlashBlank_apply.
  rewrite IIR_sort_Permutation. split; [by eapply list_elem_of_lookup_2|].
  unfold grown, covers in *. split; [tauto|lia].
Qed.

Lemma FillFlashBlank_grows_witness :
  Forall2 grown [mkInterval 0 100 DIALOG; mkInterval 150 250 DIALOG]
    (FillFlashBlank_sweep DIALOG 100
       [mkInterval 0 100 DIALOG; mkInterval 150 250 DIALOG])
  /\ (forall A t,
        A ∈ [mkInterval 0 100 DIALOG; mkInterval 150 250 DIALOG] ->
        covers A t ->
        exists A',
          A' ∈ IIRPassFillFlashBlank_apply DIALOG 100
                 [mkInterval 0 100 DIALOG; mkInterval 150 250 DIALOG]
          /\ itype A' = itype A /\ covers A' t).
Proof.
  apply (FillFlashBlank_grows DIALOG 100
           [mkInterval 0 100 DIALOG; mkInterval 150 250 DIALOG]).
  - repeat constructor; unfold begin_le_end; simpl; lia.
  - unfold sorted_by_begin. simpl.
    repeat constructor; unfold begin_le; simpl; lia.
Defined.

(** * The passes of [main] *)



Lemma main_fpir_passes_timestamps (fpir : FPIR) :
  timestamp <$> main_fpir_passes fpir = timestamp <$> fpir.
Proof. unfold main_fpir_passes. by rewrite !RemoveNoise_apply_timestamps. Qed.

Lemma main_fpir_passes_length (fpir : FPIR) :
  length (main_fpir_passes fpir) = length fpir.
Proof. unfold main_fpir_passes. by rewrite !RemoveNoise_apply_length. Qed.

(** X18: the four noise-removal passes of [main] keep the number of
    frames and the timestamps, and on frame points that hold a flag for
    every subtitle type they clean each channel on its own: the flags of
    a channel after the four passes are those the pass of the channel
    leaves when run alone, with the lengths [main] gives it. *)
Theorem main_fpir_passes_channels (fpir : FPIR) :
  Forall wf_FramePoint fpir ->
  length (main_fpir_passes fpir) = length fpir
  /\ timestamp <$> main_fpir_passes fpir = timestamp <$> fpir
  /\ Forall wf_FramePoint (main_fpir_passes fpir)
  /\ forall type,
       channel type (main_fpir_passes fpir)
       = channel_removal 10 (main_minNegativeLength type) (channel type fpir)
       /\ channel type (main_fpir_passes fpir)
          = channel type
              (FPIRPassRemoveNoise_apply type 10
                 (main_minNegativeLength type) fpir).
Proof.
  intros Hwf.
  split; [apply main_fpir_passes_length|].
  split; [apply main_fpir_passes_timestamps|].
  set (f1 := FPIRPassRemoveNoise_apply DIALOG 10 2 fpir).
  set (f2 := FPIRPassRemoveNoise_apply BLACKSCREEN 10 2 f1).
  set (f3 := FPIRPassRemoveNoise_apply WHITESCREEN 10 0 f2).
  assert (Hwf1 : Forall wf_FramePoint f1) by (by apply RemoveNoise_apply_wf).
  assert (Hwf2 : Forall wf_FramePoint f2) by (by apply RemoveNoise_apply_wf).
  assert (Hwf3 : Forall wf_FramePoint f3) by (by apply RemoveNoise_apply_wf).
  split; [by apply RemoveNoise_apply_wf|].
  assert (H : forall type,
    channel type (main_fpir_passes fpir)
    = channel_removal 10 (main_minNegativeLength type) (channel type fpir)).
  { intros type. unfold main_fpir_passes. fold f1 f2 f3.
    destruct type; simpl main_minNegativeLength.
    - rewrite (RemoveNoise_apply_other_channel CGSUB 10 2 DIALOG f3) by done.
      unfold f3.
      rewrite (RemoveNoise_apply_other_channel WHITESCREEN 10 0 DIALOG f2)
        by done.
      unfold f2.
      rewrite (RemoveNoise_apply_other_channel BLACKSCREEN 10 2 DIALOG f1)
        by done.
      by apply RemoveNoise_apply_channel.
    - rewrite (RemoveNoise_apply_other_channel CGSUB 10 2 BLACKSCREEN f3)
        by done.
      unfold f3.
      rewrite (RemoveNoise_apply_other_channel WHITESCREEN 10 0 BLACKSCREEN f2)
        by done.
      unfold f2. rewrite RemoveNoise_apply_channel by done. f_equal.
      by apply RemoveNoise_apply_other_channel.
    - rewrite (RemoveNoise_apply_other_channel CGSUB 10 2 WHITESCREEN f3)
        by done.
      unfold f3. rewrite RemoveNoise_apply_channel by done. f_equal.
      unfold f2.
      rewrite (RemoveNoise_apply_other_channel BLACKSCREEN 10 2 WHITESCREEN f1)
        by done.
      by apply RemoveNoise_apply_other_channel.
    - rewrite RemoveNoise_apply_channel by done. f_equal. unfold f3.
      rewrite (RemoveNoise_apply_other_channel WHITESCREEN 10 0 CGSUB f2)
        by done.
      unfold f2.
      rewrite (RemoveNoise_apply_other_channel BLACKSCREEN 10 2 CGSUB f1)
        by done.
      by apply RemoveNoise_apply_other_channel. }
  intros type. split; [done|].
  by rewrite H, RemoveNoise_apply_channel.
Qed.

Lemma main_fpir_passes_channels_witness :
  length (main_fpir_passes noisy8) = length noisy8
  /\ timestamp <$> main_fpir_passes noisy8 = timestamp <$> noisy8
  /\ Forall wf_FramePoint (main_fpir_passes noisy8)
  /\ forall type,
       channel type (main_fpir_passes noisy8)
       = channel_removal 10 (main_minNegativeLength type) (channel type noisy8)
       /\ channel type (main_fpir_passes noisy8)
          = channel type
              (FPIRPassRemoveNoise_apply type 10
                 (main_minNegativeLength type) noisy8).
Proof.
  apply (main_fpir_passes_channels noisy8). repeat constructor.
Defined.

Section MainIIRPasses.

Variable type : SubtitleType.



End MainIIRPasses.


